(** * Podcast knowledge-graph pipeline: linker, ingestion, id mapping, search

    A shallow embedding of the TypeScript sources

      - scripts/comprehensive-graph-extraction.ts  (ingestion, cross-episode linker)
      - scripts/parse_episodes_nodejs.ts           (EpisodeIdMapper)
      - the podcast search engine (PodcastSearchEngine)

    JavaScript values are modelled as follows.
      - strings: [string], read as text over the ASCII alphabet:
        [toLowerCase] maps the letters A-Z, and a character above 127 is a
        symbol without case that is neither a word character nor white
        space;
      - numbers: exact rationals [Q], the rounding of doubles left aside;
        where the source can produce NaN the model says so with [option];
      - arrays: [list]; [Map]s whose iteration order is observed: association
        lists in insertion order; other [Map]s and [Set]s: [gmap] and [gset];
      - exceptions: the [result] type. *)

From Stdlib Require Import Ascii String QArith Qminmax Qround Lqa.
From Stdlib Require Import Sorted.
From stdpp Require Import base gmap strings list pretty.

Local Open Scope string_scope.
Local Open Scope list_scope.

(** ** JavaScript strings *)

Module JS.

Definition isUpper (c : ascii) : bool :=
  (65 <=? nat_of_ascii c)%nat && (nat_of_ascii c <=? 90)%nat.

Definition lowerChar (c : ascii) : ascii :=
  if isUpper c then ascii_of_nat (nat_of_ascii c + 32) else c.

(** [s.toLowerCase()] *)
Fixpoint toLowerCase (s : string) : string :=
  match s with
  | EmptyString => EmptyString
  | String c t => String (lowerChar c) (toLowerCase t)
  end.

(** Truthiness of a string value: only the empty string is falsy. *)
Definition truthy (s : string) : bool :=
  match s with
  | EmptyString => false
  | String _ _ => true
  end.

(** [hay.startsWith(needle)] *)
Fixpoint startsWith (hay needle : string) : bool :=
  match needle, hay with
  | EmptyString, _ => true
  | String _ _, EmptyString => false
  | String a n, String b h => if Ascii.eqb a b then startsWith h n else false
  end.

(** [hay.includes(needle)] *)
Fixpoint includes (hay needle : string) : bool :=
  startsWith hay needle ||
  match hay with
  | EmptyString => false
  | String _ t => includes t needle
  end.

(** [hay.indexOf(needle)], [None] standing for [-1]. *)
Fixpoint indexOf (hay needle : string) : option nat :=
  if startsWith hay needle then Some 0%nat
  else match hay with
       | EmptyString => None
       | String _ t => S <$> indexOf t needle
       end.

(** [s.substring(i, j)] for [0 <= i] and [0 <= j]. *)
Definition substring (s : string) (i j : nat) : string :=
  String.substring (Nat.min i j) (Nat.max i j - Nat.min i j) s.

(** [s.split(' ')]: the pieces between single spaces; never an empty list. *)
Fixpoint splitSpace (s : string) : list string :=
  match s with
  | EmptyString => [EmptyString]
  | String c t =>
      if Ascii.eqb c " "%char then EmptyString :: splitSpace t
      else match splitSpace t with
           | [] => [String c EmptyString]
           | w :: ws => String c w :: ws
           end
  end.

(** The double-quote character, as a one-character string. *)
Definition dquote : string := String (ascii_of_nat 34) EmptyString.

(** A character of the ASCII alphabet, on which this model and JavaScript
    agree about case, word characters and white space. *)
Definition isAscii (c : ascii) : bool := (nat_of_ascii c <? 128)%nat.

End JS.

(** ** Records shared by the pipeline stages *)

Module Entity.
Record t := mk {
  id : string;
  episode_id : string;
  name : string;
  type : string;
  context : string;
  amazon_searchable : bool;
  amazon_keywords : option (list string);
  confidence_score : option Q
}.
End Entity.

Module Relationship.
Record t := mk {
  id : string;
  episode_id : string;
  entity1_id : string;
  entity1_name : string;
  entity2_id : string;
  entity2_name : string;
  relationship_type : string;
  description : string;
  confidence_score : option Q;
  is_cross_episode : option bool
}.
End Relationship.

Module EpisodeData.
Record t := mk {
  episode_id : string;
  episode_title : string;
  episode_number : option Z;
  date : option string;
  url : option string;
  entities : list Entity.t;
  relationships : list Relationship.t
}.
End EpisodeData.

Module CrossEpisodeRelationship.
Record t := mk {
  id : string;
  episode1_id : string;
  episode1_title : string;
  episode2_id : string;
  episode2_title : string;
  shared_entities : list string;
  relationship_strength : Q;
  common_themes : list string
}.
End CrossEpisodeRelationship.

(** ** The cross-episode linker (comprehensive-graph-extraction.ts) *)

Module Linker.

Definition sameEntity (entity1 entity2 : Entity.t) : bool :=
  String.eqb (JS.toLowerCase (Entity.name entity1)) (JS.toLowerCase (Entity.name entity2))
  && String.eqb (Entity.type entity1) (Entity.type entity2).

(** The outer loop pushes [entity1] at its first partner in [entities2]. *)
Fixpoint findSharedEntities (entities1 entities2 : list Entity.t) : list Entity.t :=
  match entities1 with
  | [] => []
  | entity1 :: rest =>
      if existsb (sameEntity entity1) entities2
      then entity1 :: findSharedEntities rest entities2
      else findSharedEntities rest entities2
  end.

(** The [switch] on [entity.type]. *)
Definition typeWeight (ty : string) : Q :=
  if String.eqb ty "person" then 3
  else if String.eqb ty "place" then 5 # 2
  else if String.eqb ty "product" then 2
  else if String.eqb ty "media" then 3 # 2
  else 1.

Definition weightedScore (sharedEntities : list Entity.t) : Q :=
  fold_left (fun acc entity => acc + typeWeight (Entity.type entity))%Q sharedEntities 0%Q.

(** [Math.min(1, (weightedScore / Math.max(n1, n2)) * 2)].  A zero divisor
    gives [Infinity] (clamped to 1) for a positive score and [NaN], here
    [None], for [0 / 0]. *)
Definition calculateRelationshipStrength
    (sharedEntities : list Entity.t) (ep1 ep2 : EpisodeData.t) : option Q :=
  let totalEntities1 := length (EpisodeData.entities ep1) in
  let totalEntities2 := length (EpisodeData.entities ep2) in
  let w := weightedScore sharedEntities in
  match Nat.max totalEntities1 totalEntities2 with
  | O => if Qeq_bool w 0 then None else Some 1%Q
  | S _ as m => Some (Qmin 1 ((w / inject_Z (Z.of_nat m)) * 2))%Q
  end.

(** [themes.add(label)] on a [Set] iterated in insertion order. *)
Definition addTheme (label : string) (themes : list string) : list string :=
  if existsb (String.eqb label) themes then themes else themes ++ [label].

Definition themesOf (entity : Entity.t) (themes : list string) : list string :=
  let ty := Entity.type entity in
  let t1 := if String.eqb ty "person" then addTheme "Entrepreneurship" themes else themes in
  let t2 := if String.eqb ty "place" && JS.includes (Entity.context entity) "company"
            then addTheme "Business Strategy" t1 else t1 in
  let t3 := if String.eqb ty "product" then addTheme "Product Development" t2 else t2 in
  let t4 := if String.eqb ty "media" && JS.includes (Entity.context entity) "book"
            then addTheme "Business Literature" t3 else t3 in
  if Entity.amazon_searchable entity then addTheme "Recommended Products" t4 else t4.

Definition extractCommonThemes (sharedEntities : list Entity.t) : list string :=
  fold_left (fun themes entity => themesOf entity themes) sharedEntities [].

(** [a > b] on numbers. *)
Definition gt (a b : Q) : bool := negb (Qle_bool a b).

(** The record pushed for a retained pair. *)
Definition crossRecord (episode1 episode2 : EpisodeData.t)
    (sharedEntities : list Entity.t) (relationshipStrength : Q)
    : CrossEpisodeRelationship.t :=
  {| CrossEpisodeRelationship.id :=
       "cross_" +:+ EpisodeData.episode_id episode1 +:+ "_" +:+ EpisodeData.episode_id episode2;
     CrossEpisodeRelationship.episode1_id := EpisodeData.episode_id episode1;
     CrossEpisodeRelationship.episode1_title := EpisodeData.episode_title episode1;
     CrossEpisodeRelationship.episode2_id := EpisodeData.episode_id episode2;
     CrossEpisodeRelationship.episode2_title := EpisodeData.episode_title episode2;
     CrossEpisodeRelationship.shared_entities := map Entity.name sharedEntities;
     CrossEpisodeRelationship.relationship_strength := relationshipStrength;
     CrossEpisodeRelationship.common_themes := extractCommonThemes sharedEntities |}.

(** The body of the inner loop: what the pair [(i, j)] adds to the output. *)
Definition linkPair (episode1 episode2 : EpisodeData.t)
    : option CrossEpisodeRelationship.t :=
  let sharedEntities :=
    findSharedEntities (EpisodeData.entities episode1) (EpisodeData.entities episode2) in
  if (0 <? length sharedEntities)%nat then
    match calculateRelationshipStrength sharedEntities episode1 episode2 with
    | Some relationshipStrength =>
        if gt relationshipStrength (3 # 10)
        then Some (crossRecord episode1 episode2 sharedEntities relationshipStrength)
        else None
    | None => None
    end
  else None.

(** [for j = i + 1 ..] *)
Fixpoint linkWithLater (episode1 : EpisodeData.t) (later : list EpisodeData.t)
    : list CrossEpisodeRelationship.t :=
  match later with
  | [] => []
  | episode2 :: rest =>
      match linkPair episode1 episode2 with
      | Some r => r :: linkWithLater episode1 rest
      | None => linkWithLater episode1 rest
      end
  end.

(** [for i = 0 ..] *)
Fixpoint detectCrossEpisodeRelationships (allEpisodeData : list EpisodeData.t)
    : list CrossEpisodeRelationship.t :=
  match allEpisodeData with
  | [] => []
  | episode1 :: later =>
      linkWithLater episode1 later ++ detectCrossEpisodeRelationships later
  end.

(** The sum of the type weights over a list of entities, written as the
    mathematical sum the documentation speaks of. *)
Fixpoint sharedWeight (sharedEntities : list Entity.t) : Q :=
  match sharedEntities with
  | [] => 0
  | entity :: rest => typeWeight (Entity.type entity) + sharedWeight rest
  end.

(** The theme labels a shared entity calls for. *)
Definition contributes (entity : Entity.t) (t : string) : Prop :=
  (t = "Entrepreneurship" ∧ Entity.type entity = "person")
  ∨ (t = "Business Strategy" ∧ Entity.type entity = "place"
     ∧ JS.includes (Entity.context entity) "company" = true)
  ∨ (t = "Product Development" ∧ Entity.type entity = "product")
  ∨ (t = "Business Literature" ∧ Entity.type entity = "media"
     ∧ JS.includes (Entity.context entity) "book" = true)
  ∨ (t = "Recommended Products" ∧ Entity.amazon_searchable entity = true).

End Linker.

(** ** Ingestion of an extraction payload (comprehensive-graph-extraction.ts) *)

Module Ingest.

(** The parsed JSON an LLM returned: every field may be absent. *)
Record EntityPayload := {
  p_name : option string;
  p_type : option string;
  p_context : option string;
  p_amazon_searchable : option bool;
  p_amazon_keywords : option (list string);
  p_confidence_score : option Q
}.

Record RelationshipPayload := {
  p_entity1_name : option string;
  p_entity2_name : option string;
  p_relationship_type : option string;
  p_description : option string;
  p_rel_confidence_score : option Q
}.

(** [None] for a field that is missing or not an array. *)
Record ExtractedData := {
  x_entities : option (list EntityPayload);
  x_relationships : option (list RelationshipPayload)
}.

(** The extractor object: the cache of first-seen entities, and how many
    UUIDs were drawn so far from the generator [uuidv4]. *)
Record Extractor := {
  globalEntities : gmap string Entity.t;
  uuidCalls : nat
}.

(** [v || d] on an optional string. *)
Definition orString (v : option string) (d : string) : string :=
  match v with
  | Some s => if JS.truthy s then s else d
  | None => d
  end.

(** [v || d] on an optional number: 0 is falsy. *)
Definition orNumber (v : option Q) (d : Q) : Q :=
  match v with
  | Some q => if Qeq_bool q 0 then d else q
  | None => d
  end.

(** The truthy string of an optional field, if there is one. *)
Definition truthyString (v : option string) : option string :=
  match v with
  | Some s => if JS.truthy s then Some s else None
  | None => None
  end.

Definition isLowerAlnum (c : ascii) : bool :=
  let n := nat_of_ascii c in
  ((97 <=? n) && (n <=? 122) || (48 <=? n) && (n <=? 57))%nat.

Fixpoint keepChars (f : ascii -> bool) (s : string) : string :=
  match s with
  | EmptyString => EmptyString
  | String c t => if f c then String c (keepChars f t) else keepChars f t
  end.

Definition createEntityId (name type episodeId : string) : string :=
  let normalized := keepChars isLowerAlnum (JS.toLowerCase name) in
  type +:+ "_" +:+ normalized +:+ "_" +:+ JS.substring episodeId 0 8.

(** [[entity1Id, entity2Id].sort()] orders the two ids as strings. *)
Definition createRelationshipId (entity1Id entity2Id uuid : string) : string :=
  let sorted := if String.ltb entity2Id entity1Id
                then (entity2Id, entity1Id) else (entity1Id, entity2Id) in
  "rel_" +:+ sorted.1 +:+ "_" +:+ sorted.2 +:+ "_" +:+ JS.substring uuid 0 8.

Definition findEntityId (entityName : string) (entities : list Entity.t) : option string :=
  match find (fun e => String.eqb (JS.toLowerCase (Entity.name e))
                                  (JS.toLowerCase entityName)) entities with
  | Some found => Some (Entity.id found)
  | None => None
  end.

Definition makeEntity (episodeId name type : string) (entityData : EntityPayload) : Entity.t :=
  {| Entity.id := createEntityId name type episodeId;
     Entity.episode_id := episodeId;
     Entity.name := name;
     Entity.type := type;
     Entity.context := orString (p_context entityData) "";
     Entity.amazon_searchable := default false (p_amazon_searchable entityData);
     Entity.amazon_keywords := p_amazon_keywords entityData;
     Entity.confidence_score := Some (orNumber (p_confidence_score entityData) (8 # 10)) |}.

(** One round of the entity loop: [continue] on a falsy name or type,
    otherwise push the entity and remember it if its key is new. *)
Definition entityStep (episodeId : string)
    (acc : list Entity.t * gmap string Entity.t) (entityData : EntityPayload)
    : list Entity.t * gmap string Entity.t :=
  match truthyString (p_name entityData), truthyString (p_type entityData) with
  | Some name, Some type =>
      let entity := makeEntity episodeId name type entityData in
      let globalKey := JS.toLowerCase (Entity.name entity) +:+ "_" +:+ Entity.type entity in
      (acc.1 ++ [entity],
       match acc.2 !! globalKey with
       | Some _ => acc.2
       | None => <[globalKey := entity]> acc.2
       end)
  | _, _ => acc
  end.

Definition makeRelationship (episodeId entity1Id entity2Id name1 name2 uuid : string)
    (relData : RelationshipPayload) : Relationship.t :=
  {| Relationship.id := createRelationshipId entity1Id entity2Id uuid;
     Relationship.episode_id := episodeId;
     Relationship.entity1_id := entity1Id;
     Relationship.entity1_name := name1;
     Relationship.entity2_id := entity2Id;
     Relationship.entity2_name := name2;
     Relationship.relationship_type := orString (p_relationship_type relData) "related_to";
     Relationship.description := orString (p_description relData) "";
     Relationship.confidence_score := Some (orNumber (p_rel_confidence_score relData) (8 # 10));
     Relationship.is_cross_episode := Some false |}.

(** One round of the relationship loop; the state is the relationships
    pushed so far and the number of UUIDs drawn. *)
Definition relationshipStep (uuidv4 : nat -> string) (episodeId : string)
    (entities : list Entity.t)
    (acc : list Relationship.t * nat) (relData : RelationshipPayload)
    : list Relationship.t * nat :=
  match truthyString (p_entity1_name relData), truthyString (p_entity2_name relData) with
  | Some name1, Some name2 =>
      match truthyString (findEntityId name1 entities),
            truthyString (findEntityId name2 entities) with
      | Some entity1Id, Some entity2Id =>
          (acc.1 ++ [makeRelationship episodeId entity1Id entity2Id name1 name2
                       (uuidv4 acc.2) relData],
           S acc.2)
      | _, _ => acc
      end
  | _, _ => acc
  end.

Definition processExtractedEntities (uuidv4 : nat -> string) (this : Extractor)
    (extractedData : ExtractedData) (episodeId episodeTitle : string)
    : (list Entity.t * list Relationship.t) * Extractor :=
  let '(entities, cache) :=
    fold_left (entityStep episodeId)
              (default [] (x_entities extractedData)) ([], globalEntities this) in
  let '(relationships, calls) :=
    fold_left (relationshipStep uuidv4 episodeId entities)
              (default [] (x_relationships extractedData)) ([], uuidCalls this) in
  ((entities, relationships), {| globalEntities := cache; uuidCalls := calls |}).

(** The payloads the documentation calls acceptable: a name and a type,
    neither empty. *)
Definition hasNameAndType (entityData : EntityPayload) : bool :=
  match p_name entityData, p_type entityData with
  | Some name, Some type => negb (String.eqb name "") && negb (String.eqb type "")
  | _, _ => false
  end.

(** [entityName] is, up to case, the name of one of [entities]. *)
Definition namesEntity (entities : list Entity.t) (entityName : string) : bool :=
  existsb (fun e => String.eqb (JS.toLowerCase (Entity.name e))
                               (JS.toLowerCase entityName)) entities.

(** The relationship payloads the documentation calls resolvable: both
    names are given and name entities of the episode. *)
Definition resolvable (entities : list Entity.t) (relData : RelationshipPayload) : bool :=
  match p_entity1_name relData, p_entity2_name relData with
  | Some name1, Some name2 =>
      negb (String.eqb name1 "") && negb (String.eqb name2 "")
      && namesEntity entities name1 && namesEntity entities name2
  | _, _ => false
  end.

(** What the entity loop has pushed after any number of rounds. *)
Definition entityInvariant (episodeId : string)
    (payloads : list EntityPayload) (entities : list Entity.t) : Prop :=
  Forall2 (fun entityData e =>
             p_name entityData = Some (Entity.name e)
             ∧ p_type entityData = Some (Entity.type e)
             ∧ e = makeEntity episodeId (Entity.name e) (Entity.type e) entityData)
          (List.filter hasNameAndType payloads) entities.

(** What a stored relationship says about the entities of its episode. *)
Definition resolves (episodeId : string) (entities : list Entity.t)
    (r : Relationship.t) : Prop :=
  Relationship.episode_id r = episodeId
  ∧ ∃ e1 e2,
      e1 ∈ entities ∧ e2 ∈ entities
      ∧ Entity.id e1 = Relationship.entity1_id r
      ∧ Entity.id e2 = Relationship.entity2_id r
      ∧ JS.toLowerCase (Entity.name e1) = JS.toLowerCase (Relationship.entity1_name r)
      ∧ JS.toLowerCase (Entity.name e2) = JS.toLowerCase (Relationship.entity2_name r).

Definition sameNames (relData : RelationshipPayload) (r : Relationship.t) : Prop :=
  p_entity1_name relData = Some (Relationship.entity1_name r)
  ∧ p_entity2_name relData = Some (Relationship.entity2_name r).

Definition relationshipInvariant (episodeId : string) (entities : list Entity.t)
    (payloads : list RelationshipPayload) (relationships : list Relationship.t) : Prop :=
  Forall2 sameNames (List.filter (resolvable entities) payloads) relationships
  ∧ Forall (resolves episodeId entities) relationships.

(** The key under which an entity is cached. *)
Definition globalKey (entity : Entity.t) : string :=
  JS.toLowerCase (Entity.name entity) +:+ "_" +:+ Entity.type entity.

End Ingest.

(** ** Stable episode ids across runs (parse_episodes_nodejs.ts) *)

Module IdMapper.

Record Episode := {
  title : string;
  url : string;
  description : string;
  time_info : string;
  date : string;
  duration : string;
  type : string;
  episode_number : option Z;
  has_play_button : bool;
  play_button_label : string;
  text : string;
  episode_id : option string
}.

(** The three private maps of [EpisodeIdMapper]. *)
Record Mapper := {
  existingIds : gmap string string;
  episodeNumberToId : gmap Z string;
  titleToId : gmap string string
}.

(** An episode of a graph file, as [loadExistingIds] reads it. *)
Record GraphEpisodeData := {
  g_episode_id : string;
  g_episode_title : string;
  g_episode_number : option Z;
  g_url : option string
}.

(** [\w] *)
Definition isWord (c : ascii) : bool :=
  let n := nat_of_ascii c in
  ((97 <=? n) && (n <=? 122) || (65 <=? n) && (n <=? 90)
   || (48 <=? n) && (n <=? 57) || (n =? 95))%nat.

(** [\s]: tab, line feed, vertical tab, form feed, carriage return, space. *)
Definition isSpace (c : ascii) : bool :=
  let n := nat_of_ascii c in
  ((9 <=? n) && (n <=? 13) || (n =? 32))%nat.

(** [.replace(/\s+/g, ' ')]; [inRun] says the previous character was white
    space, whose run has already been replaced. *)
Fixpoint collapseSpaces (inRun : bool) (s : string) : string :=
  match s with
  | EmptyString => EmptyString
  | String c t =>
      if isSpace c
      then (if inRun then collapseSpaces true t else String " " (collapseSpaces true t))
      else String c (collapseSpaces false t)
  end.

Fixpoint trimStart (s : string) : string :=
  match s with
  | EmptyString => EmptyString
  | String c t => if isSpace c then trimStart t else s
  end.

Fixpoint trimEnd (s : string) : string :=
  match s with
  | EmptyString => EmptyString
  | String c t =>
      match trimEnd t with
      | EmptyString => if isSpace c then EmptyString else String c EmptyString
      | t' => String c t'
      end
  end.

Definition trim (s : string) : string := trimEnd (trimStart s).

Definition normalizeTitle (title : string) : string :=
  trim (collapseSpaces false
          (Ingest.keepChars (fun c => isWord c || isSpace c) (JS.toLowerCase title))).

(** A number used as a condition: absent and 0 are falsy. *)
Definition truthyNumber (n : option Z) : option Z :=
  match n with
  | Some k => if (k =? 0)%Z then None else Some k
  | None => None
  end.

(** [generateEpisodeId]; the eight characters taken from a fresh UUID and
    the time stamp of the episode's date ([None] for [NaN]) come from the
    environment. *)
Definition generateEpisodeId (episode : Episode)
    (uuid : string) (timestamp : option Z) : string :=
  let shortUuid := JS.substring uuid 0 8 in
  match truthyNumber (episode_number episode) with
  | Some n => "ep_" +:+ pretty n +:+ "_" +:+ shortUuid
  | None => "ep_" +:+ from_option pretty "NaN" timestamp +:+ "_" +:+ shortUuid
  end.

(** One episode of a graph file in [loadExistingIds]. *)
Definition loadEpisode (this : Mapper) (episode : GraphEpisodeData) : Mapper :=
  {| episodeNumberToId :=
       match truthyNumber (g_episode_number episode) with
       | Some n => <[n := g_episode_id episode]> (episodeNumberToId this)
       | None => episodeNumberToId this
       end;
     titleToId :=
       <[normalizeTitle (g_episode_title episode) := g_episode_id episode]> (titleToId this);
     existingIds :=
       match Ingest.truthyString (g_url episode) with
       | Some u => <[u := g_episode_id episode]> (existingIds this)
       | None => existingIds this
       end |}.

Definition loadExistingIds (this : Mapper) (episodes : list GraphEpisodeData) : Mapper :=
  fold_left loadEpisode episodes this.

(** The caching of a freshly generated id. *)
Definition remember (this : Mapper) (episode : Episode) (newId : string) : Mapper :=
  {| episodeNumberToId :=
       match truthyNumber (episode_number episode) with
       | Some n => <[n := newId]> (episodeNumberToId this)
       | None => episodeNumberToId this
       end;
     titleToId := <[normalizeTitle (title episode) := newId]> (titleToId this);
     existingIds :=
       if JS.truthy (url episode) then <[url episode := newId]> (existingIds this)
       else existingIds this |}.

Definition findOrCreateEpisodeId (this : Mapper) (episode : Episode)
    (uuid : string) (timestamp : option Z) : string * Mapper :=
  (* Priority 1: match by episode number *)
  match truthyNumber (episode_number episode) ≫= (episodeNumberToId this !!.) with
  | Some existingId => (existingId, this)
  | None =>
      (* Priority 2: match by URL *)
      match (if JS.truthy (url episode) then existingIds this !! url episode else None) with
      | Some existingId => (existingId, this)
      | None =>
          (* Priority 3: match by normalized title *)
          let normalizedTitle := normalizeTitle (title episode) in
          match titleToId this !! normalizedTitle with
          | Some existingId => (existingId, this)
          | None =>
              (* Priority 4: generate a new id and cache it *)
              let newId := generateEpisodeId episode uuid timestamp in
              (newId, remember this episode newId)
          end
      end
  end.

(** *** [addEpisodeIds] and [generateMappingReport] *)

Record PodcastSummary := {
  podcast_name : string;
  source_url : string;
  extracted_at : string;
  total_episodes : Z;
  episodes : list Episode
}.

(** [{...episode, episode_id: episodeId}] *)
Definition withEpisodeId (episode : Episode) (episodeId : string) : Episode :=
  {| title := title episode; url := url episode;
     description := description episode; time_info := time_info episode;
     date := date episode; duration := duration episode; type := type episode;
     episode_number := episode_number episode;
     has_play_button := has_play_button episode;
     play_button_label := play_button_label episode; text := text episode;
     episode_id := Some episodeId |}.

(** [podcastSummary.episodes.map((episode, index) => ...)] with the mapper
    threaded through.  The environment gives, for the episode at [index],
    the UUID the generator returns if one is drawn for it, and for a date
    string the time stamp [new Date(date).getTime()]. *)
Fixpoint identifyAll (uuidFor : nat -> string) (getTime : string -> option Z)
    (index : nat) (this : Mapper) (todo : list Episode) : list Episode * Mapper :=
  match todo with
  | [] => ([], this)
  | episode :: rest =>
      let '(episodeId, this1) :=
        findOrCreateEpisodeId this episode (uuidFor index) (getTime (date episode)) in
      let '(updated, this2) := identifyAll uuidFor getTime (S index) this1 rest in
      (withEpisodeId episode episodeId :: updated, this2)
  end.

(** [graphFiles]: the episodes of the graph files that exist, in the order
    in which [loadExistingIds] reads the files. *)
Definition addEpisodeIds (uuidFor : nat -> string) (getTime : string -> option Z)
    (graphFiles : list (list GraphEpisodeData)) (this : Mapper)
    (podcastSummary : PodcastSummary) : PodcastSummary * Mapper :=
  let loaded := fold_left loadExistingIds graphFiles this in
  let '(updatedEpisodes, this') :=
    identifyAll uuidFor getTime 0 loaded (episodes podcastSummary) in
  ({| podcast_name := podcast_name podcastSummary;
      source_url := source_url podcastSummary;
      extracted_at := extracted_at podcastSummary;
      total_episodes := total_episodes podcastSummary;
      episodes := updatedEpisodes |}, this').

(** The numbers [generateMappingReport] prints. *)
Record Report := {
  existingMapped : nat;
  newGenerated : nat;
  withNumbers : nat;
  withoutNumbers : nat
}.

Definition wasExisting (this : Mapper) (episode : Episode) : bool :=
  bool_decide (is_Some (episodeNumberToId this
                          !! default (-1)%Z (truthyNumber (episode_number episode))))
  || bool_decide (is_Some (titleToId this !! normalizeTitle (title episode)))
  || (if JS.truthy (url episode)
      then bool_decide (is_Some (existingIds this !! url episode)) else false).

Definition countEpisode (this : Mapper) (report : Report) (episode : Episode) : Report :=
  let existing := wasExisting this episode in
  let numbered := bool_decide (is_Some (truthyNumber (episode_number episode))) in
  {| existingMapped := if existing then S (existingMapped report) else existingMapped report;
     newGenerated := if existing then newGenerated report else S (newGenerated report);
     withNumbers := if numbered then S (withNumbers report) else withNumbers report;
     withoutNumbers := if numbered then withoutNumbers report
                       else S (withoutNumbers report) |}.

Definition generateMappingReport (this : Mapper)
    (originalData updatedData : PodcastSummary) : Report :=
  fold_left (countEpisode this) (episodes updatedData)
            {| existingMapped := 0; newGenerated := 0;
               withNumbers := 0; withoutNumbers := 0 |}.

(** [this'] has every binding of [this]. *)
Definition extends (this this' : Mapper) : Prop :=
  existingIds this ⊆ existingIds this'
  ∧ episodeNumberToId this ⊆ episodeNumberToId this'
  ∧ titleToId this ⊆ titleToId this'.

(** The id the three lookups find for an episode, if any. *)
Definition knownId (this : Mapper) (episode : Episode) : option string :=
  match truthyNumber (episode_number episode) ≫= (episodeNumberToId this !!.) with
  | Some existingId => Some existingId
  | None =>
      match (if JS.truthy (url episode) then existingIds this !! url episode else None) with
      | Some existingId => Some existingId
      | None => titleToId this !! normalizeTitle (title episode)
      end
  end.

(** No white space but single blanks, none of them after another;
    [afterSpace] says the previous character was one. *)
Fixpoint singleSpaced (afterSpace : bool) (s : string) : bool :=
  match s with
  | EmptyString => true
  | String c t =>
      if isSpace c
      then Ascii.eqb c " " && negb afterSpace && singleSpaced true t
      else singleSpaced false t
  end.

(** The string does not begin with white space. *)
Definition startsTidy (s : string) : bool :=
  match s with
  | EmptyString => true
  | String c _ => negb (isSpace c)
  end.

(** *** The key of a title, word by word

    A second description of what [normalizeTitle] computes, to compare it
    with: the title is cut at its white space into runs of other
    characters; each run is lower-cased and loses every character that is
    not a letter, a digit or an underscore; the runs left empty are dropped
    and the others joined by single blanks. *)

(** The run of characters other than white space the string begins with,
    and the later runs. *)
Fixpoint runs (s : string) : string * list string :=
  match s with
  | EmptyString => (EmptyString, [])
  | String c t =>
      let '(w, ws) := runs t in
      if isSpace c then (EmptyString, w :: ws) else (String c w, ws)
  end.

Definition cleanWord (w : string) : string :=
  Ingest.keepChars isWord (JS.toLowerCase w).

Definition titleWords (title : string) : list string :=
  let '(w, ws) := runs title in
  List.filter JS.truthy (map cleanWord (w :: ws)).

Definition titleKey (title : string) : string :=
  String.concat " " (titleWords title).

(** The non-empty runs of a string joined by single blanks. *)
Definition joined (k : string) : string :=
  let '(w, ws) := runs k in String.concat " " (List.filter JS.truthy (w :: ws)).

(** [x] behind a blank when [k] begins with white space and [x] is not
    empty. *)
Definition afterBlank (k x : string) : string :=
  match k with
  | String c _ =>
      if isSpace c
      then match x with EmptyString => EmptyString | _ => String " " x end
      else x
  | EmptyString => x
  end.

(** *** The normalization as the documentation words it

    Lower case, punctuation stripped, white space collapsed; the
    punctuation marks of ASCII are the printable characters that are
    neither letters nor digits nor the blank, the underscore among them. *)
Definition isPunctuation (c : ascii) : bool :=
  let n := nat_of_ascii c in
  ((33 <=? n) && (n <=? 47) || (58 <=? n) && (n <=? 64)
   || (91 <=? n) && (n <=? 96) || (123 <=? n) && (n <=? 126))%nat.

Definition documentedTitle (title : string) : string :=
  trim (collapseSpaces false
          (Ingest.keepChars (fun c => negb (isPunctuation c)) (JS.toLowerCase title))).

(** The maps never hold a falsy key: neither the loader nor the mapper
    stores an entry under episode number 0 or under the empty URL. *)
Definition keysTruthy (this : Mapper) : Prop :=
  episodeNumberToId this !! 0%Z = None ∧ existingIds this !! "" = None.

Definition emptyMapper : Mapper :=
  {| existingIds := ∅; episodeNumberToId := ∅; titleToId := ∅ |}.

End IdMapper.

(** ** Exceptions *)

Inductive error :=
  | SyntaxError      (* thrown by [new RegExp(pattern)] on an invalid pattern *)
  | NotLiteral.      (* a pattern that only a regular-expression engine can
                        compile and match; this development has none *)

Inductive result (A : Type) :=
  | Ok (a : A)
  | Err (e : error).
Arguments Ok {A} a.
Arguments Err {A} e.

Definition bind {A B} (m : result A) (k : A -> result B) : result B :=
  match m with
  | Ok a => k a
  | Err e => Err e
  end.

Notation "'let*' x := m 'in' k" := (bind m (fun x => k))
  (at level 10, x pattern, m at level 100, k at level 200).

(** ** The search engine (PodcastSearchEngine) *)

Module Search.

Record Episode := {
  title : string;
  text : string;
  episode_number : option Z;
  date : option string;
  url : option string;
  episode_id : string
}.

Record SearchResult := {
  r_episode_id : string;
  r_episode_title : string;
  r_episode_number : option Z;
  r_episode_url : option string;
  r_episode_date : option string;
  match_type : string;
  match_details : string;
  entities_linked : list Entity.t;
  relationships_linked : list Relationship.t;
  relevance_score : Q
}.

(** What [loadSummaryData] and [loadModelData] put into the engine. *)
Record Corpus := {
  episodes : list Episode;
  all_entities : list Entity.t;
  all_relationships : list Relationship.t
}.

(** *** [new RegExp(pattern, 'g')] and [text.match(...)]

    The search term is handed to the regular-expression compiler as it is.
    Characters with a meaning in a pattern: *)
Definition isMeta (c : ascii) : bool :=
  existsb (Ascii.eqb c)
    (list_ascii_of_string "\^$.|?*+()[]{}").

Definition isQuantifier (c : ascii) : bool :=
  Ascii.eqb c "*"%char || Ascii.eqb c "+"%char.

Fixpoint allChars (f : ascii -> bool) (s : string) : bool :=
  match s with
  | EmptyString => true
  | String c t => f c && allChars f t
  end.

(** A [*] or [+] with nothing to repeat: at the start of the pattern or
    right after another [*] or [+].  [atStart] is true when no atom
    precedes. *)
Fixpoint nothingToRepeat (atStart : bool) (s : string) : bool :=
  match s with
  | EmptyString => false
  | String c t =>
      if isQuantifier c then atStart || nothingToRepeat true t
      else nothingToRepeat false t
  end.

(** The matches of a literal pattern, left to right and not overlapping;
    [skip] characters belong to the previous match.  The empty pattern
    matches at every position, the end included. *)
Fixpoint countLiteral (pattern : string) (skip : nat) (text : string) : nat :=
  match text with
  | EmptyString =>
      match skip, pattern with
      | O, EmptyString => 1
      | _, _ => 0
      end
  | String _ t =>
      match skip with
      | S k => countLiteral pattern k t
      | O => if JS.startsWith text pattern
             then S (countLiteral pattern (String.length pattern - 1) t)
             else countLiteral pattern 0 t
      end
  end.

(** [(text.match(new RegExp(pattern, 'g')) || []).length]:
    - a pattern without special characters matches itself;
    - a pattern whose only special characters are [*] and [+] is rejected by
      the compiler when one of them has nothing to repeat;
    - the other patterns are left to a regular-expression engine. *)
Definition matchCount (pattern text : string) : result nat :=
  if allChars (fun c => negb (isMeta c)) pattern
  then Ok (countLiteral pattern 0 text)
  else if allChars (fun c => negb (isMeta c) || isQuantifier c) pattern
          && nothingToRepeat true pattern
       then Err SyntaxError
       else Err NotLiteral.

(** *** Scoring *)

Definition baseScore (matchType : string) : Q :=
  if String.eqb matchType "episode_title" then 100
  else if String.eqb matchType "entity_name" then 90
  else if String.eqb matchType "relationship_description" then 80
  else if String.eqb matchType "entity_context" then 70
  else if String.eqb matchType "episode_text" then 60
  else 50.

Definition ofNat (n : nat) : Q := inject_Z (Z.of_nat n).

(** [Math.round] *)
Definition round (x : Q) : Q := inject_Z (Qfloor (x + (1 # 2))).

Definition calculateRelevanceScore (searchTerm text matchType : string) : result Q :=
  let lowerSearchTerm := JS.toLowerCase searchTerm in
  let lowerText := JS.toLowerCase text in
  if JS.includes lowerText lowerSearchTerm then
    let* matches := matchCount lowerSearchTerm lowerText in
    let matchBonus := Qmin (ofNat matches * 10) 50 in
    let lengthPenalty := Qmax 0 ((ofNat (String.length text) - 100) / 100) in
    Ok (Qmax 1 (baseScore matchType + matchBonus - lengthPenalty))
  else
    let words := JS.splitSpace lowerSearchTerm in
    let matchingWords := List.filter (JS.includes lowerText) words in
    if (0 <? length matchingWords)%nat then
      let wordMatchRatio := (ofNat (length matchingWords) / ofNat (length words))%Q in
      Ok (round (wordMatchRatio * 30))
    else Ok 0%Q.

(** *** The three searches *)

Definition quoted (s : string) : string := JS.dquote +:+ s +:+ JS.dquote.

Definition entitiesOf (corpus : Corpus) (episodeId : string) : list Entity.t :=
  List.filter (fun e => String.eqb (Entity.episode_id e) episodeId) (all_entities corpus).

Definition relationshipsOf (corpus : Corpus) (episodeId : string) : list Relationship.t :=
  List.filter (fun r => String.eqb (Relationship.episode_id r) episodeId)
              (all_relationships corpus).

Definition findEpisodeById (corpus : Corpus) (episodeId : string) : option Episode :=
  find (fun ep => String.eqb (episode_id ep) episodeId) (episodes corpus).

(** The row pushed for [episode]. *)
Definition resultRow (corpus : Corpus) (episodeId : string) (episode : Episode)
    (matchType matchDetails : string) (relevanceScore : Q) : SearchResult :=
  {| r_episode_id := episodeId;
     r_episode_title := title episode;
     r_episode_number := episode_number episode;
     r_episode_url := url episode;
     r_episode_date := date episode;
     match_type := matchType;
     match_details := matchDetails;
     entities_linked := entitiesOf corpus episodeId;
     relationships_linked := relationshipsOf corpus episodeId;
     relevance_score := relevanceScore |}.

(** What one round of a search loop found: match type, details, score. *)
Definition Hit : Type := string * string * Q.

(** The title is tried first, then the text. *)
Definition matchEpisode (searchTerm : string) (episode : Episode) : result (option Hit) :=
  let lowerSearchTerm := JS.toLowerCase searchTerm in
  if JS.includes (JS.toLowerCase (title episode)) lowerSearchTerm then
    let* relevanceScore := calculateRelevanceScore searchTerm (title episode) "episode_title" in
    Ok (Some ("episode_title",
              "Found " +:+ quoted searchTerm +:+ " in episode title: " +:+ quoted (title episode),
              relevanceScore))
  else if JS.truthy (text episode)
          && JS.includes (JS.toLowerCase (text episode)) lowerSearchTerm then
    let textLower := JS.toLowerCase (text episode) in
    let matchIndex := default 0%nat (JS.indexOf textLower lowerSearchTerm) in
    let contextStart := (matchIndex - 100)%nat in
    let contextEnd := Nat.min (String.length (text episode))
                              (matchIndex + String.length searchTerm + 100) in
    let context := JS.substring (text episode) contextStart contextEnd in
    let* relevanceScore := calculateRelevanceScore searchTerm (text episode) "episode_text" in
    Ok (Some ("episode_text",
              "Found " +:+ quoted searchTerm +:+ " in episode text: "
                +:+ quoted ("..." +:+ context +:+ "..."),
              relevanceScore))
  else Ok None.

Fixpoint episodeLoop (corpus : Corpus) (searchTerm : string) (todo : list Episode)
    : result (list SearchResult) :=
  match todo with
  | [] => Ok []
  | episode :: rest =>
      let* hit := matchEpisode searchTerm episode in
      let* results := episodeLoop corpus searchTerm rest in
      Ok match hit with
         | Some (matchType, matchDetails, relevanceScore) =>
             resultRow corpus (episode_id episode) episode
                       matchType matchDetails relevanceScore :: results
         | None => results
         end
  end.

Definition searchInEpisodeText (corpus : Corpus) (searchTerm : string)
    : result (list SearchResult) :=
  episodeLoop corpus searchTerm (episodes corpus).

(** The name is tried first, then the context. *)
Definition matchEntity (searchTerm : string) (entity : Entity.t) : result (option Hit) :=
  let lowerSearchTerm := JS.toLowerCase searchTerm in
  if JS.includes (JS.toLowerCase (Entity.name entity)) lowerSearchTerm then
    let* relevanceScore :=
      calculateRelevanceScore searchTerm (Entity.name entity) "entity_name" in
    Ok (Some ("entity_name",
              "Found " +:+ quoted searchTerm +:+ " in entity name: "
                +:+ quoted (Entity.name entity) +:+ " (" +:+ Entity.type entity +:+ ")",
              relevanceScore))
  else if JS.truthy (Entity.context entity)
          && JS.includes (JS.toLowerCase (Entity.context entity)) lowerSearchTerm then
    let* relevanceScore :=
      calculateRelevanceScore searchTerm (Entity.context entity) "entity_context" in
    Ok (Some ("entity_context",
              "Found " +:+ quoted searchTerm +:+ " in entity context for "
                +:+ quoted (Entity.name entity) +:+ ": " +:+ quoted (Entity.context entity),
              relevanceScore))
  else Ok None.

(** A hit is pushed for the first matching record of an episode only:
    [processedEpisodes] holds the episodes already served.  The score of a
    matching record is computed before that test. *)
Definition pushOnce (corpus : Corpus) (episodeId : string) (hit : Hit)
    (processedEpisodes : gset string) : list SearchResult * gset string :=
  if decide (episodeId ∈ processedEpisodes) then ([], processedEpisodes)
  else
    (match findEpisodeById corpus episodeId with
     | Some episode => [resultRow corpus episodeId episode hit.1.1 hit.1.2 hit.2]
     | None => []
     end,
     {[episodeId]} ∪ processedEpisodes).

Fixpoint entityLoop (corpus : Corpus) (searchTerm : string)
    (processedEpisodes : gset string) (todo : list Entity.t) : result (list SearchResult) :=
  match todo with
  | [] => Ok []
  | entity :: rest =>
      let* hit := matchEntity searchTerm entity in
      match hit with
      | Some h =>
          let '(pushed, processed) :=
            pushOnce corpus (Entity.episode_id entity) h processedEpisodes in
          let* results := entityLoop corpus searchTerm processed rest in
          Ok (pushed ++ results)
      | None => entityLoop corpus searchTerm processedEpisodes rest
      end
  end.

Definition searchInEntities (corpus : Corpus) (searchTerm : string)
    : result (list SearchResult) :=
  entityLoop corpus searchTerm ∅ (all_entities corpus).

(** The details recorded by the two checks of a relationship. *)
Definition relationshipTriple (relationship : Relationship.t) : string :=
  quoted (Relationship.entity1_name relationship) +:+ " "
    +:+ Relationship.relationship_type relationship +:+ " "
    +:+ quoted (Relationship.entity2_name relationship).

Definition descriptionDetails (searchTerm : string) (relationship : Relationship.t)
    : string :=
  "Found " +:+ quoted searchTerm +:+ " in relationship: "
    +:+ relationshipTriple relationship
    +:+ " - " +:+ Relationship.description relationship.

Definition typeLabelDetails (searchTerm : string) (relationship : Relationship.t)
    : string :=
  "Found " +:+ quoted searchTerm +:+ " in relationship type: "
    +:+ relationshipTriple relationship.

(** The description is tried first, then the relationship type; the match
    type is the same for both. *)
Definition matchRelationship (searchTerm : string) (relationship : Relationship.t)
    : result (option Hit) :=
  let lowerSearchTerm := JS.toLowerCase searchTerm in
  if JS.truthy (Relationship.description relationship)
     && JS.includes (JS.toLowerCase (Relationship.description relationship)) lowerSearchTerm
  then
    let* relevanceScore :=
      calculateRelevanceScore searchTerm (Relationship.description relationship)
                              "relationship_description" in
    Ok (Some ("relationship_description",
              descriptionDetails searchTerm relationship, relevanceScore))
  else if JS.includes (JS.toLowerCase (Relationship.relationship_type relationship))
                      lowerSearchTerm then
    let* relevanceScore :=
      calculateRelevanceScore searchTerm (Relationship.relationship_type relationship)
                              "relationship_description" in
    Ok (Some ("relationship_description",
              typeLabelDetails searchTerm relationship, relevanceScore))
  else Ok None.

Fixpoint relationshipLoop (corpus : Corpus) (searchTerm : string)
    (processedEpisodes : gset string) (todo : list Relationship.t)
    : result (list SearchResult) :=
  match todo with
  | [] => Ok []
  | relationship :: rest =>
      let* hit := matchRelationship searchTerm relationship in
      match hit with
      | Some h =>
          let '(pushed, processed) :=
            pushOnce corpus (Relationship.episode_id relationship) h processedEpisodes in
          let* results := relationshipLoop corpus searchTerm processed rest in
          Ok (pushed ++ results)
      | None => relationshipLoop corpus searchTerm processedEpisodes rest
      end
  end.

Definition searchInRelationships (corpus : Corpus) (searchTerm : string)
    : result (list SearchResult) :=
  relationshipLoop corpus searchTerm ∅ (all_relationships corpus).

(** *** Aggregation *)

(** [uniqueResults]: a [Map] from episode id to row.  Setting a key that is
    present replaces its value where it stands; a new key goes to the end. *)
Fixpoint mapGet (key : string) (m : list (string * SearchResult)) : option SearchResult :=
  match m with
  | [] => None
  | (k, v) :: rest => if String.eqb k key then Some v else mapGet key rest
  end.

Fixpoint mapSet (key : string) (value : SearchResult) (m : list (string * SearchResult))
    : list (string * SearchResult) :=
  match m with
  | [] => [(key, value)]
  | (k, v) :: rest =>
      if String.eqb k key then (k, value) :: rest else (k, v) :: mapSet key value rest
  end.

Definition keepBest (uniqueResults : list (string * SearchResult)) (r : SearchResult)
    : list (string * SearchResult) :=
  match mapGet (r_episode_id r) uniqueResults with
  | None => mapSet (r_episode_id r) r uniqueResults
  | Some existing =>
      if Linker.gt (relevance_score r) (relevance_score existing)
      then mapSet (r_episode_id r) r uniqueResults
      else uniqueResults
  end.

(** [.sort((a, b) => b.relevance_score - a.relevance_score)]: the sort of an
    array is stable, so a row moves in front of the rows that score less
    and stays behind those that score the same or more. *)
Fixpoint insertRow (r : SearchResult) (sorted : list SearchResult) : list SearchResult :=
  match sorted with
  | [] => [r]
  | x :: rest =>
      if Linker.gt (relevance_score x) (relevance_score r)
      then x :: insertRow r rest
      else r :: sorted
  end.

Definition sortByScore (rows : list SearchResult) : list SearchResult :=
  foldr insertRow [] rows.

Definition search (corpus : Corpus) (searchTerm : string) : result (list SearchResult) :=
  let* episodeResults := searchInEpisodeText corpus searchTerm in
  let* entityResults := searchInEntities corpus searchTerm in
  let* relationshipResults := searchInRelationships corpus searchTerm in
  let allResults := episodeResults ++ entityResults ++ relationshipResults in
  let uniqueResults := fold_left keepBest allResults [] in
  Ok (sortByScore (map snd uniqueResults)).

(** A search term without special characters, once lowered. *)
Definition literalTerm (searchTerm : string) : bool :=
  allChars (fun c => negb (isMeta c)) (JS.toLowerCase searchTerm).

(** The three summands of the score of an exact match. *)
Definition matchBonus (matches : nat) : Q := Qmin (ofNat matches * 10) 50.

Definition lengthPenalty (len : nat) : Q := Qmax 0 ((ofNat len - 100) / 100).

(** What [uniqueResults] holds once the rows [processed] have gone through
    the loop: under each key the best row with that episode id. *)
Definition bestOf (processed : list SearchResult)
    (uniqueResults : list (string * SearchResult)) : Prop :=
  NoDup (map fst uniqueResults)
  ∧ ∀ key,
      match mapGet key uniqueResults with
      | Some v =>
          r_episode_id v = key ∧ v ∈ processed
          ∧ ∀ c, c ∈ processed → r_episode_id c = key →
                 (relevance_score c <= relevance_score v)%Q
      | None => ∀ c, c ∈ processed → r_episode_id c ≠ key
      end.

(** Every pushed row belongs to an episode of the summary. *)
Definition ofSummary (corpus : Corpus) (r : SearchResult) : Prop :=
  ∃ ep, ep ∈ episodes corpus ∧ episode_id ep = r_episode_id r.

(** [h] is the hit of the first record of [records], in their order, that
    belongs to the episode [episodeId] and matches: the record for which
    the loops of [searchInEntities] and [searchInRelationships] push a
    row. *)
Definition firstHit {A : Type} (idOf : A -> string) (hitOf : A -> result (option Hit))
    (records : list A) (episodeId : string) (h : Hit) : Prop :=
  ∃ before record after,
    records = before ++ record :: after
    ∧ idOf record = episodeId
    ∧ hitOf record = Ok (Some h)
    ∧ ∀ earlier, earlier ∈ before → idOf earlier = episodeId →
                 hitOf earlier = Ok None.

(** The candidate rows of a search: a row for every episode of the summary
    whose title or text matches, and for every episode of the summary a
    row for its first matching entity and a row for its first matching
    relationship. *)
Inductive candidate (corpus : Corpus) (searchTerm : string) : SearchResult -> Prop :=
  | episodeCandidate episode h :
      episode ∈ episodes corpus →
      matchEpisode searchTerm episode = Ok (Some h) →
      candidate corpus searchTerm
        (resultRow corpus (episode_id episode) episode h.1.1 h.1.2 h.2)
  | entityCandidate episodeId episode h :
      firstHit Entity.episode_id (matchEntity searchTerm)
               (all_entities corpus) episodeId h →
      findEpisodeById corpus episodeId = Some episode →
      candidate corpus searchTerm (resultRow corpus episodeId episode h.1.1 h.1.2 h.2)
  | relationshipCandidate episodeId episode h :
      firstHit Relationship.episode_id (matchRelationship searchTerm)
               (all_relationships corpus) episodeId h →
      findEpisodeById corpus episodeId = Some episode →
      candidate corpus searchTerm (resultRow corpus episodeId episode h.1.1 h.1.2 h.2).

(** No character of the string is an underscore. *)
Definition noUnderscore (s : string) : bool :=
  allChars (fun c => negb (Ascii.eqb c "_")) s.

(** [a] does not score less than [b]. *)
Definition notBelow (a b : SearchResult) : Prop :=
  (relevance_score b <= relevance_score a)%Q.

(** A row is in range when its score is between 1 and 150. *)
Definition inRange (r : SearchResult) : Prop :=
  (1 <= relevance_score r)%Q ∧ (relevance_score r <= 150)%Q.

(** The rows of [rows] that score [q], in their order. *)
Definition scoring (q : Q) (rows : list SearchResult) : list SearchResult :=
  List.filter (fun r => Qeq_bool (relevance_score r) q) rows.

End Search.

(** ** Episode numbers read off the episode list (parse_episodes_nodejs.ts) *)

Module EpisodeParser.

(** [\d] *)
Definition isDigit (c : ascii) : bool :=
  let n := nat_of_ascii c in ((48 <=? n) && (n <=? 57))%nat.

(** The longest prefix of digits: what [(\d+)] captures at this place. *)
Fixpoint takeDigits (s : string) : string :=
  match s with
  | EmptyString => EmptyString
  | String c t => if isDigit c then String c (takeDigits t) else EmptyString
  end.

(** [parseInt] on a string of digits, from the value [acc] of the digits
    read so far; exact up to [maxSafeInteger], beyond which a JS number
    is rounded. *)
Fixpoint parseDigits (acc : Z) (digits : string) : Z :=
  match digits with
  | EmptyString => acc
  | String c t => parseDigits (acc * 10 + (Z.of_nat (nat_of_ascii c) - 48)) t
  end.

(** [Number.MAX_SAFE_INTEGER], 2^53 - 1. *)
Definition maxSafeInteger : N := 9007199254740991.

(** The number a string begins with, if it begins with a digit. *)
Definition leadingNumber (s : string) : option Z :=
  match takeDigits s with
  | EmptyString => None
  | digits => Some (parseDigits 0 digits)
  end.

(** [s.match(/E(\d+)/)]: the number after the first [E] that a digit
    follows. *)
Fixpoint numberAfterE (s : string) : option Z :=
  match s with
  | EmptyString => None
  | String c t =>
      if Ascii.eqb c "E" then
        match leadingNumber t with
        | Some n => Some n
        | None => numberAfterE t
        end
      else numberAfterE t
  end.

Definition extractEpisodeNumber (title timeInfo : string) : option Z :=
  let cleanTitle := IdMapper.trim title in
  match (match cleanTitle with
         | String c t => if Ascii.eqb c "#" then leadingNumber t else None
         | EmptyString => None
         end) with
  | Some n => Some n
  | None => if JS.includes timeInfo "E" then numberAfterE timeInfo else None
  end.

End EpisodeParser.

(** ** Sample data *)

Module Examples.

Definition bezos1 : Entity.t :=
  Entity.mk "person_jeffbezos_ep1" "ep1" "Jeff Bezos" "person" "CEO of Amazon" false None None.
Definition bezos2 : Entity.t :=
  Entity.mk "person_jeffbezos_ep2" "ep2" "JEFF BEZOS" "person" "mentioned briefly" false None None.
Definition episodeOne : EpisodeData.t :=
  EpisodeData.mk "ep1" "The Bezos Letters" None None None [bezos1] [].
Definition episodeTwo : EpisodeData.t :=
  EpisodeData.mk "ep2" "Unrelated Episode" None None None [bezos2] [].

(** Two episodes and their entities, as the search engine loads them. *)
Definition bezosCorpus : Search.Corpus :=
  {| Search.episodes :=
       [ {| Search.title := "The Bezos Letters";
            Search.text := "shareholder shareholder shareholder shareholder";
            Search.episode_number := None; Search.date := None; Search.url := None;
            Search.episode_id := "ep1" |};
         {| Search.title := "Unrelated Episode";
            Search.text := "nothing relevant";
            Search.episode_number := None; Search.date := None; Search.url := None;
            Search.episode_id := "ep2" |} ];
     Search.all_entities := [bezos1; bezos2];
     Search.all_relationships := [] |}.

(** A relationship whose description and type both contain "founded". *)
Definition foundedBy : Relationship.t :=
  Relationship.mk "rel_1" "ep1" "person_jeffbezos_ep1" "Jeff Bezos"
    "place_amazon_ep1" "Amazon" "founded_by"
    "Founded the company; founded it in 1994" None None.

(** A transcript of 5000 characters that begins with the letter q. *)
Definition longText : string :=
  "q" +:+ string_of_list_ascii (repeat "x"%char 4999).

(** The mapper after loading a graph file with one episode, and that
    episode met again under another title and URL. *)
Definition loadedMapper : IdMapper.Mapper :=
  IdMapper.loadExistingIds IdMapper.emptyMapper
    [ {| IdMapper.g_episode_id := "ep_12_0a1b2c3d";
         IdMapper.g_episode_title := "#12: The Bezos Letters";
         IdMapper.g_episode_number := Some 12%Z;
         IdMapper.g_url := Some "https://example.org/12" |} ].

Definition episodeTwelve : IdMapper.Episode :=
  {| IdMapper.title := "Bezos: the letters"; IdMapper.url := "https://example.org/twelve";
     IdMapper.description := ""; IdMapper.time_info := ""; IdMapper.date := "";
     IdMapper.duration := ""; IdMapper.type := "full";
     IdMapper.episode_number := Some 12%Z; IdMapper.has_play_button := true;
     IdMapper.play_button_label := ""; IdMapper.text := "";
     IdMapper.episode_id := None |}.

(** The same episode met without its number, under another URL and with
    its title written differently. *)
Definition episodeRetitled : IdMapper.Episode :=
  {| IdMapper.title := "  #12 - THE bezos   letters! ";
     IdMapper.url := "https://example.org/other";
     IdMapper.description := ""; IdMapper.time_info := ""; IdMapper.date := "";
     IdMapper.duration := ""; IdMapper.type := "full";
     IdMapper.episode_number := None; IdMapper.has_play_button := true;
     IdMapper.play_button_label := ""; IdMapper.text := "";
     IdMapper.episode_id := None |}.

(** A graph file that knows "The A-Team" by its title only, and an episode
    whose title has an underscore in place of the hyphen. *)
Definition aTeamMapper : IdMapper.Mapper :=
  IdMapper.loadExistingIds IdMapper.emptyMapper
    [ {| IdMapper.g_episode_id := "ep_1700000000000_1a2b3c4d";
         IdMapper.g_episode_title := "The A-Team";
         IdMapper.g_episode_number := None;
         IdMapper.g_url := None |} ].

Definition underscoreEpisode : IdMapper.Episode :=
  {| IdMapper.title := "The A_Team"; IdMapper.url := "";
     IdMapper.description := ""; IdMapper.time_info := ""; IdMapper.date := "";
     IdMapper.duration := ""; IdMapper.type := "full";
     IdMapper.episode_number := None; IdMapper.has_play_button := true;
     IdMapper.play_button_label := ""; IdMapper.text := "";
     IdMapper.episode_id := None |}.

(** Two graph episodes that carry the number 12 under different ids,
    followed by one with another number. *)
Definition twelveFirst : IdMapper.GraphEpisodeData :=
  {| IdMapper.g_episode_id := "ep_12_0a1b2c3d";
     IdMapper.g_episode_title := "#12: The Bezos Letters";
     IdMapper.g_episode_number := Some 12%Z;
     IdMapper.g_url := Some "https://example.org/12" |}.

Definition twelveLast : IdMapper.GraphEpisodeData :=
  {| IdMapper.g_episode_id := "ep_12_99999999";
     IdMapper.g_episode_title := "#12: The Bezos Letters (rerun)";
     IdMapper.g_episode_number := Some 12%Z;
     IdMapper.g_url := None |}.

Definition thirteen : IdMapper.GraphEpisodeData :=
  {| IdMapper.g_episode_id := "ep_13_4d4d4d4d";
     IdMapper.g_episode_title := "#13: Sam Walton";
     IdMapper.g_episode_number := Some 13%Z;
     IdMapper.g_url := None |}.

(** An episode with [n] entities of which only the first, Jeff Bezos, can be
    shared with [episodeTwo]. *)
Definition filler (k : nat) : Entity.t :=
  Entity.mk ("object_filler" +:+ pretty k +:+ "_crowded") "crowded"
            ("filler " +:+ pretty k) "object" "" false None None.

Definition crowded (n : nat) : EpisodeData.t :=
  EpisodeData.mk "crowded" "A crowded episode" None None None
                 (bezos1 :: map filler (seq 1 (n - 1))) [].

(** An episode with two entities that match "amazon": the first in its
    context, the second in its name. *)
Definition amazonCorpus : Search.Corpus :=
  {| Search.episodes :=
       [ {| Search.title := "Founders"; Search.text := "a long talk";
            Search.episode_number := Some 7%Z; Search.date := None; Search.url := None;
            Search.episode_id := "ep7" |} ];
     Search.all_entities :=
       [ Entity.mk "person_jeffbezos_ep7" "ep7" "Jeff Bezos" "person"
                   "founder of Amazon" false None None;
         Entity.mk "place_amazon_ep7" "ep7" "Amazon" "place" "a company" false None None ];
     Search.all_relationships := [] |}.

End Examples.

(** * Properties *)

(** ** JavaScript strings *)

Section JSFacts.
Import JS.

Lemma startsWith_nil hay : startsWith hay "" = true.
Proof. by destruct hay. Qed.

Lemma includes_nil hay : includes hay "" = true.
Proof. destruct hay; simpl; by rewrite ?startsWith_nil. Qed.

Lemma toLowerCase_length s : String.length (toLowerCase s) = String.length s.
Proof. induction s as [|c t IH]; simpl; by rewrite ?IH. Qed.

Lemma splitSpace_not_nil s : splitSpace s ≠ [].
Proof.
  destruct s as [|c t]; simpl; first done.
  destruct (Ascii.eqb c " "); first done.
  by destruct (splitSpace t).
Qed.

Lemma truthy_true s : truthy s = true ↔ s ≠ "".
Proof. destruct s; simpl; split; (done || by intros []). Qed.

End JSFacts.

(** ** The linker *)

Section LinkerFacts.
Import Linker.

Lemma sameEntity_spec e1 e2 :
  sameEntity e1 e2 = true ↔
  JS.toLowerCase (Entity.name e1) = JS.toLowerCase (Entity.name e2)
  ∧ Entity.type e1 = Entity.type e2.
Proof. unfold sameEntity. by rewrite andb_true_iff, !String.eqb_eq. Qed.

Lemma findSharedEntities_elem e entities1 entities2 :
  e ∈ findSharedEntities entities1 entities2 ↔
  e ∈ entities1 ∧ ∃ e', e' ∈ entities2 ∧ sameEntity e e' = true.
Proof.
  induction entities1 as [|a rest IH]; simpl.
  - split; [by intros ?%elem_of_nil | by intros [?%elem_of_nil _]].
  - destruct (existsb (sameEntity a) entities2) eqn:Hex.
    + rewrite !elem_of_cons, IH. split.
      * intros [->|[? ?]]; [|by auto].
        split; [by left|]. apply existsb_exists in Hex as (e' & Hin & He').
        exists e'. by rewrite list_elem_of_In.
      * intros [[->|?] ?]; auto.
    + rewrite elem_of_cons, IH. split; [by intros [? ?]; auto|].
      intros [[->|?] (e' & Hin & He')]; [|by eauto].
      assert (existsb (sameEntity a) entities2 = true) as Hc; [|congruence].
      apply existsb_exists. exists e'. by rewrite <- list_elem_of_In.
Qed.

Lemma findSharedEntities_length entities1 entities2 :
  (length (findSharedEntities entities1 entities2) <= length entities1)%nat.
Proof.
  induction entities1 as [|a rest IH]; simpl; [done|].
  destruct (existsb _ _); simpl; lia.
Qed.

Lemma typeWeight_pos ty : (1 <= typeWeight ty)%Q.
Proof. unfold typeWeight. repeat case_match; by vm_compute. Qed.

Lemma sharedWeight_nonneg l : (0 <= sharedWeight l)%Q.
Proof.
  induction l as [|e l IH]; simpl; [by vm_compute|].
  pose proof (typeWeight_pos (Entity.type e)) as H1.
  apply Qle_trans with (0 + 0)%Q; [by vm_compute|].
  apply Qplus_le_compat; [|done].
  apply Qle_trans with 1%Q; [by vm_compute|done].
Qed.

Lemma fold_left_weight l acc :
  (fold_left (fun acc entity => acc + typeWeight (Entity.type entity)) l acc
   == acc + sharedWeight l)%Q.
Proof.
  revert acc. induction l as [|e l IH]; intros acc; simpl; [ring|].
  rewrite IH. ring.
Qed.

Lemma weightedScore_sum l : (weightedScore l == sharedWeight l)%Q.
Proof. unfold weightedScore. rewrite fold_left_weight. ring. Qed.

Lemma gt_spec a b : gt a b = true ↔ (b < a)%Q.
Proof.
  unfold gt. rewrite negb_true_iff. split.
  - intros H. apply Qnot_le_lt. intros Hle%Qle_bool_iff. congruence.
  - intros H. destruct (Qle_bool a b) eqn:E; [|done].
    apply Qle_bool_iff in E. by apply Qlt_not_le in H.
Qed.

(** The strength of a pair whose first episode has an entity. *)
Lemma strength_value sharedEntities ep1 ep2 :
  EpisodeData.entities ep1 ≠ [] →
  ∃ s, calculateRelationshipStrength sharedEntities ep1 ep2 = Some s
       ∧ (s == Qmin 1 (2 * sharedWeight sharedEntities
                        / inject_Z (Z.of_nat (Nat.max (length (EpisodeData.entities ep1))
                                                      (length (EpisodeData.entities ep2))))))%Q
       ∧ (0 <= s)%Q ∧ (s <= 1)%Q.
Proof.
  intros Hne. unfold calculateRelationshipStrength.
  assert (0 < Nat.max (length (EpisodeData.entities ep1))
                      (length (EpisodeData.entities ep2)))%nat as Hpos.
  { destruct (EpisodeData.entities ep1); [done|simpl; lia]. }
  destruct (Nat.max _ _) as [|k] eqn:Hm; [lia|].
  eexists; split; [done|].
  assert (0 < inject_Z (Z.of_nat (S k)))%Q as Hd.
  { unfold Qlt; simpl. lia. }
  assert (weightedScore sharedEntities / inject_Z (Z.of_nat (S k)) * 2
          == 2 * sharedWeight sharedEntities / inject_Z (Z.of_nat (S k)))%Q as Heq.
  { rewrite weightedScore_sum. field. intros H0. rewrite H0 in Hd. by apply Qlt_irrefl in Hd. }
  split; [by rewrite Heq|]. split.
  - apply Q.min_glb; [by vm_compute|]. rewrite Heq.
    apply Qle_shift_div_l; [done|]. rewrite Qmult_0_l.
    apply Qmult_le_0_compat; [by vm_compute|apply sharedWeight_nonneg].
  - apply Q.le_min_l.
Qed.

End LinkerFacts.

Section LinkerClaims.
Import Linker Examples.

(** C1. For a pair of episodes that share an entity (same name up to case,
    same type), the relationship strength is min(1, 2 W / max(n1, n2)),
    where W sums the weights person = 3, place = 2.5, product = 2,
    media = 1.5, anything else = 1 over the shared entities and n1, n2
    count the entities of the two episodes; it lies between 0 and 1. *)
Theorem relationship_strength_formula (ep1 ep2 : EpisodeData.t) :
  let shared := findSharedEntities (EpisodeData.entities ep1) (EpisodeData.entities ep2) in
  let n1 := length (EpisodeData.entities ep1) in
  let n2 := length (EpisodeData.entities ep2) in
  shared ≠ [] →
  (∀ e, e ∈ shared ↔
        e ∈ EpisodeData.entities ep1
        ∧ ∃ e', e' ∈ EpisodeData.entities ep2
                ∧ JS.toLowerCase (Entity.name e) = JS.toLowerCase (Entity.name e')
                ∧ Entity.type e = Entity.type e')
  ∧ (typeWeight "person" = 3%Q ∧ typeWeight "place" = (5 # 2)%Q
     ∧ typeWeight "product" = 2%Q ∧ typeWeight "media" = (3 # 2)%Q
     ∧ ∀ ty, ty ∉ ["person"; "place"; "product"; "media"] → typeWeight ty = 1%Q)
  ∧ ∃ s, calculateRelationshipStrength shared ep1 ep2 = Some s
         ∧ (s == Qmin 1 (2 * sharedWeight shared / inject_Z (Z.of_nat (Nat.max n1 n2))))%Q
         ∧ (0 <= s)%Q ∧ (s <= 1)%Q.
Proof.
  intros shared n1 n2 Hshared. split; [|split].
  - intros e. subst shared. rewrite findSharedEntities_elem.
    by setoid_rewrite sameEntity_spec.
  - repeat split; try done.
    intros ty Hty. unfold typeWeight.
    repeat match goal with
           | |- context [String.eqb ty ?k] =>
               destruct (String.eqb_spec ty k) as [->|_];
               [exfalso; apply Hty; set_solver|]
           end.
    done.
  - apply strength_value. intros Hnil. apply Hshared.
    subst shared. by rewrite Hnil.
Qed.

Lemma relationship_strength_formula_witness :
  findSharedEntities [bezos1] [bezos2] ≠ []
  ∧ ∃ s, calculateRelationshipStrength [bezos1] episodeOne episodeTwo = Some s
         ∧ (s == Qmin 1 (2 * sharedWeight [bezos1] / inject_Z 1))%Q
         ∧ (0 <= s)%Q ∧ (s <= 1)%Q.
Proof.
  assert (findSharedEntities [bezos1] [bezos2] ≠ []) as Hne by (by vm_compute).
  split; [exact Hne|].
  exact (proj2 (proj2 (relationship_strength_formula episodeOne episodeTwo Hne))).
Defined.

Lemma linkWithLater_elem episode1 later r :
  r ∈ linkWithLater episode1 later ↔
  ∃ k episode2, later !! k = Some episode2 ∧ linkPair episode1 episode2 = Some r.
Proof.
  induction later as [|e rest IH]; simpl.
  - split; [by intros ?%elem_of_nil|]. by intros (k & e2 & ? & _).
  - assert (r ∈ linkWithLater episode1 rest ↔
            ∃ k episode2, (e :: rest) !! S k = Some episode2
                          ∧ linkPair episode1 episode2 = Some r) as IH' by done.
    destruct (linkPair episode1 e) as [r0|] eqn:He.
    + rewrite elem_of_cons, IH'. split.
      * intros [->|(k & e2 & ? & ?)]; [by exists 0%nat, e|by exists (S k), e2].
      * intros ([|k] & e2 & Hk & H2); [|by right; exists k, e2].
        simpl in Hk. left. congruence.
    + rewrite IH'. split.
      * intros (k & e2 & ? & ?). by exists (S k), e2.
      * intros ([|k] & e2 & Hk & H2); [|by exists k, e2].
        simpl in Hk. congruence.
Qed.

Lemma detect_elem allEpisodeData r :
  r ∈ detectCrossEpisodeRelationships allEpisodeData ↔
  ∃ i j episode1 episode2,
    (i < j)%nat ∧ allEpisodeData !! i = Some episode1
    ∧ allEpisodeData !! j = Some episode2 ∧ linkPair episode1 episode2 = Some r.
Proof.
  induction allEpisodeData as [|e rest IH]; simpl.
  - split; [by intros ?%elem_of_nil|]. by intros (i & j & e1 & e2 & _ & ? & _).
  - rewrite elem_of_app, linkWithLater_elem, IH. split.
    + intros [(k & e2 & Hk & H2)|(i & j & e1 & e2 & Hij & Hi & Hj & H2)].
      * exists 0%nat, (S k), e, e2. repeat split; [lia|done..].
      * exists (S i), (S j), e1, e2. repeat split; [lia|done..].
    + intros (i & j & e1 & e2 & Hij & Hi & Hj & H2).
      destruct j as [|j]; [lia|]. destruct i as [|i].
      * left. simpl in Hi. exists j, e2. split; [done|congruence].
      * right. exists i, j, e1, e2. repeat split; [lia|done..].
Qed.

Lemma linkPair_spec episode1 episode2 r :
  let shared := findSharedEntities (EpisodeData.entities episode1)
                                   (EpisodeData.entities episode2) in
  linkPair episode1 episode2 = Some r ↔
  shared ≠ []
  ∧ ∃ s, calculateRelationshipStrength shared episode1 episode2 = Some s
         ∧ (3 # 10 < s)%Q ∧ r = crossRecord episode1 episode2 shared s.
Proof.
  intros shared. unfold linkPair. fold shared.
  destruct shared as [|e0 l0] eqn:Hs; simpl.
  { split; [done|by intros [? _]]. }
  destruct (calculateRelationshipStrength _ _ _) as [s|] eqn:Hc.
  - destruct (gt s (3 # 10)) eqn:Hg.
    + apply gt_spec in Hg. split.
      * intros [= <-]. split; [done|]. by exists s.
      * intros (_ & s' & [= <-] & _ & ->). done.
    + split; [done|]. intros (_ & s' & [= <-] & Hlt & _).
      apply gt_spec in Hlt. congruence.
  - split; [done|]. by intros (_ & s' & ? & _).
Qed.

(** C2. The linker emits a record for the pair (i, j), i < j, exactly
    when the two episodes share an entity and the strength of the pair is
    strictly above 0.3: no overlap, no record; a strength of exactly 0.3
    is discarded and one of 0.30001 is kept. *)
Theorem linker_emits_iff (allEpisodeData : list EpisodeData.t)
    (r : CrossEpisodeRelationship.t) :
  (r ∈ detectCrossEpisodeRelationships allEpisodeData ↔
   ∃ i j episode1 episode2 s,
     let shared := findSharedEntities (EpisodeData.entities episode1)
                                      (EpisodeData.entities episode2) in
     (i < j)%nat ∧ allEpisodeData !! i = Some episode1
     ∧ allEpisodeData !! j = Some episode2
     ∧ shared ≠ []
     ∧ calculateRelationshipStrength shared episode1 episode2 = Some s
     ∧ gt s (3 # 10) = true
     ∧ r = crossRecord episode1 episode2 shared s)
  ∧ (∀ episode1 episode2,
       findSharedEntities (EpisodeData.entities episode1)
                          (EpisodeData.entities episode2) = [] →
       linkPair episode1 episode2 = None)
  ∧ (∀ s, gt s (3 # 10) = true ↔ (3 # 10 < s)%Q)
  ∧ gt (3 # 10) (3 # 10) = false
  ∧ gt (30001 # 100000) (3 # 10) = true.
Proof.
  split; [|split; [|split; [intros s; apply gt_spec|by vm_compute]]]; cycle 1.
  { intros e1 e2 Hnil. unfold linkPair. by rewrite Hnil. }
  rewrite detect_elem. split.
  - intros (i & j & e1 & e2 & Hij & Hi & Hj & (Hne & s & Hs & Hlt & ->)%linkPair_spec).
    exists i, j, e1, e2, s. simpl. by rewrite gt_spec.
  - intros (i & j & e1 & e2 & s & Hij & Hi & Hj & Hne & Hs & Hlt & ->).
    exists i, j, e1, e2. repeat split; [done..|].
    apply linkPair_spec. split; [done|]. exists s. by rewrite <- gt_spec.
Qed.

End LinkerClaims.

(** ** Ingestion *)

Section IngestFacts.
Import Ingest.

Lemma truthyString_Some v s :
  truthyString v = Some s ↔ v = Some s ∧ s ≠ "".
Proof.
  destruct v as [[|c t]|]; simpl; split; try done.
  - by intros [[= <-] ?].
  - by intros [= <-].
  - by intros [[= <-] _].
  - by intros [? _].
Qed.

Lemma truthyString_None v :
  truthyString v = None ↔ v = None ∨ v = Some "".
Proof.
  destruct v as [[|c t]|]; simpl; split; try done; auto.
  by intros [?|?].
Qed.

Lemma createEntityId_not_nil name type episodeId :
  createEntityId name type episodeId ≠ "".
Proof. unfold createEntityId. by destruct type. Qed.

Lemma orNumber_falsy v d :
  (v = None ∨ ∃ q, v = Some q ∧ (q == 0)%Q) → orNumber v d = d.
Proof.
  intros [->|(q & -> & Hq)]; simpl; [done|].
  apply Qeq_bool_iff in Hq. by rewrite Hq.
Qed.

Lemma orNumber_truthy q d : ¬ (q == 0)%Q → orNumber (Some q) d = q.
Proof.
  intros Hq. simpl. destruct (Qeq_bool q 0) eqn:E; [|done].
  by apply Qeq_bool_iff in E.
Qed.

Lemma hasNameAndType_spec entityData :
  hasNameAndType entityData = true ↔
  ∃ name type, p_name entityData = Some name ∧ name ≠ ""
               ∧ p_type entityData = Some type ∧ type ≠ "".
Proof.
  unfold hasNameAndType.
  destruct (p_name entityData) as [n|], (p_type entityData) as [t|];
    try (split; [done|by intros (? & ? & ? & ? & ? & ?)]).
  rewrite andb_true_iff, !negb_true_iff. split.
  - intros [Hn Ht]. exists n, t. apply String.eqb_neq in Hn, Ht. done.
  - intros (? & ? & [= <-] & Hn & [= <-] & Ht). by rewrite <- !String.eqb_neq in Hn, Ht.
Qed.

Lemma entityStep_invariant episodeId done_ entityData acc :
  entityInvariant episodeId done_ acc.1 →
  entityInvariant episodeId (done_ ++ [entityData]) (entityStep episodeId acc entityData).1.
Proof.
  unfold entityInvariant, entityStep. intros Hinv.
  rewrite List.filter_app. simpl.
  destruct (hasNameAndType entityData) eqn:Hacc.
  - apply hasNameAndType_spec in Hacc as (n & t & Hn & Hn0 & Ht & Ht0).
    assert (truthyString (p_name entityData) = Some n) as -> by by apply truthyString_Some.
    assert (truthyString (p_type entityData) = Some t) as -> by by apply truthyString_Some.
    simpl. apply Forall2_app; [done|]. by repeat constructor.
  - rewrite app_nil_r.
    destruct (truthyString (p_name entityData)) as [n|] eqn:En; [|done].
    destruct (truthyString (p_type entityData)) as [t|] eqn:Et; [|done].
    apply truthyString_Some in En as [En ?], Et as [Et ?].
    assert (hasNameAndType entityData = true) as Hc; [|congruence].
    apply hasNameAndType_spec. by exists n, t.
Qed.

Lemma entityLoop_invariant episodeId payloads done_ acc :
  entityInvariant episodeId done_ acc.1 →
  entityInvariant episodeId (done_ ++ payloads)
                  (fold_left (entityStep episodeId) payloads acc).1.
Proof.
  revert done_ acc. induction payloads as [|p rest IH]; intros done_ acc Hinv; simpl.
  - by rewrite app_nil_r.
  - rewrite (assoc_L (++) done_ [p] rest : done_ ++ p :: rest = (done_ ++ [p]) ++ rest).
    apply IH. by apply entityStep_invariant.
Qed.

End IngestFacts.

Section IngestClaims.
Import Ingest.

(** C10. An entity payload becomes an Entity record exactly when it has a
    non-empty name and a non-empty type: the records are, in order, those
    of the payloads with both, the others being skipped; and a record's
    confidence is the payload's, or 0.8 when that is absent or 0. *)
Theorem entity_payload_accepted (uuidv4 : nat → string) (this : Extractor)
    (extractedData : ExtractedData) (episodeId episodeTitle : string) :
  let entities :=
    (processExtractedEntities uuidv4 this extractedData episodeId episodeTitle).1.1 in
  Forall2 (fun entityData e =>
             p_name entityData = Some (Entity.name e)
             ∧ p_type entityData = Some (Entity.type e)
             ∧ Entity.episode_id e = episodeId
             ∧ ((p_confidence_score entityData = None
                 ∨ ∃ q, p_confidence_score entityData = Some q ∧ (q == 0)%Q)
                → Entity.confidence_score e = Some (8 # 10)%Q)
             ∧ (∀ q, p_confidence_score entityData = Some q → ¬ (q == 0)%Q
                     → Entity.confidence_score e = Some q))
          (List.filter hasNameAndType (default [] (x_entities extractedData)))
          entities
  ∧ ∀ entityData,
      hasNameAndType entityData = true ↔
      ∃ name type, p_name entityData = Some name ∧ name ≠ ""
                   ∧ p_type entityData = Some type ∧ type ≠ "".
Proof.
  intros entities. split; [|apply hasNameAndType_spec].
  assert (entityInvariant episodeId (default [] (x_entities extractedData)) entities) as Hinv.
  { subst entities. unfold processExtractedEntities.
    pose proof (entityLoop_invariant episodeId (default [] (x_entities extractedData))
                  [] ([], globalEntities this)) as H.
    destruct (fold_left (entityStep episodeId) _ _) as [es cache].
    destruct (fold_left (relationshipStep uuidv4 episodeId es) _ _) as [rs calls].
    simpl in *. apply H. constructor. }
  eapply Forall2_impl; [exact Hinv|].
  intros p e (Hn & Ht & ->). simpl. repeat split; try done.
  - intros Hc. f_equal. by apply orNumber_falsy.
  - intros q -> Hq. f_equal. by apply orNumber_truthy.
Qed.

End IngestClaims.

Section RelationshipFacts.
Import Ingest.

Lemma findEntityId_Some entityName entities id :
  findEntityId entityName entities = Some id →
  ∃ e, e ∈ entities
       ∧ JS.toLowerCase (Entity.name e) = JS.toLowerCase entityName
       ∧ Entity.id e = id.
Proof.
  unfold findEntityId. destruct (find _ _) as [e|] eqn:Hf; [|done].
  intros [= <-]. apply find_some in Hf as [Hin He].
  exists e. by rewrite list_elem_of_In, <- String.eqb_eq.
Qed.

Lemma findEntityId_None entityName entities :
  findEntityId entityName entities = None ↔ namesEntity entities entityName = false.
Proof.
  unfold findEntityId, namesEntity. split.
  - destruct (find _ _) as [e|] eqn:Hf; [done|]. intros _.
    destruct (existsb _ _) eqn:Hex; [|done].
    apply existsb_exists in Hex as (e & Hin & He).
    by rewrite (find_none _ _ Hf e Hin) in He.
  - intros Hex. destruct (find _ _) as [e|] eqn:Hf; [|done].
    apply find_some in Hf as [Hin He].
    assert (existsb (fun e => String.eqb (JS.toLowerCase (Entity.name e))
                                         (JS.toLowerCase entityName)) entities = true)
      as Hc; [|congruence].
    apply existsb_exists. by exists e.
Qed.

Lemma namesEntity_spec entities entityName :
  namesEntity entities entityName = true ↔
  ∃ e, e ∈ entities ∧ JS.toLowerCase (Entity.name e) = JS.toLowerCase entityName.
Proof.
  unfold namesEntity. rewrite existsb_exists.
  by setoid_rewrite String.eqb_eq; setoid_rewrite list_elem_of_In.
Qed.

Lemma resolvable_spec entities relData :
  resolvable entities relData = true ↔
  ∃ name1 name2 e1 e2,
    p_entity1_name relData = Some name1 ∧ name1 ≠ ""
    ∧ p_entity2_name relData = Some name2 ∧ name2 ≠ ""
    ∧ e1 ∈ entities ∧ JS.toLowerCase (Entity.name e1) = JS.toLowerCase name1
    ∧ e2 ∈ entities ∧ JS.toLowerCase (Entity.name e2) = JS.toLowerCase name2.
Proof.
  unfold resolvable.
  destruct (p_entity1_name relData) as [n1|], (p_entity2_name relData) as [n2|];
    try (split; [done|by intros (? & ? & ? & ? & ? & ? & ? & ?)]).
  rewrite !andb_true_iff, !negb_true_iff, !String.eqb_neq, !namesEntity_spec. split.
  - intros [[[? ?] (e1 & ? & ?)] (e2 & ? & ?)]. by exists n1, n2, e1, e2.
  - intros (? & ? & e1 & e2 & [= <-] & ? & [= <-] & ? & ? & ? & ? & ?).
    repeat split; [done|done|by exists e1|by exists e2].
Qed.

Section Loop.
Variable uuidv4 : nat → string.
Variable episodeId : string.
Variable entities : list Entity.t.
Hypothesis ids_truthy : ∀ e, e ∈ entities → Entity.id e ≠ "".

Lemma relationshipStep_invariant done_ relData acc :
  relationshipInvariant episodeId entities done_ acc.1 →
  relationshipInvariant episodeId entities (done_ ++ [relData])
    (relationshipStep uuidv4 episodeId entities acc relData).1.
Proof.
  unfold relationshipInvariant. intros [Hnames Hres].
  rewrite List.filter_app. simpl. unfold relationshipStep.
  destruct (truthyString (p_entity1_name relData)) as [n1|] eqn:E1; cycle 1.
  { assert (resolvable entities relData = false) as ->; [|by rewrite app_nil_r].
    unfold resolvable. apply truthyString_None in E1 as [->| ->]; [done|].
    by destruct (p_entity2_name relData). }
  apply truthyString_Some in E1 as [E1 Hn1].
  destruct (truthyString (p_entity2_name relData)) as [n2|] eqn:E2; cycle 1.
  { assert (resolvable entities relData = false) as ->; [|by rewrite app_nil_r].
    unfold resolvable. rewrite E1.
    apply truthyString_None in E2 as [->| ->]; [done|]. simpl. by rewrite andb_false_r. }
  apply truthyString_Some in E2 as [E2 Hn2].
  destruct (findEntityId n1 entities) as [id1|] eqn:F1; cycle 1.
  { apply findEntityId_None in F1.
    assert (resolvable entities relData = false) as ->; [|by rewrite app_nil_r].
    unfold resolvable. rewrite E1, E2, F1. by rewrite andb_false_r. }
  destruct (findEntityId n2 entities) as [id2|] eqn:F2; cycle 1.
  { apply findEntityId_None in F2.
    assert (resolvable entities relData = false) as ->.
    { unfold resolvable. rewrite E1, E2, F2. by rewrite andb_false_r. }
    rewrite app_nil_r. simpl. by destruct (JS.truthy id1). }
  apply findEntityId_Some in F1 as (e1 & Hin1 & Hl1 & <-).
  apply findEntityId_Some in F2 as (e2 & Hin2 & Hl2 & <-).
  assert (truthyString (Some (Entity.id e1)) = Some (Entity.id e1)) as ->
    by (apply truthyString_Some; auto).
  assert (truthyString (Some (Entity.id e2)) = Some (Entity.id e2)) as ->
    by (apply truthyString_Some; auto).
  assert (resolvable entities relData = true) as ->.
  { apply resolvable_spec. by exists n1, n2, e1, e2. }
  simpl. split.
  - apply Forall2_app; [done|]. by repeat constructor.
  - apply Forall_app. split; [done|]. constructor; [|done].
    split; [done|]. by exists e1, e2.
Qed.

Lemma relationshipLoop_invariant payloads done_ acc :
  relationshipInvariant episodeId entities done_ acc.1 →
  relationshipInvariant episodeId entities (done_ ++ payloads)
    (fold_left (relationshipStep uuidv4 episodeId entities) payloads acc).1.
Proof.
  revert done_ acc. induction payloads as [|p rest IH]; intros done_ acc Hinv; simpl.
  - by rewrite app_nil_r.
  - rewrite (assoc_L (++) done_ [p] rest : done_ ++ p :: rest = (done_ ++ [p]) ++ rest).
    apply IH. by apply relationshipStep_invariant.
Qed.

End Loop.

Lemma entityInvariant_ids episodeId payloads entities :
  entityInvariant episodeId payloads entities →
  ∀ e, e ∈ entities → Entity.id e ≠ "" ∧ Entity.episode_id e = episodeId.
Proof.
  unfold entityInvariant. intros H e He.
  apply list_elem_of_lookup in He as [i Hi].
  destruct (Forall2_lookup_r _ _ _ _ _ H Hi) as (p & _ & _ & _ & ->).
  split; [apply createEntityId_not_nil|done].
Qed.

End RelationshipFacts.

Section RelationshipClaim.
Import Ingest.

(** C9. Every relationship stored at ingestion names two entities of its
    own episode: each of its entity ids is the id of an entity extracted
    for that episode whose name equals the relationship's entity name up
    to case.  The stored relationships are, in order, those of the
    payloads whose two names resolve; a payload with a name that no
    entity of the episode bears is left out, and the function returns all
    the same. *)
Theorem stored_relationships_resolve (uuidv4 : nat → string) (this : Extractor)
    (extractedData : ExtractedData) (episodeId episodeTitle : string) :
  let out := (processExtractedEntities uuidv4 this extractedData episodeId episodeTitle).1 in
  (∀ r, r ∈ out.2 →
        Relationship.episode_id r = episodeId
        ∧ ∃ e1 e2,
            e1 ∈ out.1 ∧ e2 ∈ out.1
            ∧ Entity.episode_id e1 = episodeId ∧ Entity.episode_id e2 = episodeId
            ∧ Entity.id e1 = Relationship.entity1_id r
            ∧ Entity.id e2 = Relationship.entity2_id r
            ∧ JS.toLowerCase (Entity.name e1)
              = JS.toLowerCase (Relationship.entity1_name r)
            ∧ JS.toLowerCase (Entity.name e2)
              = JS.toLowerCase (Relationship.entity2_name r))
  ∧ Forall2 (fun relData r =>
               p_entity1_name relData = Some (Relationship.entity1_name r)
               ∧ p_entity2_name relData = Some (Relationship.entity2_name r))
            (List.filter (resolvable out.1) (default [] (x_relationships extractedData)))
            out.2
  ∧ ∀ relData,
      resolvable out.1 relData = true ↔
      ∃ name1 name2 e1 e2,
        p_entity1_name relData = Some name1 ∧ name1 ≠ ""
        ∧ p_entity2_name relData = Some name2 ∧ name2 ≠ ""
        ∧ e1 ∈ out.1 ∧ JS.toLowerCase (Entity.name e1) = JS.toLowerCase name1
        ∧ e2 ∈ out.1 ∧ JS.toLowerCase (Entity.name e2) = JS.toLowerCase name2.
Proof.
  intros out. subst out. unfold processExtractedEntities.
  pose proof (entityLoop_invariant episodeId (default [] (x_entities extractedData))
                [] ([], globalEntities this)) as He.
  destruct (fold_left (entityStep episodeId) _ _) as [es cache]. simpl in He.
  assert (entityInvariant episodeId [] []) as H0 by constructor.
  specialize (He H0). pose proof (entityInvariant_ids _ _ _ He) as Hids.
  pose proof (relationshipLoop_invariant uuidv4 episodeId es
                (fun e H => proj1 (Hids e H))
                (default [] (x_relationships extractedData)) [] ([], uuidCalls this)) as Hr.
  destruct (fold_left (relationshipStep _ _ _) _ _) as [rs calls]. simpl in *.
  destruct Hr as [Hnames Hres]; [by split; constructor|].
  split; [|split; [done|apply resolvable_spec]].
  intros r Hr. rewrite Forall_forall in Hres.
  destruct (Hres r Hr) as (Hep & e1 & e2 & Hin1 & Hin2 & ? & ? & ? & ?).
  split; [done|]. exists e1, e2.
  repeat split; try done; by apply Hids.
Qed.

End RelationshipClaim.

(** ** The id mapper *)

Section IdMapperFacts.
Import IdMapper.

Lemma truthyNumber_Some n k : truthyNumber n = Some k ↔ n = Some k ∧ k ≠ 0%Z.
Proof.
  unfold truthyNumber. destruct n as [m|]; [|by split; [|intros [? _]]].
  destruct (Z.eqb_spec m 0) as [->|Hm]; split; try done.
  - by intros [[= <-] ?].
  - by intros [= <-].
  - by intros [[= <-] _].
Qed.

Lemma truthyNumber_None n : truthyNumber n = None ↔ n = None ∨ n = Some 0%Z.
Proof.
  unfold truthyNumber. destruct n as [m|]; [|by split; auto].
  destruct (Z.eqb_spec m 0) as [->|Hm]; split; try done; auto.
  by intros [?|[= ->]].
Qed.

Lemma keysTruthy_empty : keysTruthy emptyMapper.
Proof. by split. Qed.

Lemma keysTruthy_loadEpisode this episode :
  keysTruthy this → keysTruthy (loadEpisode this episode).
Proof.
  intros [Hn Hu]. unfold keysTruthy, loadEpisode; simpl. split.
  - destruct (truthyNumber _) as [k|] eqn:E; [|done].
    apply truthyNumber_Some in E as [_ ?]. by rewrite lookup_insert_ne.
  - destruct (Ingest.truthyString _) as [u|] eqn:E; [|done].
    apply truthyString_Some in E as [_ ?]. by rewrite lookup_insert_ne.
Qed.

Lemma keysTruthy_loadExistingIds this episodes :
  keysTruthy this → keysTruthy (loadExistingIds this episodes).
Proof.
  unfold loadExistingIds. revert this.
  induction episodes as [|e rest IH]; intros this H; simpl; [done|].
  by apply IH, keysTruthy_loadEpisode.
Qed.

Lemma keysTruthy_remember this episode newId :
  keysTruthy this → keysTruthy (remember this episode newId).
Proof.
  intros [Hn Hu]. unfold keysTruthy, remember; simpl. split.
  - destruct (truthyNumber _) as [k|] eqn:E; [|done].
    apply truthyNumber_Some in E as [_ ?]. by rewrite lookup_insert_ne.
  - destruct (JS.truthy (url episode)) eqn:E; [|done].
    apply truthy_true in E. by rewrite lookup_insert_ne.
Qed.

Lemma keysTruthy_findOrCreateEpisodeId this episode uuid timestamp :
  keysTruthy this → keysTruthy (findOrCreateEpisodeId this episode uuid timestamp).2.
Proof.
  intros H. unfold findOrCreateEpisodeId.
  repeat case_match; simpl; first [done | by apply keysTruthy_remember].
Qed.

End IdMapperFacts.

Section TitleKeys.
Import IdMapper.

Lemma isSpace_lowerChar c : isSpace (JS.lowerChar c) = isSpace c.
Proof. by destruct c as [[] [] [] [] [] [] [] []]. Qed.

Lemma isWord_lowerChar c : isWord (JS.lowerChar c) = isWord c.
Proof. by destruct c as [[] [] [] [] [] [] [] []]. Qed.

Lemma runs_clean title :
  runs (Ingest.keepChars (fun c => isWord c || isSpace c) (JS.toLowerCase title))
  = (cleanWord (runs title).1, map cleanWord (runs title).2).
Proof.
  induction title as [|c t IH]; [done|].
  simpl. destruct (runs t) as [w ws] eqn:E. simpl in IH.
  rewrite isSpace_lowerChar, isWord_lowerChar.
  destruct (isSpace c) eqn:Hs.
  - rewrite orb_true_r. simpl. rewrite IH, isSpace_lowerChar, Hs. done.
  - rewrite orb_false_r. unfold cleanWord. simpl. rewrite isWord_lowerChar.
    destruct (isWord c) eqn:Hw; simpl.
    + by rewrite IH, isSpace_lowerChar, Hs.
    + by rewrite IH.
Qed.

Lemma concat_truthy_nil ws :
  String.concat " " (List.filter JS.truthy ws) = "" → List.filter JS.truthy ws = [].
Proof.
  induction ws as [|w rest IH]; simpl; [done|].
  destruct w as [|c w]; simpl; [done|].
  by destruct (List.filter JS.truthy rest).
Qed.

Lemma trimEnd_keep c t : isSpace c = false → trimEnd (String c t) = String c (trimEnd t).
Proof. intros Hc. simpl. rewrite Hc. by destruct (trimEnd t). Qed.

Lemma concat_cons (x : string) l :
  String.concat " " (x :: l)
  = match l with [] => x | _ => x +:+ " " +:+ String.concat " " l end.
Proof. by destruct l. Qed.

Lemma joined_cons c t :
  isSpace c = false →
  joined (String c t) = String c (afterBlank t (joined t)).
Proof.
  intros Hs. unfold joined. simpl runs. destruct (runs t) as [w ws] eqn:E.
  rewrite Hs. change (List.filter JS.truthy (String c w :: ws))
    with (String c w :: List.filter JS.truthy ws).
  destruct t as [|c' t'].
  { injection E as <- <-. done. }
  simpl runs in E. destruct (runs t') as [w' ws'] eqn:E'.
  unfold afterBlank. destruct (isSpace c') eqn:Hs'; injection E as <- <-.
  - change (List.filter JS.truthy ("" :: w' :: ws'))
      with (List.filter JS.truthy (w' :: ws')).
    rewrite concat_cons.
    destruct (List.filter JS.truthy (w' :: ws')) as [|x l] eqn:F; [done|].
    destruct (String.concat " " (x :: l)) eqn:G; [|done].
    rewrite <- F in G. apply concat_truthy_nil in G. congruence.
  - change (List.filter JS.truthy (String c' w' :: ws'))
      with (String c' w' :: List.filter JS.truthy ws').
    rewrite !concat_cons. by destruct (List.filter JS.truthy ws').
Qed.

Lemma joined_space c t : isSpace c = true → joined (String c t) = joined t.
Proof.
  intros Hs. unfold joined. simpl runs. destruct (runs t) as [w ws].
  by rewrite Hs.
Qed.

Lemma trimEnd_collapse k :
  trimEnd (collapseSpaces true k) = joined k
  ∧ trimEnd (collapseSpaces false k) = afterBlank k (joined k).
Proof.
  induction k as [|c t [IH1 IH2]]; [done|].
  destruct (isSpace c) eqn:Hs.
  - rewrite joined_space by done. simpl. rewrite Hs. split; [done|].
    change (trimEnd (String " " (collapseSpaces true t)))
      with (match trimEnd (collapseSpaces true t) with
            | EmptyString => EmptyString
            | t' => String " " t'
            end).
    rewrite IH1. by destruct (joined t).
  - rewrite joined_cons by done. simpl. rewrite Hs.
    rewrite !trimEnd_keep by done. by rewrite IH2.
Qed.

Lemma trim_commute s : trimEnd (trimStart s) = trimStart (trimEnd s).
Proof.
  induction s as [|c t IH]; [done|].
  destruct (isSpace c) eqn:Hs.
  - simpl. rewrite Hs, IH. destruct (trimEnd t); simpl; [done|]. by rewrite Hs.
  - rewrite trimEnd_keep by done. simpl. rewrite Hs. by rewrite trimEnd_keep.
Qed.

(** The runs hold no white space. *)
Lemma runs_no_space k :
  Forall (fun w => Search.allChars (fun c => negb (isSpace c)) w = true)
         ((runs k).1 :: (runs k).2).
Proof.
  induction k as [|c t IH]; simpl; [by repeat constructor|].
  destruct (runs t) as [w ws]. simpl in IH.
  apply Forall_cons in IH as [Hw Hws].
  destruct (isSpace c) eqn:Hs; simpl.
  - by repeat constructor.
  - constructor; [|done]. simpl. by rewrite Hs, Hw.
Qed.

Lemma joined_startsTidy k : startsTidy (joined k) = true.
Proof.
  unfold joined. pose proof (runs_no_space k) as H.
  destruct (runs k) as [w ws]. simpl in H.
  induction H as [|x l Hx Hl IH]; [done|].
  simpl. destruct x as [|c x]; simpl; [exact IH|].
  simpl in Hx. apply andb_true_iff in Hx as [Hc _].
  by destruct (List.filter JS.truthy l).
Qed.

Lemma trimStart_tidy s : startsTidy s = true → trimStart s = s.
Proof. destruct s as [|c t]; simpl; [done|]. by intros ->%negb_true_iff. Qed.

Lemma trim_collapse k : trim (collapseSpaces false k) = joined k.
Proof.
  unfold trim. rewrite trim_commute, (proj2 (trimEnd_collapse k)).
  pose proof (trimStart_tidy _ (joined_startsTidy k)) as Ht.
  destruct k as [|c t]; [done|]. unfold afterBlank.
  destruct (isSpace c) eqn:Hs; [|done].
  by destruct (joined (String c t)).
Qed.

(** The key of a title is its cleaned words joined by single blanks. *)
Lemma normalizeTitle_words title : normalizeTitle title = titleKey title.
Proof.
  unfold normalizeTitle, titleKey, titleWords. rewrite trim_collapse.
  unfold joined. rewrite runs_clean. by destruct (runs title).
Qed.

End TitleKeys.

Section IdMapperClaim.
Import IdMapper.


End IdMapperClaim.

(** ** Scoring *)

Section ScoreFacts.
Import Search.

Lemma ofNat_le m n : (m <= n)%nat → (ofNat m <= ofNat n)%Q.
Proof. intros H. unfold ofNat, Qle; simpl. lia. Qed.

Lemma ofNat_nonneg n : (0 <= ofNat n)%Q.
Proof. unfold ofNat, Qle; simpl. lia. Qed.

Lemma baseScore_ge mt : (50 <= baseScore mt)%Q.
Proof. unfold baseScore. repeat case_match; by vm_compute. Qed.

Lemma matchBonus_bounds n : (0 <= matchBonus n)%Q ∧ (matchBonus n <= 50)%Q.
Proof.
  unfold matchBonus. split; [|apply Q.le_min_r].
  apply Q.min_glb; [|by vm_compute].
  apply Qmult_le_0_compat; [apply ofNat_nonneg|by vm_compute].
Qed.

Lemma matchBonus_mono m n : (m <= n)%nat → (matchBonus m <= matchBonus n)%Q.
Proof.
  intros H. unfold matchBonus. apply Q.min_le_compat_r.
  apply Qmult_le_compat_r; [by apply ofNat_le|by vm_compute].
Qed.

Lemma lengthPenalty_nonneg len : (0 <= lengthPenalty len)%Q.
Proof. apply Q.le_max_l. Qed.

Lemma lengthPenalty_mono m n : (m <= n)%nat → (lengthPenalty m <= lengthPenalty n)%Q.
Proof.
  intros H. unfold lengthPenalty. apply Q.max_le_compat_l.
  apply Qmult_le_compat_r; [|by vm_compute].
  apply Qplus_le_compat; [by apply ofNat_le|apply Qle_refl].
Qed.

Lemma lengthPenalty_short len : (len <= 100)%nat → (lengthPenalty len == 0)%Q.
Proof.
  intros H. unfold lengthPenalty. apply Q.max_l.
  unfold ofNat, Qle, Qdiv, Qminus; simpl. lia.
Qed.

Lemma lengthPenalty_lt len k :
  (len < 100 * (k + 1))%nat → (0 < k)%nat → (lengthPenalty len < ofNat k)%Q.
Proof.
  intros H Hk. unfold lengthPenalty. apply Q.max_lub_lt.
  - unfold ofNat, Qlt; simpl. lia.
  - unfold ofNat, Qlt, Qdiv, Qminus; simpl. lia.
Qed.

(** The score in the branch for an exact match. *)
Lemma score_exact searchTerm text matchType :
  JS.includes (JS.toLowerCase text) (JS.toLowerCase searchTerm) = true →
  calculateRelevanceScore searchTerm text matchType =
  let* matches := matchCount (JS.toLowerCase searchTerm) (JS.toLowerCase text) in
  Ok (Qmax 1 (baseScore matchType + matchBonus matches
              - lengthPenalty (String.length text))).
Proof. intros H. unfold calculateRelevanceScore. by rewrite H. Qed.

Lemma matchCount_literal pattern text :
  allChars (fun c => negb (isMeta c)) pattern = true →
  matchCount pattern text = Ok (countLiteral pattern 0 text).
Proof. intros H. unfold matchCount. by rewrite H. Qed.

Lemma score_exact_literal searchTerm text matchType :
  literalTerm searchTerm = true →
  JS.includes (JS.toLowerCase text) (JS.toLowerCase searchTerm) = true →
  calculateRelevanceScore searchTerm text matchType =
  Ok (Qmax 1 (baseScore matchType
              + matchBonus (countLiteral (JS.toLowerCase searchTerm) 0 (JS.toLowerCase text))
              - lengthPenalty (String.length text))).
Proof.
  intros Hlit Hinc. rewrite score_exact by done.
  by rewrite matchCount_literal.
Qed.

Lemma score_exact_inv searchTerm text matchType s :
  JS.includes (JS.toLowerCase text) (JS.toLowerCase searchTerm) = true →
  calculateRelevanceScore searchTerm text matchType = Ok s →
  ∃ matches,
    matchCount (JS.toLowerCase searchTerm) (JS.toLowerCase text) = Ok matches
    ∧ s = Qmax 1 (baseScore matchType + matchBonus matches
                  - lengthPenalty (String.length text)).
Proof.
  intros Hinc. rewrite score_exact by done.
  destruct (matchCount _ _) as [n|e]; simpl; [|done].
  intros [= <-]. by exists n.
Qed.

(** A literal pattern that occurs is counted at least once. *)
Lemma countLiteral_pos pattern text :
  JS.includes text pattern = true → (1 <= countLiteral pattern 0 text)%nat.
Proof.
  induction text as [|c t IH]; intros H.
  - destruct pattern; [simpl; lia|done].
  - change (countLiteral pattern 0 (String c t))
      with (if JS.startsWith (String c t) pattern
            then S (countLiteral pattern (String.length pattern - 1) t)
            else countLiteral pattern 0 t).
    change (JS.includes (String c t) pattern)
      with (JS.startsWith (String c t) pattern || JS.includes t pattern) in H.
    destruct (JS.startsWith (String c t) pattern); [lia|by apply IH].
Qed.

End ScoreFacts.

Section ScoreClaims.
Import Search.

(** The score of an exact match of a search term without special
    characters: max(1, base + bonus - penalty), at least 1; the bases are
    ordered title > entity name > relationship > entity context > text;
    the bonus is ten per occurrence, at most 50; the penalty is a
    hundredth per character beyond 100. *)
Lemma exact_match_score_literal (searchTerm text matchType : string) :
  literalTerm searchTerm = true →
  JS.includes (JS.toLowerCase text) (JS.toLowerCase searchTerm) = true →
  ∃ matches s,
    matches = countLiteral (JS.toLowerCase searchTerm) 0 (JS.toLowerCase text)
    ∧ (1 <= matches)%nat
    ∧ calculateRelevanceScore searchTerm text matchType = Ok s
    ∧ s = Qmax 1 (baseScore matchType + matchBonus matches
                  - lengthPenalty (String.length text))
    ∧ (1 <= s)%Q.
Proof.
  intros Hlit Hinc. eexists _, _. split; [done|].
  split; [by apply countLiteral_pos|].
  split; [by apply score_exact_literal|]. split; [done|apply Q.le_max_l].
Qed.

Lemma baseScore_order :
  (baseScore "episode_text" < baseScore "entity_context")%Q
  ∧ (baseScore "entity_context" < baseScore "relationship_description")%Q
  ∧ (baseScore "relationship_description" < baseScore "entity_name")%Q
  ∧ (baseScore "entity_name" < baseScore "episode_title")%Q.
Proof. by vm_compute. Qed.

(** C3. An exact match is scored after its search term has been compiled
    as a regular expression: the term [c++] occurs in the entity name
    [C++ Primer], and no score is returned for it, the compiler rejecting
    the second [+]. *)
Theorem exact_match_score_throws :
  JS.includes (JS.toLowerCase "C++ Primer") (JS.toLowerCase "c++") = true
  ∧ calculateRelevanceScore "c++" "C++ Primer" "entity_name" = Err SyntaxError.
Proof. by vm_compute. Qed.

Lemma round_bounds x : (0 <= x)%Q → (x <= 30)%Q → (0 <= round x)%Q ∧ (round x <= 30)%Q.
Proof.
  intros H0 H30. unfold round. split.
  - change 0%Q with (inject_Z 0). rewrite <- Zle_Qle.
    change 0%Z with (Qfloor 0). apply Qfloor_resp_le. lra.
  - change 30%Q with (inject_Z 30). rewrite <- Zle_Qle.
    change 30%Z with (Qfloor (30 + (1 # 2))). apply Qfloor_resp_le. lra.
Qed.

Lemma round_comp x y : (x == y)%Q → round x = round y.
Proof. intros H. unfold round. f_equal. apply Qfloor_comp. by rewrite H. Qed.

Lemma ratio_bounds p w :
  (p <= w)%nat → (0 < w)%nat →
  (0 <= ofNat p / ofNat w * 30)%Q ∧ (ofNat p / ofNat w * 30 <= 30)%Q.
Proof.
  intros Hpw Hw.
  assert (0 < ofNat w)%Q as Hw' by (unfold ofNat, Qlt; simpl; lia).
  assert (0 <= ofNat p / ofNat w)%Q as H0.
  { apply Qle_shift_div_l; [done|]. pose proof (ofNat_nonneg p). lra. }
  assert (ofNat p / ofNat w <= 1)%Q as H1.
  { apply Qle_shift_div_r; [done|]. pose proof (ofNat_le p w Hpw). lra. }
  split; lra.
Qed.

(** The score in the branch for a term that does not occur as a whole. *)
Lemma score_fuzzy searchTerm text matchType :
  JS.includes (JS.toLowerCase text) (JS.toLowerCase searchTerm) = false →
  let words := JS.splitSpace (JS.toLowerCase searchTerm) in
  let matchingWords := List.filter (JS.includes (JS.toLowerCase text)) words in
  calculateRelevanceScore searchTerm text matchType
  = Ok (round (ofNat (length matchingWords) / ofNat (length words) * 30)).
Proof.
  intros Hinc words matchingWords. unfold calculateRelevanceScore. rewrite Hinc.
  fold words. fold matchingWords.
  destruct matchingWords as [|w ws] eqn:E; [|done].
  change (Ok 0%Q = Ok (round (0 / ofNat (length words) * 30))).
  f_equal. symmetry. apply (round_comp _ 0). unfold Qdiv. ring.
Qed.

End ScoreClaims.

(** ** Aggregation of the search results *)

Section AggregationFacts.
Import Search.

Lemma mapGet_mapSet key key' value m :
  mapGet key' (mapSet key value m)
  = if String.eqb key key' then Some value else mapGet key' m.
Proof.
  induction m as [|[k v] rest IH]; simpl.
  - by destruct (String.eqb_spec key key').
  - destruct (String.eqb_spec k key) as [->|Hk]; simpl.
    + by destruct (String.eqb_spec key key').
    + rewrite IH. destruct (String.eqb_spec k key') as [->|Hk'];
        destruct (String.eqb_spec key key') as [->|?]; done.
Qed.

Lemma mapGet_None key m : mapGet key m = None ↔ key ∉ map fst m.
Proof.
  induction m as [|[k v] rest IH]; simpl.
  - split; [intros _; apply not_elem_of_nil|done].
  - rewrite not_elem_of_cons. destruct (String.eqb_spec k key) as [->|Hk].
    + split; [done|by intros [? _]].
    + rewrite IH. split; [by intros ?; split|by intros [_ ?]].
Qed.

Lemma mapGet_elem key v m : NoDup (map fst m) → (mapGet key m = Some v ↔ (key, v) ∈ m).
Proof.
  induction m as [|[k v0] rest IH]; simpl; intros Hnd.
  - split; [done|by intros ?%elem_of_nil].
  - apply NoDup_cons in Hnd as [Hk Hnd]. rewrite elem_of_cons.
    destruct (String.eqb_spec k key) as [->|Hne].
    + split; [intros [= ->]; by left|].
      intros [[= ->]|Hin]; [done|]. exfalso. apply Hk.
      apply list_elem_of_In, in_map_iff. exists (key, v).
      by rewrite <- list_elem_of_In.
    + rewrite IH by done. split; [by right|]. intros [[= ? ?]|?]; [congruence|done].
Qed.

Lemma keys_mapSet key value m :
  map fst (mapSet key value m)
  = match mapGet key m with
    | Some _ => map fst m
    | None => map fst m ++ [key]
    end.
Proof.
  induction m as [|[k v] rest IH]; simpl; [done|].
  destruct (String.eqb_spec k key) as [->|Hk]; simpl; [done|].
  rewrite IH. by destruct (mapGet key rest).
Qed.

Lemma NoDup_mapSet key value m :
  NoDup (map fst m) → NoDup (map fst (mapSet key value m)).
Proof.
  intros Hnd. rewrite keys_mapSet. destruct (mapGet key m) eqn:E; [done|].
  apply NoDup_app. split; [done|]. split; [|apply NoDup_singleton].
  intros k Hk ->%list_elem_of_singleton. by apply mapGet_None in E.
Qed.

Lemma gt_false a b : Linker.gt a b = false → (a <= b)%Q.
Proof.
  unfold Linker.gt. rewrite negb_false_iff. apply Qle_bool_iff.
Qed.

Lemma keepBest_invariant processed uniqueResults r :
  bestOf processed uniqueResults →
  bestOf (processed ++ [r]) (keepBest uniqueResults r).
Proof.
  intros [Hnd Hbest]. unfold keepBest.
  pose proof (Hbest (r_episode_id r)) as Hr.
  destruct (mapGet (r_episode_id r) uniqueResults) as [existing|] eqn:Hget.
  - destruct Hr as (Hid & Hin & Hmax).
    destruct (Linker.gt (relevance_score r) (relevance_score existing)) eqn:Hgt.
    + apply gt_spec in Hgt. split; [by apply NoDup_mapSet|].
      intros key. rewrite mapGet_mapSet.
      destruct (String.eqb_spec (r_episode_id r) key) as [<-|Hne].
      * split; [done|]. split; [set_solver|].
        intros c [Hc| ->%list_elem_of_singleton]%elem_of_app Hk; [|apply Qle_refl].
        apply Qle_trans with (relevance_score existing); [by apply Hmax|].
        by apply Qlt_le_weak.
      * specialize (Hbest key). destruct (mapGet key uniqueResults) as [v|].
        -- destruct Hbest as (? & ? & Hm). split; [done|]. split; [set_solver|].
           intros c [Hc| ->%list_elem_of_singleton]%elem_of_app Hk; [by apply Hm|done].
        -- intros c [Hc| ->%list_elem_of_singleton]%elem_of_app; [by apply Hbest|done].
    + apply gt_false in Hgt. split; [done|]. intros key.
      destruct (String.eqb_spec (r_episode_id r) key) as [<-|Hne].
      * rewrite Hget. split; [done|]. split; [set_solver|].
        intros c [Hc| ->%list_elem_of_singleton]%elem_of_app Hk; [by apply Hmax|done].
      * specialize (Hbest key). destruct (mapGet key uniqueResults) as [v|].
        -- destruct Hbest as (? & ? & Hm). split; [done|]. split; [set_solver|].
           intros c [Hc| ->%list_elem_of_singleton]%elem_of_app Hk; [by apply Hm|done].
        -- intros c [Hc| ->%list_elem_of_singleton]%elem_of_app; [by apply Hbest|done].
  - split; [by apply NoDup_mapSet|].
    intros key. rewrite mapGet_mapSet.
    destruct (String.eqb_spec (r_episode_id r) key) as [<-|Hne].
    + split; [done|]. split; [set_solver|].
      intros c [Hc| ->%list_elem_of_singleton]%elem_of_app Hk; [|apply Qle_refl].
      by apply Hr in Hc.
    + specialize (Hbest key). destruct (mapGet key uniqueResults) as [v|].
      * destruct Hbest as (? & ? & Hm). split; [done|]. split; [set_solver|].
        intros c [Hc| ->%list_elem_of_singleton]%elem_of_app Hk; [by apply Hm|done].
      * intros c [Hc| ->%list_elem_of_singleton]%elem_of_app; [by apply Hbest|done].
Qed.

Lemma keepBest_fold rows processed uniqueResults :
  bestOf processed uniqueResults →
  bestOf (processed ++ rows) (fold_left keepBest rows uniqueResults).
Proof.
  revert processed uniqueResults.
  induction rows as [|r rest IH]; intros processed u Hinv; simpl.
  - by rewrite app_nil_r.
  - rewrite (assoc_L (++) processed [r] rest
             : processed ++ r :: rest = (processed ++ [r]) ++ rest).
    by apply IH, keepBest_invariant.
Qed.

Lemma bestOf_nil : bestOf [] [].
Proof. split; [constructor|]. intros key. simpl. by intros c ?%elem_of_nil. Qed.

Lemma insertRow_perm r sorted : insertRow r sorted ≡ₚ r :: sorted.
Proof.
  induction sorted as [|x rest IH]; simpl; [done|].
  destruct (Linker.gt _ _); [|done]. rewrite IH. apply Permutation_swap.
Qed.

Lemma sortByScore_perm rows : sortByScore rows ≡ₚ rows.
Proof.
  induction rows as [|r rest IH]; simpl; [done|].
  by rewrite insertRow_perm, IH.
Qed.

(** The values of [uniqueResults] after the loop over [rows]. *)
Lemma unique_values rows :
  let values := map snd (fold_left keepBest rows []) in
  NoDup (map r_episode_id values)
  ∧ (∀ r, r ∈ values →
          r ∈ rows
          ∧ ∀ c, c ∈ rows → r_episode_id c = r_episode_id r →
                 (relevance_score c <= relevance_score r)%Q)
  ∧ (∀ c, c ∈ rows → ∃ r, r ∈ values ∧ r_episode_id r = r_episode_id c).
Proof.
  intros values. subst values.
  destruct (keepBest_fold rows [] [] bestOf_nil) as [Hnd Hbest]. simpl in *.
  set (u := fold_left keepBest rows []) in *.
  assert (∀ k v, (k, v) ∈ u →
                 r_episode_id v = k ∧ v ∈ rows
                 ∧ ∀ c, c ∈ rows → r_episode_id c = k →
                        (relevance_score c <= relevance_score v)%Q) as Hentry.
  { intros k v Hin. apply mapGet_elem in Hin; [|done].
    specialize (Hbest k). by rewrite Hin in Hbest. }
  split; [|split].
  - replace (map r_episode_id (map snd u)) with (map fst u); [done|].
    rewrite map_map. apply map_ext_in. intros [k v] Hin. simpl.
    symmetry. by apply (Hentry k v), list_elem_of_In.
  - intros r Hr. apply list_elem_of_In, in_map_iff in Hr as ([k v] & <- & Hin).
    apply list_elem_of_In, Hentry in Hin as (<- & ? & ?). done.
  - intros c Hc. specialize (Hbest (r_episode_id c)).
    destruct (mapGet (r_episode_id c) u) as [v|] eqn:Hget.
    + destruct Hbest as (Hid & _). exists v. split; [|done].
      apply mapGet_elem in Hget; [|done].
      apply list_elem_of_In, in_map_iff. exists (r_episode_id c, v).
      by rewrite <- list_elem_of_In.
    + by apply Hbest in Hc.
Qed.

(** The rows left of [candidates] after the loop and the sort. *)
Lemma aggregate_spec candidates :
  let rows := sortByScore (map snd (fold_left keepBest candidates [])) in
  NoDup (map r_episode_id rows)
  ∧ (∀ r, r ∈ rows →
          r ∈ candidates
          ∧ ∀ c, c ∈ candidates → r_episode_id c = r_episode_id r →
                 (relevance_score c <= relevance_score r)%Q)
  ∧ (∀ c, c ∈ candidates → ∃ r, r ∈ rows ∧ r_episode_id r = r_episode_id c).
Proof.
  intros rows. subst rows.
  destruct (unique_values candidates) as (Hnd & Hin & Hall).
  pose proof (sortByScore_perm (map snd (fold_left keepBest candidates []))) as Hp.
  simpl in *. split; [|split].
  - by rewrite (Permutation_map r_episode_id Hp).
  - intros r Hr. apply Hin. by rewrite <- Hp.
  - intros c Hc. destruct (Hall c Hc) as (r & Hr & Hid).
    exists r. split; [by rewrite Hp|done].
Qed.

(** [search] returns when its three searches do. *)
Lemma search_inv corpus searchTerm rows :
  search corpus searchTerm = Ok rows →
  ∃ episodeResults entityResults relationshipResults,
    searchInEpisodeText corpus searchTerm = Ok episodeResults
    ∧ searchInEntities corpus searchTerm = Ok entityResults
    ∧ searchInRelationships corpus searchTerm = Ok relationshipResults
    ∧ rows = sortByScore (map snd (fold_left keepBest
               (episodeResults ++ entityResults ++ relationshipResults) [])).
Proof.
  unfold search.
  destruct (searchInEpisodeText corpus searchTerm) as [ep|]; [|done].
  destruct (searchInEntities corpus searchTerm) as [en|]; [|done].
  destruct (searchInRelationships corpus searchTerm) as [re|]; [|done].
  simpl. intros [= <-]. by exists ep, en, re.
Qed.

End AggregationFacts.

(** ** The three searches *)

Section SearchFacts.
Import Search.

Lemma score_total searchTerm text matchType :
  literalTerm searchTerm = true →
  ∃ s, calculateRelevanceScore searchTerm text matchType = Ok s.
Proof.
  intros Hlit.
  destruct (JS.includes (JS.toLowerCase text) (JS.toLowerCase searchTerm)) eqn:Hinc.
  - rewrite score_exact_literal by done. by eexists.
  - rewrite score_fuzzy by done. by eexists.
Qed.

Ltac score_ok Hlit :=
  match goal with
  | |- context [calculateRelevanceScore ?t ?x ?m] =>
      destruct (score_total t x m Hlit) as [? ->]; simpl
  end.

Lemma matchEpisode_total searchTerm episode :
  literalTerm searchTerm = true → ∃ hit, matchEpisode searchTerm episode = Ok hit.
Proof.
  intros Hlit. unfold matchEpisode.
  repeat case_match; try score_ok Hlit; by eexists.
Qed.

Lemma matchEntity_total searchTerm entity :
  literalTerm searchTerm = true → ∃ hit, matchEntity searchTerm entity = Ok hit.
Proof.
  intros Hlit. unfold matchEntity.
  repeat case_match; try score_ok Hlit; by eexists.
Qed.

Lemma matchRelationship_total searchTerm relationship :
  literalTerm searchTerm = true →
  ∃ hit, matchRelationship searchTerm relationship = Ok hit.
Proof.
  intros Hlit. unfold matchRelationship.
  repeat case_match; try score_ok Hlit; by eexists.
Qed.

Lemma episodeLoop_total corpus searchTerm todo :
  literalTerm searchTerm = true →
  ∃ rows, episodeLoop corpus searchTerm todo = Ok rows.
Proof.
  intros Hlit. induction todo as [|ep rest [rows IH]]; simpl; [by eexists|].
  destruct (matchEpisode_total searchTerm ep Hlit) as [hit ->]. simpl.
  rewrite IH. simpl. by eexists.
Qed.

Lemma entityLoop_total corpus searchTerm processed todo :
  literalTerm searchTerm = true →
  ∃ rows, entityLoop corpus searchTerm processed todo = Ok rows.
Proof.
  intros Hlit. revert processed.
  induction todo as [|e rest IH]; intros processed; simpl; [by eexists|].
  destruct (matchEntity_total searchTerm e Hlit) as [[hit|] ->]; simpl; [|apply IH].
  destruct (pushOnce _ _ _ _) as [pushed processed'].
  destruct (IH processed') as [rows ->]. simpl. by eexists.
Qed.

Lemma relationshipLoop_total corpus searchTerm processed todo :
  literalTerm searchTerm = true →
  ∃ rows, relationshipLoop corpus searchTerm processed todo = Ok rows.
Proof.
  intros Hlit. revert processed.
  induction todo as [|e rest IH]; intros processed; simpl; [by eexists|].
  destruct (matchRelationship_total searchTerm e Hlit) as [[hit|] ->]; simpl; [|apply IH].
  destruct (pushOnce _ _ _ _) as [pushed processed'].
  destruct (IH processed') as [rows ->]. simpl. by eexists.
Qed.

(** A search for a term without special characters returns. *)
Lemma search_total corpus searchTerm :
  literalTerm searchTerm = true → ∃ rows, search corpus searchTerm = Ok rows.
Proof.
  intros Hlit. unfold search, searchInEpisodeText, searchInEntities, searchInRelationships.
  destruct (episodeLoop_total corpus searchTerm (episodes corpus) Hlit) as [ep ->].
  destruct (entityLoop_total corpus searchTerm ∅ (all_entities corpus) Hlit) as [en ->].
  destruct (relationshipLoop_total corpus searchTerm ∅ (all_relationships corpus) Hlit)
    as [re ->].
  simpl. by eexists.
Qed.

Lemma findEpisodeById_Some corpus episodeId episode :
  findEpisodeById corpus episodeId = Some episode →
  episode ∈ episodes corpus ∧ episode_id episode = episodeId.
Proof.
  unfold findEpisodeById. intros [Hin He]%find_some.
  by rewrite list_elem_of_In, <- String.eqb_eq.
Qed.

Lemma pushOnce_ofSummary corpus episodeId hit processed :
  Forall (ofSummary corpus) (pushOnce corpus episodeId hit processed).1.
Proof.
  unfold pushOnce. case_decide; simpl; [constructor|].
  destruct (findEpisodeById corpus episodeId) as [ep|] eqn:E; [|constructor].
  apply findEpisodeById_Some in E as [Hin Hid].
  repeat constructor. by exists ep.
Qed.

Lemma episodeLoop_ofSummary corpus searchTerm todo rows :
  todo ⊆ episodes corpus →
  episodeLoop corpus searchTerm todo = Ok rows → Forall (ofSummary corpus) rows.
Proof.
  revert rows. induction todo as [|ep rest IH]; intros rows Hsub; simpl.
  - intros [= <-]. constructor.
  - destruct (matchEpisode searchTerm ep) as [hit|]; simpl; [|done].
    destruct (episodeLoop corpus searchTerm rest) as [rs|]; simpl; [|done].
    intros [= <-].
    assert (Forall (ofSummary corpus) rs) as Hrs by (apply IH; set_solver).
    destruct hit as [[[mt md] sc]|]; [|done].
    constructor; [|done]. exists ep. split; [set_solver|done].
Qed.

Lemma entityLoop_ofSummary corpus searchTerm processed todo rows :
  entityLoop corpus searchTerm processed todo = Ok rows → Forall (ofSummary corpus) rows.
Proof.
  revert processed rows. induction todo as [|e rest IH]; intros processed rows; simpl.
  - intros [= <-]. constructor.
  - destruct (matchEntity searchTerm e) as [[hit|]|]; simpl; [|by apply IH|done].
    pose proof (pushOnce_ofSummary corpus (Entity.episode_id e) hit processed) as Hp.
    destruct (pushOnce _ _ _ _) as [pushed processed'].
    destruct (entityLoop corpus searchTerm processed' rest) as [rs|] eqn:E; simpl; [|done].
    intros [= <-]. apply Forall_app. split; [done|by eapply IH].
Qed.

Lemma relationshipLoop_ofSummary corpus searchTerm processed todo rows :
  relationshipLoop corpus searchTerm processed todo = Ok rows →
  Forall (ofSummary corpus) rows.
Proof.
  revert processed rows. induction todo as [|e rest IH]; intros processed rows; simpl.
  - intros [= <-]. constructor.
  - destruct (matchRelationship searchTerm e) as [[hit|]|]; simpl; [|by apply IH|done].
    pose proof (pushOnce_ofSummary corpus (Relationship.episode_id e) hit processed) as Hp.
    destruct (pushOnce _ _ _ _) as [pushed processed'].
    destruct (relationshipLoop corpus searchTerm processed' rest) as [rs|] eqn:E;
      simpl; [|done].
    intros [= <-]. apply Forall_app. split; [done|by eapply IH].
Qed.

(** With the empty search term every episode is a title match. *)
Lemma episodeLoop_empty_term corpus todo rows :
  episodeLoop corpus "" todo = Ok rows →
  map r_episode_id rows = map episode_id todo.
Proof.
  revert rows. induction todo as [|ep rest IH]; intros rows; simpl.
  - by intros [= <-].
  - unfold matchEpisode. cbn [JS.toLowerCase]. rewrite includes_nil.
    destruct (calculateRelevanceScore "" (title ep) "episode_title") as [s|]; simpl; [|done].
    destruct (episodeLoop corpus "" rest) as [rs|]; simpl; [|done].
    intros [= <-]. simpl. f_equal. by apply IH.
Qed.

(** A hit is reported only for a field that contains the whole term. *)
Lemma matchEpisode_whole_term searchTerm episode hit :
  matchEpisode searchTerm episode = Ok (Some hit) →
  JS.includes (JS.toLowerCase (title episode)) (JS.toLowerCase searchTerm) = true
  ∨ JS.includes (JS.toLowerCase (text episode)) (JS.toLowerCase searchTerm) = true.
Proof.
  unfold matchEpisode.
  destruct (JS.includes (JS.toLowerCase (title episode)) _); [by left|].
  destruct (JS.truthy (text episode)); simpl; [|done].
  destruct (JS.includes (JS.toLowerCase (text episode)) _); [by right|done].
Qed.

Lemma matchEntity_whole_term searchTerm entity hit :
  matchEntity searchTerm entity = Ok (Some hit) →
  JS.includes (JS.toLowerCase (Entity.name entity)) (JS.toLowerCase searchTerm) = true
  ∨ JS.includes (JS.toLowerCase (Entity.context entity)) (JS.toLowerCase searchTerm) = true.
Proof.
  unfold matchEntity.
  destruct (JS.includes (JS.toLowerCase (Entity.name entity)) _); [by left|].
  destruct (JS.truthy (Entity.context entity)); simpl; [|done].
  destruct (JS.includes (JS.toLowerCase (Entity.context entity)) _); [by right|done].
Qed.

Lemma matchRelationship_whole_term searchTerm relationship hit :
  matchRelationship searchTerm relationship = Ok (Some hit) →
  JS.includes (JS.toLowerCase (Relationship.description relationship))
              (JS.toLowerCase searchTerm) = true
  ∨ JS.includes (JS.toLowerCase (Relationship.relationship_type relationship))
                (JS.toLowerCase searchTerm) = true.
Proof.
  unfold matchRelationship.
  destruct (JS.includes (JS.toLowerCase (Relationship.description relationship)) _);
    [by left|].
  rewrite andb_false_r.
  destruct (JS.includes (JS.toLowerCase (Relationship.relationship_type relationship)) _);
    [by right|done].
Qed.

End SearchFacts.

(** ** The candidates of the aggregation *)

Section CandidateFacts.
Import Search.

Section FirstHit.
Context {A : Type} (idOf : A → string) (hitOf : A → result (option Hit)).

Lemma firstHit_here x rest h :
  hitOf x = Ok (Some h) → firstHit idOf hitOf (x :: rest) (idOf x) h.
Proof.
  intros Hx. exists [], x, rest. repeat split; [done|]. by intros ? ?%elem_of_nil.
Qed.

Lemma firstHit_later x rest episodeId h :
  (idOf x = episodeId → hitOf x = Ok None) →
  firstHit idOf hitOf rest episodeId h → firstHit idOf hitOf (x :: rest) episodeId h.
Proof.
  intros Hx (before & record & after & -> & Hid & Hhit & Hfirst).
  exists (x :: before), record, after. repeat split; [done..|].
  intros earlier [->|Hin]%elem_of_cons; [done|by apply Hfirst].
Qed.

Lemma firstHit_cons x rest episodeId h :
  firstHit idOf hitOf (x :: rest) episodeId h →
  (idOf x = episodeId ∧ hitOf x = Ok (Some h))
  ∨ ((idOf x = episodeId → hitOf x = Ok None) ∧ firstHit idOf hitOf rest episodeId h).
Proof.
  intros ([|y before] & record & after & Heq & Hid & Hhit & Hfirst).
  - injection Heq as <- <-. by left.
  - injection Heq as <- ->. right. split; [intros ?; apply Hfirst; [by left|done]|].
    exists before, record, after. repeat split; [done..|].
    intros earlier Hin. apply Hfirst. by right.
Qed.

Lemma firstHit_nil episodeId h : ¬ firstHit idOf hitOf [] episodeId h.
Proof. intros ([|] & ? & ? & ? & _); done. Qed.

End FirstHit.

Lemma episodeLoop_rows corpus searchTerm todo rows :
  episodeLoop corpus searchTerm todo = Ok rows →
  ∀ r, r ∈ rows ↔
       ∃ episode h, episode ∈ todo ∧ matchEpisode searchTerm episode = Ok (Some h)
                    ∧ r = resultRow corpus (episode_id episode) episode h.1.1 h.1.2 h.2.
Proof.
  revert rows. induction todo as [|e rest IH]; intros rows; simpl.
  { intros [= <-] r. split; [by intros ?%elem_of_nil|].
    by intros (? & ? & ?%elem_of_nil & _). }
  destruct (matchEpisode searchTerm e) as [hit|] eqn:Hm; simpl; [|done].
  destruct (episodeLoop corpus searchTerm rest) as [rs|] eqn:E; simpl; [|done].
  specialize (IH rs eq_refl). intros [= <-] r.
  destruct hit as [[[mt md] sc]|].
  - rewrite elem_of_cons, IH. split.
    + intros [->|(ep & h & Hin & Hh & ->)].
      * exists e, (mt, md, sc). split; [by left|done].
      * exists ep, h. split; [by right|done].
    + intros (ep & h & [->|Hin]%elem_of_cons & Hh & ->).
      * left. rewrite Hm in Hh. by injection Hh as <-.
      * right. by exists ep, h.
  - rewrite IH. split.
    + intros (ep & h & Hin & Hh & ->). exists ep, h. split; [by right|done].
    + intros (ep & h & [->|Hin]%elem_of_cons & Hh & ->); [congruence|].
      by exists ep, h.
Qed.

Lemma pushOnce_rows corpus episodeId h processed r :
  r ∈ (pushOnce corpus episodeId h processed).1 ↔
  (episodeId ∉ processed)
  ∧ ∃ episode, findEpisodeById corpus episodeId = Some episode
               ∧ r = resultRow corpus episodeId episode h.1.1 h.1.2 h.2.
Proof.
  unfold pushOnce. destruct (decide (episodeId ∈ processed)) as [Hin|Hout]; simpl.
  - split; [by intros ?%elem_of_nil|]. by intros [? _].
  - destruct (findEpisodeById corpus episodeId) as [ep|]; simpl.
    + rewrite list_elem_of_singleton. split.
      * intros ->. split; [done|]. by exists ep.
      * by intros (_ & ep' & [= <-] & ->).
    + split; [by intros ?%elem_of_nil|]. by intros (_ & ? & ? & _).
Qed.

Lemma pushOnce_processed corpus episodeId h processed k :
  k ∉ (pushOnce corpus episodeId h processed).2 ↔ k ≠ episodeId ∧ k ∉ processed.
Proof.
  unfold pushOnce. destruct (decide (episodeId ∈ processed)) as [Hin|Hout]; simpl.
  - split; [|by intros [_ ?]]. intros Hk. split; [|done]. by intros ->.
  - rewrite not_elem_of_union, not_elem_of_singleton. done.
Qed.

Lemma entityLoop_rows corpus searchTerm processed todo rows :
  entityLoop corpus searchTerm processed todo = Ok rows →
  ∀ r, r ∈ rows ↔
       ∃ episodeId episode h,
         (episodeId ∉ processed)
         ∧ firstHit Entity.episode_id (matchEntity searchTerm) todo episodeId h
         ∧ findEpisodeById corpus episodeId = Some episode
         ∧ r = resultRow corpus episodeId episode h.1.1 h.1.2 h.2.
Proof.
  revert processed rows. induction todo as [|e rest IH]; intros processed rows; simpl.
  { intros [= <-] r. split; [by intros ?%elem_of_nil|].
    by intros (? & ? & ? & _ & ?%firstHit_nil & _). }
  destruct (matchEntity searchTerm e) as [hit|] eqn:Hm; simpl; [|done].
  destruct hit as [h0|].
  - pose proof (pushOnce_rows corpus (Entity.episode_id e) h0 processed) as Hrows.
    pose proof (pushOnce_processed corpus (Entity.episode_id e) h0 processed) as Hproc.
    destruct (pushOnce corpus (Entity.episode_id e) h0 processed) as [pushed processed'].
    simpl in Hrows, Hproc.
    destruct (entityLoop corpus searchTerm processed' rest) as [rs|] eqn:E; simpl; [|done].
    specialize (IH processed' rs E). intros [= <-] r.
    rewrite elem_of_app, Hrows, IH. split.
    + intros [(Hout & ep & Hep & ->)|(k & ep & h & Hout & Hfirst & Hep & ->)].
      * exists (Entity.episode_id e), ep, h0. split; [done|].
        split; [by apply firstHit_here|done].
      * apply Hproc in Hout as [Hne Hout]. exists k, ep, h. split; [done|].
        split; [|done]. apply firstHit_later; [|done]. by intros ?.
    + intros (k & ep & h & Hout & Hfirst & Hep & ->).
      apply firstHit_cons in Hfirst as [[<- Hh]|[Hnone Hfirst]].
      * left. split; [done|]. exists ep. split; [done|]. congruence.
      * right. exists k, ep, h. split; [|done]. apply Hproc. split; [|done].
        intros ->. specialize (Hnone eq_refl). congruence.
  - intros Hloop r. rewrite (IH processed rows Hloop). split.
    + intros (k & ep & h & Hout & Hfirst & Hep & ->). exists k, ep, h.
      split; [done|]. split; [|done]. by apply firstHit_later.
    + intros (k & ep & h & Hout & Hfirst & Hep & ->).
      apply firstHit_cons in Hfirst as [[_ Hh]|[_ Hfirst]]; [congruence|].
      by exists k, ep, h.
Qed.

Lemma relationshipLoop_rows corpus searchTerm processed todo rows :
  relationshipLoop corpus searchTerm processed todo = Ok rows →
  ∀ r, r ∈ rows ↔
       ∃ episodeId episode h,
         (episodeId ∉ processed)
         ∧ firstHit Relationship.episode_id (matchRelationship searchTerm)
                    todo episodeId h
         ∧ findEpisodeById corpus episodeId = Some episode
         ∧ r = resultRow corpus episodeId episode h.1.1 h.1.2 h.2.
Proof.
  revert processed rows. induction todo as [|e rest IH]; intros processed rows; simpl.
  { intros [= <-] r. split; [by intros ?%elem_of_nil|].
    by intros (? & ? & ? & _ & ?%firstHit_nil & _). }
  destruct (matchRelationship searchTerm e) as [hit|] eqn:Hm; simpl; [|done].
  destruct hit as [h0|].
  - pose proof (pushOnce_rows corpus (Relationship.episode_id e) h0 processed) as Hrows.
    pose proof (pushOnce_processed corpus (Relationship.episode_id e) h0 processed)
      as Hproc.
    destruct (pushOnce corpus (Relationship.episode_id e) h0 processed)
      as [pushed processed'].
    simpl in Hrows, Hproc.
    destruct (relationshipLoop corpus searchTerm processed' rest) as [rs|] eqn:E;
      simpl; [|done].
    specialize (IH processed' rs E). intros [= <-] r.
    rewrite elem_of_app, Hrows, IH. split.
    + intros [(Hout & ep & Hep & ->)|(k & ep & h & Hout & Hfirst & Hep & ->)].
      * exists (Relationship.episode_id e), ep, h0. split; [done|].
        split; [by apply firstHit_here|done].
      * apply Hproc in Hout as [Hne Hout]. exists k, ep, h. split; [done|].
        split; [|done]. apply firstHit_later; [|done]. by intros ?.
    + intros (k & ep & h & Hout & Hfirst & Hep & ->).
      apply firstHit_cons in Hfirst as [[<- Hh]|[Hnone Hfirst]].
      * left. split; [done|]. exists ep. split; [done|]. congruence.
      * right. exists k, ep, h. split; [|done]. apply Hproc. split; [|done].
        intros ->. specialize (Hnone eq_refl). congruence.
  - intros Hloop r. rewrite (IH processed rows Hloop). split.
    + intros (k & ep & h & Hout & Hfirst & Hep & ->). exists k, ep, h.
      split; [done|]. split; [|done]. by apply firstHit_later.
    + intros (k & ep & h & Hout & Hfirst & Hep & ->).
      apply firstHit_cons in Hfirst as [[_ Hh]|[_ Hfirst]]; [congruence|].
      by exists k, ep, h.
Qed.

(** The rows the three searches hand over are the candidates. *)
Lemma candidate_rows corpus searchTerm episodeResults entityResults relationshipResults :
  searchInEpisodeText corpus searchTerm = Ok episodeResults →
  searchInEntities corpus searchTerm = Ok entityResults →
  searchInRelationships corpus searchTerm = Ok relationshipResults →
  ∀ r, r ∈ episodeResults ++ entityResults ++ relationshipResults
       ↔ candidate corpus searchTerm r.
Proof.
  intros Hep Hen Hre r.
  rewrite !elem_of_app, (episodeLoop_rows _ _ _ _ Hep),
    (entityLoop_rows _ _ _ _ _ Hen), (relationshipLoop_rows _ _ _ _ _ Hre).
  split.
  - intros [(ep & h & ? & ? & ->)|[(k & ep & h & _ & ? & ? & ->)
                                  |(k & ep & h & _ & ? & ? & ->)]].
    + by apply episodeCandidate.
    + by apply entityCandidate.
    + by apply relationshipCandidate.
  - intros [ep h ? ?|k ep h ? ?|k ep h ? ?].
    + left. by exists ep, h.
    + right. left. exists k, ep, h. split; [apply not_elem_of_empty|done].
    + right. right. exists k, ep, h. split; [apply not_elem_of_empty|done].
Qed.

End CandidateFacts.

Section SearchClaims.
Import Search Examples.




(** C5, as the code has it.  The description of a relationship is checked
    before its type label: when the search term occurs in both, the
    details and the score recorded are those of the description; the
    match type recorded is "relationship_description" whichever check
    fired. *)
Theorem relationship_description_first (searchTerm : string)
    (relationship : Relationship.t) :
  Relationship.description relationship ≠ "" →
  JS.includes (JS.toLowerCase (Relationship.description relationship))
              (JS.toLowerCase searchTerm) = true →
  JS.includes (JS.toLowerCase (Relationship.relationship_type relationship))
              (JS.toLowerCase searchTerm) = true →
  matchRelationship searchTerm relationship
  = (let* relevanceScore :=
       calculateRelevanceScore searchTerm (Relationship.description relationship)
                               "relationship_description" in
     Ok (Some ("relationship_description",
               descriptionDetails searchTerm relationship, relevanceScore)))
  ∧ ∀ relationship' hit,
      matchRelationship searchTerm relationship' = Ok (Some hit) →
      hit.1.1 = "relationship_description".
Proof.
  intros Hne Hd Ht. split.
  - unfold matchRelationship. by rewrite (proj2 (truthy_true _) Hne), Hd.
  - intros rel' hit. unfold matchRelationship.
    repeat case_match; simpl; try done;
      destruct (calculateRelevanceScore _ _ _); simpl; try done; by intros [= <-].
Qed.

Lemma relationship_description_first_witness :
  matchRelationship "founded" foundedBy
  = Ok (Some ("relationship_description", descriptionDetails "founded" foundedBy, 100%Q)).
Proof.
  refine (eq_trans (proj1 (relationship_description_first "founded" foundedBy _ _ _)) _);
    [by vm_compute|by vm_compute|by vm_compute|by vm_compute].
Defined.

(** C5, as stated, fails: the term "founded" occurs in the type label
    [founded_by] and, twice, in the description; the hit recorded is the
    one of the description check, scored 100, and not the one the check of
    the type label would record, scored 90. *)
Lemma relationship_type_label_not_first :
  JS.includes (JS.toLowerCase (Relationship.relationship_type foundedBy)) "founded" = true
  ∧ JS.includes (JS.toLowerCase (Relationship.description foundedBy)) "founded" = true
  ∧ calculateRelevanceScore "founded" (Relationship.relationship_type foundedBy)
                            "relationship_description" = Ok 90%Q
  ∧ matchRelationship "founded" foundedBy
    = Ok (Some ("relationship_description", descriptionDetails "founded" foundedBy, 100%Q))
  ∧ matchRelationship "founded" foundedBy
    ≠ Ok (Some ("relationship_description", typeLabelDetails "founded" foundedBy, 90%Q)).
Proof. do 4 (split; [by vm_compute|]). by vm_compute. Qed.

(** C6, as the code has it.  The empty search term occurs in every title:
    the search returns, with a row for every episode of the summary and
    for nothing else; the list is empty only when the summary is. *)
Theorem empty_query_matches_every_episode (corpus : Corpus) :
  ∃ rows, search corpus "" = Ok rows
          ∧ (∀ ep, ep ∈ episodes corpus →
                   ∃ r, r ∈ rows ∧ r_episode_id r = episode_id ep)
          ∧ (∀ r, r ∈ rows →
                  ∃ ep, ep ∈ episodes corpus ∧ episode_id ep = r_episode_id r)
          ∧ (rows = [] ↔ episodes corpus = []).
Proof.
  destruct (search_total corpus "" eq_refl) as [rows Hrows]. exists rows.
  split; [done|].
  apply search_inv in Hrows as Hparts.
  destruct Hparts as (ep & en & re & Hep & Hen & Hre & Hsorted).
  destruct (aggregate_spec (ep ++ en ++ re)) as (_ & Hin & Hall).
  simpl in Hin, Hall. rewrite <- Hsorted in Hin, Hall.
  pose proof (episodeLoop_empty_term _ _ _ Hep) as Hids.
  assert (∀ e, e ∈ episodes corpus → ∃ r, r ∈ rows ∧ r_episode_id r = episode_id e) as H1.
  { intros e He.
    assert (episode_id e ∈ map r_episode_id ep) as Hc.
    { rewrite Hids. apply list_elem_of_In, in_map, list_elem_of_In, He. }
    apply list_elem_of_In, in_map_iff in Hc as (c & Hc & Hcin).
    destruct (Hall c) as (r & Hr & Hrid).
    { apply elem_of_app. left. by apply list_elem_of_In. }
    exists r. split; [done|congruence]. }
  assert (∀ r, r ∈ rows → ∃ e, e ∈ episodes corpus ∧ episode_id e = r_episode_id r) as H2.
  { intros r Hr. apply Hin in Hr as [Hr _].
    pose proof (episodeLoop_ofSummary corpus "" _ _ (reflexivity _) Hep) as F1.
    pose proof (entityLoop_ofSummary corpus "" _ _ _ Hen) as F2.
    pose proof (relationshipLoop_ofSummary corpus "" _ _ _ Hre) as F3.
    rewrite Forall_forall in F1, F2, F3.
    apply elem_of_app in Hr as [?|[?|?]%elem_of_app];
      [by apply F1|by apply F2|by apply F3]. }
  split; [done|]. split; [done|]. split.
  - intros ->. destruct (episodes corpus) as [|e l]; [done|].
    destruct (H1 e) as (r & Hr & _); [by left|]. by apply elem_of_nil in Hr.
  - intros Hnil. destruct rows as [|r l]; [done|].
    destruct (H2 r) as (e & He & _); [by left|].
    rewrite Hnil in He. by apply elem_of_nil in He.
Qed.

(** C6, as stated, fails: the empty search term finds both episodes of the
    sample corpus. *)
Lemma empty_query_returns_rows :
  search bezosCorpus "" ≠ Ok []
  ∧ ∃ r1 r2, search bezosCorpus "" = Ok [r1; r2]
             ∧ r_episode_id r1 = "ep1" ∧ match_type r1 = "episode_title"
             ∧ r_episode_id r2 = "ep2" ∧ match_type r2 = "episode_title".
Proof.
  split; [by vm_compute|]. eexists _, _. split; [vm_compute; reflexivity|done].
Qed.

(** C7, as the code has it.  When the search term does not occur in the
    field as a whole but one of its space-separated words does, the
    scoring function returns 30 times the fraction of the words that
    occur, rounded: at most 30, and below the score of every exact match
    in a field of fewer than 2100 characters.  The three searches report a
    field only when it contains the whole term. *)
Theorem fuzzy_score_band (searchTerm text matchType : string) :
  JS.includes (JS.toLowerCase text) (JS.toLowerCase searchTerm) = false →
  (∃ w, w ∈ JS.splitSpace (JS.toLowerCase searchTerm)
        ∧ JS.includes (JS.toLowerCase text) w = true) →
  let words := JS.splitSpace (JS.toLowerCase searchTerm) in
  let matchingWords := List.filter (JS.includes (JS.toLowerCase text)) words in
  (∃ f, calculateRelevanceScore searchTerm text matchType = Ok f
        ∧ f = round (ofNat (length matchingWords) / ofNat (length words) * 30)
        ∧ (0 <= f)%Q ∧ (f <= 30)%Q
        ∧ ∀ searchTerm' text' matchType' e,
            JS.includes (JS.toLowerCase text') (JS.toLowerCase searchTerm') = true →
            (String.length text' < 2100)%nat →
            calculateRelevanceScore searchTerm' text' matchType' = Ok e →
            (f < e)%Q)
  ∧ (∀ episode hit,
       matchEpisode searchTerm episode = Ok (Some hit) →
       JS.includes (JS.toLowerCase (title episode)) (JS.toLowerCase searchTerm) = true
       ∨ JS.includes (JS.toLowerCase (Search.text episode))
                     (JS.toLowerCase searchTerm) = true)
  ∧ (∀ entity hit,
       matchEntity searchTerm entity = Ok (Some hit) →
       JS.includes (JS.toLowerCase (Entity.name entity)) (JS.toLowerCase searchTerm) = true
       ∨ JS.includes (JS.toLowerCase (Entity.context entity))
                     (JS.toLowerCase searchTerm) = true)
  ∧ (∀ relationship hit,
       matchRelationship searchTerm relationship = Ok (Some hit) →
       JS.includes (JS.toLowerCase (Relationship.description relationship))
                   (JS.toLowerCase searchTerm) = true
       ∨ JS.includes (JS.toLowerCase (Relationship.relationship_type relationship))
                     (JS.toLowerCase searchTerm) = true).
Proof.
  intros Hinc _ words matchingWords.
  split; [|split; [apply matchEpisode_whole_term|
                   split; [apply matchEntity_whole_term|
                           apply matchRelationship_whole_term]]].
  eexists. split; [by apply score_fuzzy|].
  split; [done|]. fold words. fold matchingWords.
  assert (length matchingWords <= length words)%nat as Hle
    by apply List.filter_length_le.
  assert (0 < length words)%nat as Hpos.
  { pose proof (splitSpace_not_nil (JS.toLowerCase searchTerm)).
    subst words. destruct (JS.splitSpace _); [done|simpl; lia]. }
  destruct (ratio_bounds _ _ Hle Hpos) as [H0 H30].
  destruct (round_bounds _ H0 H30) as [Hf0 Hf30].
  split; [done|]. split; [done|].
  intros term' text' mt' e Hinc' Hlen He.
  apply score_exact_inv in He as (n & _ & ->); [|done].
  pose proof (baseScore_ge mt') as Hb.
  pose proof (proj1 (matchBonus_bounds n)) as Hm.
  pose proof (lengthPenalty_lt (String.length text') 20 ltac:(lia) ltac:(lia)) as Hp.
  change (ofNat 20) with 20%Q in Hp.
  pose proof (Q.le_max_r 1 (baseScore mt' + matchBonus n
                            - lengthPenalty (String.length text'))) as Hmax.
  lra.
Qed.

Lemma fuzzy_score_band_witness :
  ∃ f, calculateRelevanceScore "jeff bezos" "Bezos, Jeff" "entity_name" = Ok f
       ∧ (f <= 30)%Q
       ∧ (f < 110)%Q.
Proof.
  destruct (fuzzy_score_band "jeff bezos" "Bezos, Jeff" "entity_name")
    as ((f & Hf & _ & _ & H30 & Hlt) & _).
  - by vm_compute.
  - exists "jeff". split; [|by vm_compute].
    apply list_elem_of_In. vm_compute. by left.
  - exists f. split; [exact Hf|]. split; [exact H30|].
    apply (Hlt "bezos" "The Bezos Letters" "episode_title" 110%Q);
      [by vm_compute|vm_compute; lia|by vm_compute].
Defined.

(** C7, as stated, fails: both words of "jeff bezos" occur in
    "Bezos, Jeff" and the term does not, which scores 30; the term "q"
    occurs in a transcript of 5000 characters, an exact match, which
    scores 21.  And a search for "bezos jeff", both words of which occur
    in the entity name "Jeff Bezos", returns no row. *)
Lemma fuzzy_score_above_exact_score :
  JS.includes (JS.toLowerCase "Bezos, Jeff") (JS.toLowerCase "jeff bezos") = false
  ∧ JS.includes (JS.toLowerCase "Bezos, Jeff") "jeff" = true
  ∧ JS.includes (JS.toLowerCase longText) (JS.toLowerCase "q") = true
  ∧ (∃ f e, calculateRelevanceScore "jeff bezos" "Bezos, Jeff" "entity_name" = Ok f
            ∧ calculateRelevanceScore "q" longText "episode_text" = Ok e
            ∧ (f == 30)%Q ∧ (e == 21)%Q ∧ ¬ (f < e)%Q)
  ∧ JS.includes (JS.toLowerCase (Entity.name bezos1)) "bezos" = true
  ∧ JS.includes (JS.toLowerCase (Entity.name bezos1)) "jeff" = true
  ∧ search bezosCorpus "bezos jeff" = Ok [].
Proof.
  do 3 (split; [by vm_compute|]). split; [|by vm_compute]. eexists _, _.
  split; [vm_compute; reflexivity|]. split; [vm_compute; reflexivity|].
  by vm_compute.
Qed.

End SearchClaims.

Section IdMapperWitness.
Import IdMapper Examples.



End IdMapperWitness.

(** ** Worked examples *)

Section WorkedExamples.
Import Examples.

(** The two sample episodes share Jeff Bezos, a person: weight 3, strength
    min(1, 3 / 1 * 2) = 1, one record. *)
Example bezos_episodes_linked :
  ∃ r, Linker.detectCrossEpisodeRelationships [episodeOne; episodeTwo] = [r]
       ∧ CrossEpisodeRelationship.episode1_id r = "ep1"
       ∧ CrossEpisodeRelationship.episode2_id r = "ep2"
       ∧ CrossEpisodeRelationship.shared_entities r = ["Jeff Bezos"]
       ∧ CrossEpisodeRelationship.relationship_strength r = 1%Q
       ∧ CrossEpisodeRelationship.common_themes r = ["Entrepreneurship"].
Proof. eexists. split; [vm_compute; reflexivity|done]. Qed.

(** One shared person among 20 entities: strength 3 / 20 * 2 = 0.3, which
    is not above the threshold; among 19 entities the pair is kept. *)
Example strength_at_threshold_discarded :
  (∃ s, Linker.calculateRelationshipStrength [bezos1] (crowded 20) episodeTwo = Some s
        ∧ (s == 3 # 10)%Q)
  ∧ Linker.linkPair (crowded 20) episodeTwo = None
  ∧ is_Some (Linker.linkPair (crowded 19) episodeTwo).
Proof.
  split; [eexists; split; [vm_compute; reflexivity|by vm_compute]|].
  split; [by vm_compute|]. vm_compute. by eexists.
Qed.

(** A search for "bezos": the title match of the first episode (110) comes
    before the entity-name match of the second (100). *)
Example bezos_search_ranking :
  ∃ r1 r2, Search.search bezosCorpus "bezos" = Ok [r1; r2]
           ∧ Search.r_episode_id r1 = "ep1" ∧ Search.match_type r1 = "episode_title"
           ∧ Search.relevance_score r1 = 110%Q
           ∧ Search.r_episode_id r2 = "ep2" ∧ Search.match_type r2 = "entity_name"
           ∧ Search.relevance_score r2 = 100%Q.
Proof. eexists _, _. split; [vm_compute; reflexivity|done]. Qed.

(** Within the entity search the first matching entity of an episode makes
    the row: here the context match of the first entity (80), although the
    name of the second matches too (100). *)
Example entity_search_first_match :
  (∃ s, Search.matchEntity "amazon" (Entity.mk "place_amazon_ep7" "ep7" "Amazon" "place"
                                               "a company" false None None)
        = Ok (Some ("entity_name", s, 100%Q)))
  ∧ ∃ r, Search.search amazonCorpus "amazon" = Ok [r]
         ∧ Search.match_type r = "entity_context"
         ∧ Search.relevance_score r = 80%Q.
Proof.
  split; [eexists; vm_compute; reflexivity|].
  eexists. split; [vm_compute; reflexivity|done].
Qed.

End WorkedExamples.

(** ** Normalized titles *)

Section NormalizeFacts.
Import IdMapper.

Lemma allChars_impl (P Q : ascii → bool) s :
  (∀ c, P c = true → Q c = true) →
  Search.allChars P s = true → Search.allChars Q s = true.
Proof.
  intros HPQ. induction s as [|c t IH]; simpl; [done|].
  rewrite !andb_true_iff. intros [? ?]. auto.
Qed.

Lemma lowerChar_not_upper c : JS.isUpper (JS.lowerChar c) = false.
Proof. by destruct c as [[] [] [] [] [] [] [] []]. Qed.

Lemma toLowerCase_not_upper s :
  Search.allChars (fun c => negb (JS.isUpper c)) (JS.toLowerCase s) = true.
Proof.
  induction s as [|c t IH]; simpl; [done|].
  by rewrite lowerChar_not_upper, IH.
Qed.

Lemma keepChars_allChars (P f : ascii → bool) s :
  Search.allChars P s = true →
  Search.allChars (fun c => P c && f c) (Ingest.keepChars f s) = true.
Proof.
  induction s as [|c t IH]; simpl; [done|].
  rewrite andb_true_iff. intros [Hc Ht].
  destruct (f c) eqn:Hf; simpl; [|by apply IH].
  by rewrite Hc, Hf, IH.
Qed.

Lemma collapseSpaces_allChars (P : ascii → bool) inRun s :
  Search.allChars P s = true →
  Search.allChars (fun c => P c && negb (isSpace c) || Ascii.eqb c " ")
                  (collapseSpaces inRun s) = true.
Proof.
  revert inRun. induction s as [|c t IH]; intros inRun; simpl; [done|].
  rewrite andb_true_iff. intros [Hc Ht].
  destruct (isSpace c) eqn:Hs.
  - destruct inRun; simpl; [by apply IH|].
    rewrite orb_true_r. by apply IH.
  - simpl. rewrite Hc, Hs. by apply IH.
Qed.

Lemma trimStart_allChars (P : ascii → bool) s :
  Search.allChars P s = true → Search.allChars P (trimStart s) = true.
Proof.
  induction s as [|c t IH]; simpl; [done|].
  rewrite andb_true_iff. intros [Hc Ht].
  destruct (isSpace c); [by apply IH|]. simpl. by rewrite Hc, Ht.
Qed.

Lemma trimEnd_allChars (P : ascii → bool) s :
  Search.allChars P s = true → Search.allChars P (trimEnd s) = true.
Proof.
  induction s as [|c t IH]; simpl; [done|].
  rewrite andb_true_iff. intros [Hc Ht]. specialize (IH Ht).
  destruct (trimEnd t) as [|c' t'] eqn:E.
  - destruct (isSpace c); simpl; [done|by rewrite Hc].
  - change (Search.allChars P (String c (String c' t')) = true).
    simpl in *. by rewrite Hc, IH.
Qed.

(** A normalized title is made of lower-case letters, digits, underscores
    and single spaces between them. *)
Lemma normalizeTitle_alphabet title :
  Search.allChars (fun c => isWord c && negb (JS.isUpper c) || Ascii.eqb c " ")
                  (normalizeTitle title) = true.
Proof.
  unfold normalizeTitle, trim.
  apply trimEnd_allChars, trimStart_allChars.
  eapply allChars_impl;
    [|apply collapseSpaces_allChars, keepChars_allChars, toLowerCase_not_upper].
  intros c. simpl. destruct (isWord c), (isSpace c), (JS.isUpper c); simpl; auto.
Qed.

Example normalizeTitle_example :
  normalizeTitle "  #123:  The Bezos_Letters! (Part 2) " = "123 the bezos_letters part 2".
Proof. by vm_compute. Qed.

End NormalizeFacts.

(** * Further properties *)

(** ** The linker *)

Section LinkerMore.
Import Linker Examples.

Lemma sameEntity_refl e : sameEntity e e = true.
Proof. apply sameEntity_spec. done. Qed.

Lemma sameEntity_sym e1 e2 : sameEntity e1 e2 = sameEntity e2 e1.
Proof.
  apply eq_true_iff_eq. rewrite !sameEntity_spec.
  split; intros [? ?]; split; congruence.
Qed.

Lemma findSharedEntities_self entities : findSharedEntities entities entities = entities.
Proof.
  assert (∀ l, (∀ e, e ∈ l → e ∈ entities) → findSharedEntities l entities = l) as H.
  { induction l as [|e rest IH]; intros Hsub; simpl; [done|].
    assert (existsb (sameEntity e) entities = true) as ->.
    { apply existsb_exists. exists e. split; [|apply sameEntity_refl].
      apply list_elem_of_In, Hsub. by left. }
    f_equal. apply IH. intros e' He'. apply Hsub. by right. }
  by apply H.
Qed.

(** The shared entities are entities of the first episode, in their order
    and as often as they occur there; an episode shares all its entities
    with itself, and nothing is shared with an episode without entities. *)
Theorem shared_entities_sublist (entities1 entities2 : list Entity.t) :
  findSharedEntities entities1 entities2 `sublist_of` entities1
  ∧ findSharedEntities entities1 entities1 = entities1
  ∧ findSharedEntities entities1 [] = []
  ∧ findSharedEntities [] entities2 = [].
Proof.
  split; [|split; [|split; [|done]]].
  - induction entities1 as [|e rest IH]; simpl; [constructor|].
    destruct (existsb _ _); by constructor.
  - apply findSharedEntities_self.
  - induction entities1 as [|e rest IH]; simpl; done.
Qed.

(** Whether two episodes overlap does not depend on their order. *)
Theorem shared_entities_symmetric (entities1 entities2 : list Entity.t) :
  findSharedEntities entities1 entities2 = []
  ↔ findSharedEntities entities2 entities1 = [].
Proof.
  assert (∀ l1 l2, findSharedEntities l1 l2 = [] → findSharedEntities l2 l1 = []) as H.
  { intros l1 l2 H12. apply elem_of_nil_inv. intros e He.
    apply findSharedEntities_elem in He as (He & e' & He' & Hsame).
    assert (e' ∈ findSharedEntities l1 l2) as Hin.
    { apply findSharedEntities_elem. split; [done|]. exists e.
      by rewrite sameEntity_sym. }
    rewrite H12 in Hin. by apply elem_of_nil in Hin. }
  split; apply H.
Qed.

Lemma sharedWeight_length l : (Search.ofNat (length l) <= sharedWeight l)%Q.
Proof.
  induction l as [|e l IH]; [by vm_compute|].
  change (sharedWeight (e :: l)) with (typeWeight (Entity.type e) + sharedWeight l)%Q.
  pose proof (typeWeight_pos (Entity.type e)) as H1.
  assert (Search.ofNat (length (e :: l)) == 1 + Search.ofNat (length l))%Q as ->.
  { unfold Search.ofNat. simpl length. rewrite Nat2Z.inj_succ, <- Z.add_1_l.
    by rewrite inject_Z_plus. }
  lra.
Qed.

(** Two episodes with the same, non-empty list of entities are linked with
    the full strength 1 (each shared entity weighs at least 1, and the
    weight is doubled), whatever the types of the entities. *)
Theorem identical_entities_full_strength (episode1 episode2 : EpisodeData.t) :
  EpisodeData.entities episode1 = EpisodeData.entities episode2 →
  EpisodeData.entities episode1 ≠ [] →
  ∃ r, linkPair episode1 episode2 = Some r
       ∧ (CrossEpisodeRelationship.relationship_strength r == 1)%Q
       ∧ CrossEpisodeRelationship.shared_entities r
         = map Entity.name (EpisodeData.entities episode1).
Proof.
  intros Heq Hne.
  assert (findSharedEntities (EpisodeData.entities episode1)
                             (EpisodeData.entities episode2)
          = EpisodeData.entities episode1) as Hshared
    by (rewrite <- Heq; apply findSharedEntities_self).
  destruct (strength_value (EpisodeData.entities episode1) episode1 episode2 Hne)
    as (s & Hs & Hval & _ & _).
  assert (s == 1)%Q as Hone.
  { rewrite Hval. apply Q.min_l. rewrite <- Heq, Nat.max_id.
    pose proof (sharedWeight_length (EpisodeData.entities episode1)) as Hw.
    change (inject_Z (Z.of_nat (length (EpisodeData.entities episode1))))
      with (Search.ofNat (length (EpisodeData.entities episode1))).
    assert (0 < Search.ofNat (length (EpisodeData.entities episode1)))%Q as Hpos.
    { destruct (EpisodeData.entities episode1); [done|].
      unfold Search.ofNat, Qlt; simpl. lia. }
    apply Qle_shift_div_l; [done|]. lra. }
  exists (crossRecord episode1 episode2 (EpisodeData.entities episode1) s).
  split; [|split; [done|done]].
  apply linkPair_spec. rewrite Hshared. split; [done|]. exists s.
  split; [done|]. split; [|done]. rewrite Hone. by vm_compute.
Qed.

Lemma identical_entities_full_strength_witness :
  ∃ r, linkPair episodeOne episodeOne = Some r
       ∧ (CrossEpisodeRelationship.relationship_strength r == 1)%Q.
Proof.
  destruct (identical_entities_full_strength episodeOne episodeOne)
    as (r & Hr & Hs & _); [reflexivity|by vm_compute|].
  exists r. split; [exact Hr|exact Hs].
Defined.

End LinkerMore.

Section LinkerRecords.
Import Linker Examples.

(** Every record the linker emits belongs to an earlier and a later
    episode of the input: it carries their ids and titles, the id made of
    the two episode ids, the names of the entities the two share, of which
    there is at least one, and a strength above 0.3 and at most 1. *)
Theorem emitted_record_invariants (allEpisodeData : list EpisodeData.t)
    (r : CrossEpisodeRelationship.t) :
  r ∈ detectCrossEpisodeRelationships allEpisodeData →
  ∃ i j episode1 episode2,
    (i < j)%nat
    ∧ allEpisodeData !! i = Some episode1
    ∧ allEpisodeData !! j = Some episode2
    ∧ CrossEpisodeRelationship.episode1_id r = EpisodeData.episode_id episode1
    ∧ CrossEpisodeRelationship.episode2_id r = EpisodeData.episode_id episode2
    ∧ CrossEpisodeRelationship.episode1_title r = EpisodeData.episode_title episode1
    ∧ CrossEpisodeRelationship.episode2_title r = EpisodeData.episode_title episode2
    ∧ CrossEpisodeRelationship.id r
      = "cross_" +:+ EpisodeData.episode_id episode1
        +:+ "_" +:+ EpisodeData.episode_id episode2
    ∧ CrossEpisodeRelationship.shared_entities r
      = map Entity.name (findSharedEntities (EpisodeData.entities episode1)
                                            (EpisodeData.entities episode2))
    ∧ CrossEpisodeRelationship.shared_entities r ≠ []
    ∧ (3 # 10 < CrossEpisodeRelationship.relationship_strength r)%Q
    ∧ (CrossEpisodeRelationship.relationship_strength r <= 1)%Q.
Proof.
  intros (i & j & e1 & e2 & Hij & Hi & Hj & Hlink)%detect_elem.
  exists i, j, e1, e2. do 3 (split; [done|]).
  apply linkPair_spec in Hlink as (Hne & s & Hs & Hlt & ->). simpl.
  assert (EpisodeData.entities e1 ≠ []) as Hne1.
  { intros Hnil. apply Hne. by rewrite Hnil. }
  destruct (strength_value (findSharedEntities (EpisodeData.entities e1)
                                               (EpisodeData.entities e2)) e1 e2 Hne1)
    as (s' & Hs' & _ & _ & Hle).
  assert (s' = s) as -> by congruence.
  do 6 (split; [done|]). split; [|done].
  by destruct (findSharedEntities _ _).
Qed.

Lemma emitted_record_invariants_witness :
  ∃ r, r ∈ detectCrossEpisodeRelationships [episodeOne; episodeTwo]
       ∧ CrossEpisodeRelationship.id r = "cross_ep1_ep2"
       ∧ (3 # 10 < CrossEpisodeRelationship.relationship_strength r)%Q
       ∧ (CrossEpisodeRelationship.relationship_strength r <= 1)%Q.
Proof.
  eexists. split; [vm_compute; left|].
  match goal with
  | |- CrossEpisodeRelationship.id ?r = _ ∧ _ =>
      destruct (emitted_record_invariants [episodeOne; episodeTwo] r)
        as (i & j & e1 & e2 & _ & _ & _ & _ & _ & _ & _ & _ & _ & _ & H1 & H2)
  end; [vm_compute; left|].
  split; [reflexivity|done].
Defined.

Lemma linkWithLater_length episode1 later :
  (length (linkWithLater episode1 later) <= length later)%nat.
Proof.
  induction later as [|e rest IH]; simpl; [done|].
  destruct (linkPair episode1 e); simpl; lia.
Qed.

(** The linker emits at most one record per pair of episodes: at most
    n (n - 1) / 2 records for n episodes, none for fewer than two. *)
Theorem emitted_records_bound (allEpisodeData : list EpisodeData.t) :
  (2 * length (detectCrossEpisodeRelationships allEpisodeData)
   <= length allEpisodeData * (length allEpisodeData - 1))%nat.
Proof.
  induction allEpisodeData as [|e rest IH]; simpl; [done|].
  rewrite length_app. pose proof (linkWithLater_length e rest). 
  rewrite Nat.sub_0_r. destruct rest as [|e' rest']; simpl in *; nia.
Qed.

Lemma addTheme_elem label themes t :
  t ∈ addTheme label themes ↔ t = label ∨ t ∈ themes.
Proof.
  unfold addTheme. destruct (existsb _ _) eqn:E.
  - split; [by right|]. intros [->|?]; [|done].
    apply existsb_exists in E as (x & Hx & ->%String.eqb_eq). by apply list_elem_of_In.
  - rewrite elem_of_app, list_elem_of_singleton. tauto.
Qed.

Lemma addTheme_NoDup label themes : NoDup themes → NoDup (addTheme label themes).
Proof.
  intros Hnd. unfold addTheme. destruct (existsb _ _) eqn:E; [done|].
  apply NoDup_app. split; [done|]. split; [|apply NoDup_singleton].
  intros x Hx ->%list_elem_of_singleton.
  assert (existsb (String.eqb label) themes = true) as Hc; [|congruence].
  apply existsb_exists. exists label. split; [by apply list_elem_of_In|apply String.eqb_refl].
Qed.

Lemma themesOf_elem entity themes t :
  t ∈ themesOf entity themes ↔ t ∈ themes ∨ contributes entity t.
Proof.
  unfold themesOf, contributes.
  destruct (String.eqb_spec (Entity.type entity) "person") as [Hp|Hp];
  destruct (String.eqb_spec (Entity.type entity) "place") as [Hl|Hl];
  destruct (String.eqb_spec (Entity.type entity) "product") as [Hd|Hd];
  destruct (String.eqb_spec (Entity.type entity) "media") as [Hm|Hm];
  destruct (JS.includes (Entity.context entity) "company") eqn:Hc;
  destruct (JS.includes (Entity.context entity) "book") eqn:Hb;
  destruct (Entity.amazon_searchable entity) eqn:Ha; simpl;
  rewrite ?addTheme_elem; intuition congruence.
Qed.

Lemma themesOf_NoDup entity themes : NoDup themes → NoDup (themesOf entity themes).
Proof.
  intros Hnd. unfold themesOf.
  repeat case_match; repeat apply addTheme_NoDup; done.
Qed.

Lemma themes_fold_elem sharedEntities themes t :
  t ∈ fold_left (fun themes entity => themesOf entity themes) sharedEntities themes
  ↔ t ∈ themes ∨ ∃ entity, entity ∈ sharedEntities ∧ contributes entity t.
Proof.
  revert themes. induction sharedEntities as [|e rest IH]; intros themes; simpl.
  - split; [by left|]. intros [?|(e & ?%elem_of_nil & _)]; done.
  - rewrite IH, themesOf_elem. split.
    + intros [[?|?]|(e' & ? & ?)]; [by left|right; exists e; split; [by left|done]|].
      right. exists e'. split; [by right|done].
    + intros [?|(e' & [->|?]%elem_of_cons & ?)]; [by left; left|by left; right|].
      right. by exists e'.
Qed.

Lemma themes_fold_NoDup sharedEntities themes :
  NoDup themes →
  NoDup (fold_left (fun themes entity => themesOf entity themes) sharedEntities themes).
Proof.
  revert themes. induction sharedEntities as [|e rest IH]; intros themes Hnd; simpl;
    [done|]. by apply IH, themesOf_NoDup.
Qed.

(** The common themes hold no label twice, and a label is among them
    exactly when one of the shared entities calls for it: a person for
    "Entrepreneurship", a place whose context contains "company" for
    "Business Strategy", a product for "Product Development", a medium
    whose context contains "book" for "Business Literature", an entity
    flagged as searchable on Amazon for "Recommended Products". *)
Theorem common_themes_spec (sharedEntities : list Entity.t) (t : string) :
  NoDup (extractCommonThemes sharedEntities)
  ∧ (t ∈ extractCommonThemes sharedEntities
     ↔ ∃ entity, entity ∈ sharedEntities ∧ contributes entity t).
Proof.
  unfold extractCommonThemes. split; [apply themes_fold_NoDup; constructor|].
  rewrite themes_fold_elem. split; [|by right].
  intros [?%elem_of_nil|?]; done.
Qed.

End LinkerRecords.

(** ** Ingestion *)

Section IngestMore.
Import Ingest.

(** The id of a relationship does not depend on the order in which its two
    entities are given. *)
Theorem createRelationshipId_symmetric (entity1Id entity2Id uuid : string) :
  createRelationshipId entity1Id entity2Id uuid
  = createRelationshipId entity2Id entity1Id uuid.
Proof.
  unfold createRelationshipId, String.ltb.
  rewrite (String.compare_antisym entity2Id entity1Id).
  destruct (String.compare entity1Id entity2Id) eqn:E; simpl; try done.
  apply String.compare_eq_iff in E. by subst.
Qed.

Lemma lowerChar_idemp c : JS.lowerChar (JS.lowerChar c) = JS.lowerChar c.
Proof. by destruct c as [[] [] [] [] [] [] [] []]. Qed.

Lemma toLowerCase_idemp s : JS.toLowerCase (JS.toLowerCase s) = JS.toLowerCase s.
Proof. induction s as [|c t IH]; simpl; [done|]. by rewrite lowerChar_idemp, IH. Qed.

Lemma toLowerCase_app a b :
  JS.toLowerCase (a +:+ b) = JS.toLowerCase a +:+ JS.toLowerCase b.
Proof. induction a as [|c t IH]; simpl; [done|]. by rewrite IH. Qed.

Lemma keepChars_app f a b : keepChars f (a +:+ b) = keepChars f a +:+ keepChars f b.
Proof.
  induction a as [|c t IH]; simpl; [done|].
  destruct (f c); simpl; by rewrite IH.
Qed.

(** The id of an entity ignores the case of its name and every character
    of the name that is not a letter or a digit: names that differ only in
    these get the same id. *)
Theorem createEntityId_ignores (before after type episodeId : string) (c : ascii) :
  isLowerAlnum (JS.lowerChar c) = false →
  createEntityId (before +:+ String c after) type episodeId
  = createEntityId (before +:+ after) type episodeId
  ∧ createEntityId (JS.toLowerCase (before +:+ after)) type episodeId
    = createEntityId (before +:+ after) type episodeId.
Proof.
  intros Hc. unfold createEntityId. split.
  - rewrite !toLowerCase_app, !keepChars_app. simpl. by rewrite Hc.
  - by rewrite toLowerCase_idemp.
Qed.

Lemma createEntityId_ignores_witness :
  createEntityId "Jeff Bezos" "person" "ep_12_0a1b2c3d"
  = createEntityId "JeffBezos" "person" "ep_12_0a1b2c3d"
  ∧ createEntityId "jeffbezos" "person" "ep_12_0a1b2c3d"
    = createEntityId "JeffBezos" "person" "ep_12_0a1b2c3d".
Proof.
  apply (createEntityId_ignores "Jeff" "Bezos" "person" "ep_12_0a1b2c3d" " "%char).
  reflexivity.
Defined.

Lemma entityStep_cache episodeId acc entityData :
  let acc' := entityStep episodeId acc entityData in
  (∀ k v, acc.2 !! k = Some v → acc'.2 !! k = Some v)
  ∧ (∀ e, e ∈ acc'.1 → e ∈ acc.1 ∨ is_Some (acc'.2 !! globalKey e)).
Proof.
  unfold entityStep.
  destruct (truthyString (p_name entityData)) as [n|]; [|by split; auto].
  destruct (truthyString (p_type entityData)) as [t|]; [|by split; auto].
  simpl. set (e := makeEntity episodeId n t entityData).
  change (JS.toLowerCase n +:+ "_" +:+ t) with (globalKey e).
  destruct (acc.2 !! globalKey e) as [v0|] eqn:Hget; split.
  - done.
  - intros e' [?| ->%list_elem_of_singleton]%elem_of_app; [by left|].
    right. by rewrite Hget.
  - intros k v Hk. rewrite lookup_insert_ne; [done|]. intros <-. congruence.
  - intros e' [?| ->%list_elem_of_singleton]%elem_of_app; [by left|].
    right. by rewrite lookup_insert_eq.
Qed.

Lemma entityLoop_cache episodeId payloads acc :
  let acc' := fold_left (entityStep episodeId) payloads acc in
  (∀ k v, acc.2 !! k = Some v → acc'.2 !! k = Some v)
  ∧ (∀ e, e ∈ acc'.1 → e ∈ acc.1 ∨ is_Some (acc'.2 !! globalKey e)).
Proof.
  revert acc. induction payloads as [|p rest IH]; intros acc; simpl; [by split; auto|].
  destruct (IH (entityStep episodeId acc p)) as [Hmono Hkeys].
  destruct (entityStep_cache episodeId acc p) as [Hmono1 Hkeys1].
  split; [by auto|].
  intros e He. destruct (Hkeys e He) as [Hin|?]; [|by right].
  destruct (Hkeys1 e Hin) as [?|[v Hv]]; [by left|].
  right. exists v. by apply Hmono.
Qed.

(** The cache of entities only grows: a call never changes or removes an
    entry it finds (the first entity seen under a key stays), and
    afterwards every entity the call has pushed has an entry under its
    key. *)
Theorem global_cache_first_wins (uuidv4 : nat → string) (this : Extractor)
    (extractedData : ExtractedData) (episodeId episodeTitle : string) :
  let out := processExtractedEntities uuidv4 this extractedData episodeId episodeTitle in
  (∀ k v, globalEntities this !! k = Some v → globalEntities out.2 !! k = Some v)
  ∧ (∀ e, e ∈ out.1.1 → is_Some (globalEntities out.2 !! globalKey e)).
Proof.
  unfold processExtractedEntities.
  pose proof (entityLoop_cache episodeId (default [] (x_entities extractedData))
                ([], globalEntities this)) as [Hmono Hkeys].
  destruct (fold_left (entityStep episodeId) _ _) as [es cache].
  destruct (fold_left (relationshipStep uuidv4 episodeId es) _ _) as [rs calls].
  simpl in *. split; [done|].
  intros e He. destruct (Hkeys e He) as [?%elem_of_nil|?]; done.
Qed.

(** A payload without an array of entities yields no entity and, whatever
    relationships it lists, no relationship; one without an array of
    relationships yields no relationship.  Neither consumes a UUID. *)
Theorem missing_arrays_are_empty (uuidv4 : nat → string) (this : Extractor)
    (extractedData : ExtractedData) (episodeId episodeTitle : string) :
  let out := processExtractedEntities uuidv4 this extractedData episodeId episodeTitle in
  (x_entities extractedData = None → out = (([], []), this))
  ∧ (x_relationships extractedData = None →
     out.1.2 = [] ∧ uuidCalls out.2 = uuidCalls this).
Proof.
  unfold processExtractedEntities. split.
  - intros ->. simpl.
    assert (∀ rels acc, fold_left (relationshipStep uuidv4 episodeId []) rels acc = acc)
      as Hnone.
    { induction rels as [|r rest IH]; intros acc; simpl; [done|].
      rewrite <- (IH acc) at 2. f_equal. unfold relationshipStep.
      by repeat case_match. }
    rewrite Hnone. by destruct this.
  - intros ->. simpl. by destruct (fold_left (entityStep episodeId) _ _).
Qed.

Lemma relationshipStep_calls uuidv4 episodeId entities acc relData :
  let acc' := relationshipStep uuidv4 episodeId entities acc relData in
  (acc'.2 + length acc.1 = acc.2 + length acc'.1)%nat
  ∧ ∀ i r, acc'.1 !! i = Some r →
           acc.1 !! i = Some r
           ∨ (i = length acc.1
              ∧ Relationship.id r
                = createRelationshipId (Relationship.entity1_id r)
                                       (Relationship.entity2_id r) (uuidv4 acc.2)).
Proof.
  unfold relationshipStep.
  repeat case_match; simpl; try (split; [lia|by auto]).
  split; [rewrite length_app; simpl; lia|].
  intros i r Hi. destruct (decide (i < length acc.1)%nat) as [Hlt|Hge].
  - left. by rewrite lookup_app_l in Hi.
  - right. rewrite lookup_app_r in Hi by lia.
    destruct (i - length acc.1)%nat as [|k] eqn:Hk; [|by destruct k].
    simpl in Hi. injection Hi as <-. split; [lia|done].
Qed.

(** Every stored relationship draws exactly one UUID: the counter advances
    by the number of relationships stored, and the id of the i-th one is
    made with the i-th UUID drawn in the call. *)
Theorem one_uuid_per_relationship (uuidv4 : nat → string) (this : Extractor)
    (extractedData : ExtractedData) (episodeId episodeTitle : string) :
  let out := processExtractedEntities uuidv4 this extractedData episodeId episodeTitle in
  uuidCalls out.2 = (uuidCalls this + length out.1.2)%nat
  ∧ ∀ i r, out.1.2 !! i = Some r →
           Relationship.id r
           = createRelationshipId (Relationship.entity1_id r)
                                  (Relationship.entity2_id r)
                                  (uuidv4 (uuidCalls this + i)%nat).
Proof.
  unfold processExtractedEntities.
  destruct (fold_left (entityStep episodeId) _ _) as [es cache].
  assert (∀ rels acc,
            (acc.2 = uuidCalls this + length acc.1)%nat →
            (∀ i r, acc.1 !! i = Some r →
                    Relationship.id r
                    = createRelationshipId (Relationship.entity1_id r)
                        (Relationship.entity2_id r) (uuidv4 (uuidCalls this + i)%nat)) →
            let acc' := fold_left (relationshipStep uuidv4 episodeId es) rels acc in
            (acc'.2 = uuidCalls this + length acc'.1)%nat
            ∧ ∀ i r, acc'.1 !! i = Some r →
                     Relationship.id r
                     = createRelationshipId (Relationship.entity1_id r)
                         (Relationship.entity2_id r) (uuidv4 (uuidCalls this + i)%nat))
    as Hloop.
  { induction rels as [|rd rest IH]; intros acc Hc Hids; simpl; [done|].
    apply IH.
    - destruct (relationshipStep_calls uuidv4 episodeId es acc rd) as [Hd _]. lia.
    - intros i r Hi.
      destruct (relationshipStep_calls uuidv4 episodeId es acc rd) as [_ Hnew].
      destruct (Hnew i r Hi) as [?|[-> ->]]; [by apply Hids|]. by rewrite Hc. }
  destruct (Hloop (default [] (x_relationships extractedData)) ([], uuidCalls this))
    as [Hc Hids]; [simpl; lia|by intros i r ?|].
  destruct (fold_left (relationshipStep uuidv4 episodeId es) _ _) as [rs calls].
  simpl in *. done.
Qed.

End IngestMore.

(** ** The id mapper *)

Section IdMapperMore.
Import IdMapper Examples.

Lemma findOrCreateEpisodeId_knownId this episode uuid timestamp :
  findOrCreateEpisodeId this episode uuid timestamp
  = match knownId this episode with
    | Some existingId => (existingId, this)
    | None => (generateEpisodeId episode uuid timestamp,
               remember this episode (generateEpisodeId episode uuid timestamp))
    end.
Proof.
  unfold findOrCreateEpisodeId, knownId.
  destruct (truthyNumber (episode_number episode) ≫= _); [done|].
  destruct (if JS.truthy (url episode) then _ else _); [done|].
  by destruct (titleToId this !! normalizeTitle (title episode)).
Qed.

Lemma knownId_remember this episode newId :
  knownId this episode = None → knownId (remember this episode newId) episode = Some newId.
Proof.
  unfold knownId, remember; simpl.
  destruct (truthyNumber (episode_number episode)) as [n|]; simpl.
  - by rewrite lookup_insert_eq.
  - destruct (JS.truthy (url episode)).
    + by rewrite lookup_insert_eq.
    + by rewrite lookup_insert_eq.
Qed.

(** Asking again for the id of an episode, right after it was identified,
    gives the same id and leaves the mapper as it is, whatever the UUID
    generator and the clock would say. *)
Theorem findOrCreateEpisodeId_stable (this : Mapper) (episode : Episode)
    (uuid uuid' : string) (timestamp timestamp' : option Z) :
  let answer := findOrCreateEpisodeId this episode uuid timestamp in
  findOrCreateEpisodeId answer.2 episode uuid' timestamp' = answer.
Proof.
  intros answer. subst answer. rewrite !findOrCreateEpisodeId_knownId.
  destruct (knownId this episode) as [id|] eqn:Hk; simpl.
  - by rewrite Hk.
  - by rewrite knownId_remember.
Qed.

Lemma extends_refl this : extends this this.
Proof. by repeat split. Qed.

Lemma extends_trans this1 this2 this3 :
  extends this1 this2 → extends this2 this3 → extends this1 this3.
Proof.
  intros (? & ? & ?) (? & ? & ?). repeat split; by etrans.
Qed.

Lemma findOrCreate_extends this episode uuid timestamp :
  extends this (findOrCreateEpisodeId this episode uuid timestamp).2.
Proof.
  unfold findOrCreateEpisodeId.
  destruct (truthyNumber (episode_number episode) ≫= _) as [id1|] eqn:E1;
    [apply extends_refl|].
  destruct (JS.truthy (url episode)) eqn:Eu.
  - destruct (existingIds this !! url episode) as [id2|] eqn:E2; [apply extends_refl|].
    destruct (titleToId this !! normalizeTitle (title episode)) as [id3|] eqn:E3;
      [apply extends_refl|].
    unfold extends, remember; simpl. rewrite Eu. split; [|split].
    + by apply insert_subseteq.
    + destruct (truthyNumber (episode_number episode)) as [n|]; [|done].
      by apply insert_subseteq.
    + by apply insert_subseteq.
  - destruct (titleToId this !! normalizeTitle (title episode)) as [id3|] eqn:E3;
      [apply extends_refl|].
    unfold extends, remember; simpl. rewrite Eu. split; [done|split].
    + destruct (truthyNumber (episode_number episode)) as [n|]; [|done].
      by apply insert_subseteq.
    + by apply insert_subseteq.
Qed.

(** The mapper never changes an id it knows: after a call every binding
    of the three maps is as before, a new id being stored only under keys
    that had none; and it stores nothing under the episode number 0 or the
    empty URL. *)
Theorem findOrCreateEpisodeId_extends (this : Mapper) (episode : Episode)
    (uuid : string) (timestamp : option Z) :
  let this' := (findOrCreateEpisodeId this episode uuid timestamp).2 in
  existingIds this ⊆ existingIds this'
  ∧ episodeNumberToId this ⊆ episodeNumberToId this'
  ∧ titleToId this ⊆ titleToId this'
  ∧ (episodeNumberToId this !! 0%Z = None → episodeNumberToId this' !! 0%Z = None)
  ∧ (existingIds this !! "" = None → existingIds this' !! "" = None).
Proof.
  intros this'. destruct (findOrCreate_extends this episode uuid timestamp) as (H1 & H2 & H3).
  do 3 (split; [done|]). subst this'. rewrite findOrCreateEpisodeId_knownId.
  destruct (knownId this episode); simpl; [done|].
  unfold remember; simpl. split.
  - destruct (truthyNumber (episode_number episode)) as [k|] eqn:E; [|done].
    apply truthyNumber_Some in E as [_ ?]. intros ?. by rewrite lookup_insert_ne.
  - destruct (JS.truthy (url episode)) eqn:E; [|done].
    apply truthy_true in E. intros ?. by rewrite lookup_insert_ne.
Qed.

Lemma load_number_absent n gs this :
  (∀ g, g ∈ gs → g_episode_number g ≠ Some n) →
  episodeNumberToId (loadExistingIds this gs) !! n = episodeNumberToId this !! n.
Proof.
  unfold loadExistingIds. revert this.
  induction gs as [|g rest IH]; intros this Hno; simpl; [done|].
  rewrite IH by (intros g' Hg'; apply Hno; by right).
  unfold loadEpisode; simpl.
  destruct (truthyNumber (g_episode_number g)) as [k|] eqn:Ek; [|done].
  apply truthyNumber_Some in Ek as [Ek _].
  rewrite lookup_insert_ne; [done|]. intros ->. by apply (Hno g); [left|].
Qed.

Lemma loadExistingIds_app this gs1 gs2 :
  loadExistingIds this (gs1 ++ gs2) = loadExistingIds (loadExistingIds this gs1) gs2.
Proof. unfold loadExistingIds. apply fold_left_app. Qed.

(** The last graph episode that carries a number decides its id: an
    episode with that number gets the id of the last graph episode loaded
    with it, whatever ids earlier graph episodes gave to the number and
    whatever the URL and the title of the episode.  This is how ids
    survive from one run to the next. *)
Theorem known_number_keeps_id (this : Mapper)
    (before after : list GraphEpisodeData) (g : GraphEpisodeData) (n : Z)
    (episode : Episode) (uuid : string) (timestamp : option Z) :
  g_episode_number g = Some n →
  n ≠ 0%Z →
  (∀ g', g' ∈ after → g_episode_number g' ≠ Some n) →
  episode_number episode = Some n →
  let loaded := loadExistingIds this (before ++ g :: after) in
  episodeNumberToId loaded !! n = Some (g_episode_id g)
  ∧ findOrCreateEpisodeId loaded episode uuid timestamp = (g_episode_id g, loaded).
Proof.
  intros Hg Hn Hlast Hep loaded.
  assert (episodeNumberToId loaded !! n = Some (g_episode_id g)) as Hid.
  { subst loaded. rewrite loadExistingIds_app.
    change (loadExistingIds (loadExistingIds this before) (g :: after))
      with (loadExistingIds (loadEpisode (loadExistingIds this before) g) after).
    rewrite load_number_absent by done. unfold loadEpisode; simpl. rewrite Hg.
    assert (truthyNumber (Some n) = Some n) as -> by (by apply truthyNumber_Some).
    apply lookup_insert_eq. }
  split; [exact Hid|].
  unfold findOrCreateEpisodeId. rewrite Hep.
  assert (truthyNumber (Some n) = Some n) as -> by (by apply truthyNumber_Some).
  simpl.
  change (episodeNumberToId (loadExistingIds this (before ++ g :: after)) !! n)
    with (episodeNumberToId loaded !! n).
  by rewrite Hid.
Qed.

Lemma known_number_keeps_id_witness :
  findOrCreateEpisodeId
    (loadExistingIds emptyMapper [twelveFirst; twelveLast; thirteen])
    episodeTwelve "0f0f0f0f-aaaa" None
  = ("ep_12_99999999",
     loadExistingIds emptyMapper [twelveFirst; twelveLast; thirteen]).
Proof.
  refine (proj2 (known_number_keeps_id emptyMapper [twelveFirst] [thirteen] twelveLast
                   12%Z episodeTwelve "0f0f0f0f-aaaa" None _ _ _ _));
    [reflexivity|done| |reflexivity].
  intros g' ->%list_elem_of_singleton. done.
Defined.

End IdMapperMore.

Section MappingRun.
Import IdMapper Examples.

Lemma wasExisting_extends this this' episode :
  extends this this' → wasExisting this episode = true → wasExisting this' episode = true.
Proof.
  intros (Hu & Hn & Ht). unfold wasExisting.
  rewrite !orb_true_iff, !bool_decide_eq_true.
  intros [[[id Hid]|[id Hid]]|Hurl].
  - left. left. exists id. by eapply lookup_weaken.
  - left. right. exists id. by eapply lookup_weaken.
  - right. destruct (JS.truthy (url episode)); [|done].
    apply bool_decide_eq_true in Hurl as [id Hid].
    apply bool_decide_eq_true. exists id. by eapply lookup_weaken.
Qed.

Lemma wasExisting_after this episode uuid timestamp :
  wasExisting (findOrCreateEpisodeId this episode uuid timestamp).2 episode = true.
Proof.
  unfold findOrCreateEpisodeId, wasExisting.
  destruct (truthyNumber (episode_number episode)) as [n|] eqn:En; simpl.
  - destruct (episodeNumberToId this !! n) as [id|] eqn:E1; simpl.
    { rewrite E1. by rewrite bool_decide_eq_true_2 by eauto. }
    destruct (if JS.truthy (url episode) then _ else _) as [id|] eqn:E2; simpl.
    { destruct (JS.truthy (url episode)); [|done]. rewrite E2.
      rewrite (bool_decide_eq_true_2 (is_Some (Some id))) by eauto.
      by rewrite orb_true_r. }
    destruct (titleToId this !! normalizeTitle (title episode)) as [id|] eqn:E3; simpl.
    { rewrite E3. rewrite (bool_decide_eq_true_2 (is_Some (Some id))) by eauto.
      by rewrite orb_true_r. }
    rewrite En, !lookup_insert_eq. by rewrite bool_decide_eq_true_2 by eauto.
  - destruct (if JS.truthy (url episode) then _ else _) as [id|] eqn:E2; simpl.
    { destruct (JS.truthy (url episode)); [|done]. rewrite E2.
      rewrite (bool_decide_eq_true_2 (is_Some (Some id))) by eauto.
      by rewrite orb_true_r. }
    destruct (titleToId this !! normalizeTitle (title episode)) as [id|] eqn:E3; simpl.
    { rewrite E3. rewrite (bool_decide_eq_true_2 (is_Some (Some id))) by eauto.
      by rewrite orb_true_r. }
    rewrite !lookup_insert_eq.
    rewrite (bool_decide_eq_true_2 (is_Some (Some _))) by eauto.
    by rewrite orb_true_r.
Qed.

Lemma identifyAll_spec uuidFor getTime todo index this :
  let out := identifyAll uuidFor getTime index this todo in
  extends this out.2
  ∧ Forall2 (fun episode updated =>
               ∃ episodeId, updated = withEpisodeId episode episodeId) todo out.1
  ∧ Forall (fun updated => wasExisting out.2 updated = true) out.1.
Proof.
  revert index this. induction todo as [|ep rest IH]; intros index this; simpl.
  { split; [apply extends_refl|]. split; constructor. }
  pose proof (findOrCreate_extends this ep (uuidFor index) (getTime (date ep)))
    as Hext.
  pose proof (wasExisting_after this ep (uuidFor index) (getTime (date ep))) as Hwas.
  destruct (findOrCreateEpisodeId this ep _ _) as [id this1]. simpl in *.
  specialize (IH (S index) this1).
  destruct (identifyAll uuidFor getTime (S index) this1 rest) as [upd this2].
  simpl in *. destruct IH as (Hext2 & Hmap & Hall).
  split; [by eapply extends_trans|]. split.
  - constructor; [by exists id|done].
  - constructor; [|done]. by apply (wasExisting_extends this1 this2 ep).
Qed.

(** [addEpisodeIds] gives every episode of the summary an id and changes
    nothing else: the episodes stay in their order with all their other
    fields, and so do the other fields of the summary. *)
Theorem addEpisodeIds_only_adds_ids (uuidFor : nat → string) (getTime : string → option Z)
    (graphFiles : list (list GraphEpisodeData)) (this : Mapper)
    (podcastSummary : PodcastSummary) :
  let updated :=
    (addEpisodeIds uuidFor getTime graphFiles this podcastSummary).1 in
  Forall2 (fun episode episode' =>
             ∃ episodeId, episode' = withEpisodeId episode episodeId)
          (episodes podcastSummary) (episodes updated)
  ∧ podcast_name updated = podcast_name podcastSummary
  ∧ source_url updated = source_url podcastSummary
  ∧ extracted_at updated = extracted_at podcastSummary
  ∧ total_episodes updated = total_episodes podcastSummary.
Proof.
  unfold addEpisodeIds.
  pose proof (identifyAll_spec uuidFor getTime (episodes podcastSummary) 0
                (fold_left loadExistingIds graphFiles this)) as (_ & Hmap & _).
  destruct (identifyAll _ _ _ _ _) as [upd this']. by simpl in *.
Qed.

Lemma report_fold this episodes report :
  Forall (fun episode => wasExisting this episode = true) episodes →
  let report' := fold_left (countEpisode this) episodes report in
  existingMapped report' = (existingMapped report + length episodes)%nat
  ∧ newGenerated report' = newGenerated report
  ∧ (withNumbers report' + withoutNumbers report'
     = withNumbers report + withoutNumbers report + length episodes)%nat.
Proof.
  revert report. induction episodes as [|ep rest IH]; intros report Hall; simpl.
  { repeat split; lia. }
  apply Forall_cons in Hall as [Hep Hrest].
  destruct (IH (countEpisode this report ep) Hrest) as (H1 & H2 & H3).
  rewrite H1, H2, H3. unfold countEpisode; simpl. rewrite Hep.
  destruct (bool_decide _); simpl; repeat split; lia.
Qed.

(** The report printed after [addEpisodeIds], as [main] asks for it,
    counts every episode as one with an existing id and none as new, even
    when all ids were just generated: by then the mapper holds a binding
    for each episode. *)
Theorem mapping_report_counts_none_new (uuidFor : nat → string)
    (getTime : string → option Z) (graphFiles : list (list GraphEpisodeData))
    (this : Mapper) (podcastSummary : PodcastSummary) :
  let out := addEpisodeIds uuidFor getTime graphFiles this podcastSummary in
  let report := generateMappingReport out.2 podcastSummary out.1 in
  newGenerated report = 0%nat
  ∧ existingMapped report = length (episodes podcastSummary)
  ∧ (withNumbers report + withoutNumbers report = length (episodes podcastSummary))%nat.
Proof.
  unfold addEpisodeIds, generateMappingReport.
  pose proof (identifyAll_spec uuidFor getTime (episodes podcastSummary) 0
                (fold_left loadExistingIds graphFiles this)) as (_ & Hmap & Hall).
  destruct (identifyAll _ _ _ _ _) as [upd this']. simpl in *.
  destruct (report_fold this' upd
              {| existingMapped := 0; newGenerated := 0;
                 withNumbers := 0; withoutNumbers := 0 |} Hall) as (H1 & H2 & H3).
  simpl in *. rewrite H1, H2, H3.
  apply Forall2_length in Hmap. rewrite Hmap. done.
Qed.

End MappingRun.

Section NormalizeMore.
Import IdMapper.

Lemma toLowerCase_fixed s :
  Search.allChars (fun c => negb (JS.isUpper c)) s = true → JS.toLowerCase s = s.
Proof.
  induction s as [|c t IH]; simpl; [done|].
  rewrite andb_true_iff, negb_true_iff. intros [Hc Ht].
  unfold JS.lowerChar. rewrite Hc. by rewrite IH.
Qed.

Lemma keepChars_fixed f s : Search.allChars f s = true → Ingest.keepChars f s = s.
Proof.
  induction s as [|c t IH]; simpl; [done|].
  rewrite andb_true_iff. intros [-> Ht]. by rewrite IH.
Qed.

Lemma collapseSpaces_singleSpaced inRun s :
  singleSpaced inRun (collapseSpaces inRun s) = true.
Proof.
  revert inRun. induction s as [|c t IH]; intros inRun; simpl; [done|].
  destruct (isSpace c) eqn:Hs.
  - destruct inRun; [apply IH|]. simpl. apply IH.
  - simpl. rewrite Hs. apply IH.
Qed.

Lemma collapseSpaces_fixed inRun s :
  singleSpaced inRun s = true → collapseSpaces inRun s = s.
Proof.
  revert inRun. induction s as [|c t IH]; intros inRun; simpl; [done|].
  destruct (isSpace c).
  - rewrite !andb_true_iff, negb_true_iff. intros [[Hc ->] Ht].
    apply Ascii.eqb_eq in Hc as ->. by rewrite IH.
  - intros Ht. by rewrite IH.
Qed.

Lemma singleSpaced_weaken b s : singleSpaced b s = true → singleSpaced false s = true.
Proof.
  destruct s as [|c t]; simpl; [done|]. destruct (isSpace c); [|done].
  rewrite !andb_true_iff. intros [[-> _] ->]. done.
Qed.

Lemma trimStart_singleSpaced b s :
  singleSpaced b s = true → singleSpaced false (trimStart s) = true.
Proof.
  revert b. induction s as [|c t IH]; intros b; simpl; [done|].
  destruct (isSpace c) eqn:Hs.
  - rewrite !andb_true_iff. intros [_ Ht]. by eapply IH.
  - intros Ht. simpl. by rewrite Hs.
Qed.

Lemma trimEnd_singleSpaced b s :
  singleSpaced b s = true → singleSpaced b (trimEnd s) = true.
Proof.
  revert b. induction s as [|c t IH]; intros b; simpl; [done|].
  destruct (isSpace c) eqn:Hs.
  - rewrite !andb_true_iff. intros [[Hc Hb] Ht]. specialize (IH true Ht).
    destruct (trimEnd t) as [|c' t'] eqn:E; [done|].
    change (singleSpaced b (String c (String c' t')) = true).
    simpl in *. rewrite Hs, Hc, Hb. done.
  - intros Ht. specialize (IH false Ht).
    destruct (trimEnd t) as [|c' t'] eqn:E; simpl; [by rewrite Hs|].
    simpl in IH. by rewrite Hs.
Qed.

Lemma trimStart_startsTidy s : startsTidy (trimStart s) = true.
Proof.
  induction s as [|c t IH]; simpl; [done|].
  destruct (isSpace c) eqn:Hs; [done|]. simpl. by rewrite Hs.
Qed.

Lemma trimEnd_startsTidy s : startsTidy s = true → startsTidy (trimEnd s) = true.
Proof.
  destruct s as [|c t]; simpl; [done|]. rewrite negb_true_iff. intros Hs.
  destruct (trimEnd t); simpl; rewrite ?Hs; simpl; by rewrite ?Hs.
Qed.

Lemma trimStart_fixed s : startsTidy s = true → trimStart s = s.
Proof.
  destruct s as [|c t]; simpl; [done|]. rewrite negb_true_iff. by intros ->.
Qed.

Lemma trimEnd_idemp s : trimEnd (trimEnd s) = trimEnd s.
Proof.
  induction s as [|c t IH]; simpl; [done|].
  destruct (trimEnd t) as [|c' t'] eqn:E.
  - destruct (isSpace c) eqn:Hs; simpl; [done|]. by rewrite Hs.
  - change (trimEnd (String c (String c' t')) = String c (String c' t')).
    change (trimEnd (String c (String c' t')))
      with (match trimEnd (String c' t') with
            | EmptyString => if isSpace c then EmptyString else String c EmptyString
            | t'' => String c t''
            end).
    by rewrite IH.
Qed.

(** Normalizing a title twice is the same as normalizing it once: a
    normalized title is its own key. *)
Theorem normalizeTitle_idempotent (title : string) :
  normalizeTitle (normalizeTitle title) = normalizeTitle title.
Proof.
  set (r := normalizeTitle title).
  pose proof (normalizeTitle_alphabet title) as Halpha. fold r in Halpha.
  assert (singleSpaced false r = true) as Hsingle.
  { subst r. unfold normalizeTitle, trim.
    apply trimEnd_singleSpaced. eapply trimStart_singleSpaced.
    apply collapseSpaces_singleSpaced. }
  assert (startsTidy r = true) as Hstart.
  { subst r. unfold normalizeTitle, trim. apply trimEnd_startsTidy, trimStart_startsTidy. }
  assert (trimEnd r = r) as Hend.
  { subst r. unfold normalizeTitle, trim. apply trimEnd_idemp. }
  unfold normalizeTitle at 1, trim.
  rewrite (toLowerCase_fixed r), (keepChars_fixed _ r), (collapseSpaces_fixed false r),
    (trimStart_fixed r); try done.
  - eapply allChars_impl; [|exact Halpha].
    intros c. by destruct c as [[] [] [] [] [] [] [] []].
  - eapply allChars_impl; [|exact Halpha].
    intros c. by destruct c as [[] [] [] [] [] [] [] []].
Qed.

End NormalizeMore.

Section GeneratedIds.
Import IdMapper Examples.
Local Abbreviation noUnderscore := Search.noUnderscore.

Lemma pretty_N_go_noUnderscore x s :
  noUnderscore s = true → noUnderscore (pretty_N_go x s) = true.
Proof.
  revert s. induction (N.lt_wf_0 x) as [x _ IH]; intros s Hs.
  assert (x = 0 ∨ 0 < x)%N as [->|Hpos] by lia; [by rewrite pretty_N_go_0|].
  rewrite pretty_N_go_step by done. apply IH; [by apply N.div_lt|].
  unfold noUnderscore in *. simpl. rewrite Hs.
  unfold pretty_N_char. by repeat case_match.
Qed.

Lemma pretty_Z_noUnderscore (n : Z) : noUnderscore (pretty n) = true.
Proof.
  assert (∀ p : positive, noUnderscore (pretty p) = true) as Hpos.
  { intros p. unfold pretty, pretty_positive, pretty, pretty_N.
    case_decide; [done|]. by apply pretty_N_go_noUnderscore. }
  destruct n as [|p|p]; [done|apply Hpos|].
  unfold pretty, pretty_Z. unfold noUnderscore. simpl. apply Hpos.
Qed.

Lemma split_at_underscore a b r r' :
  noUnderscore a = true → noUnderscore b = true →
  a +:+ String "_" r = b +:+ String "_" r' → a = b.
Proof.
  unfold noUnderscore. revert b.
  induction a as [|c a IH]; intros [|d b]; simpl; try done.
  - rewrite andb_true_iff, negb_true_iff. intros _ [Hd _] [= <- _].
    by rewrite Ascii.eqb_refl in Hd.
  - rewrite andb_true_iff, negb_true_iff. intros [Hc _] _ [= -> _].
    by rewrite Ascii.eqb_refl in Hc.
  - rewrite !andb_true_iff. intros [_ Ha] [_ Hb] [= -> Heq].
    f_equal. by apply IH.
Qed.



End GeneratedIds.

(** ** The search engine *)

Section SearchMore.
Import Search Examples.

Lemma insertRow_sorted r sorted :
  StronglySorted notBelow sorted → StronglySorted notBelow (insertRow r sorted).
Proof.
  induction sorted as [|x rest IH]; intros Hs; simpl.
  { repeat constructor. }
  apply StronglySorted_inv in Hs as [Hrest Hx].
  destruct (Linker.gt (relevance_score x) (relevance_score r)) eqn:Hgt.
  - apply gt_spec in Hgt. constructor; [by apply IH|].
    rewrite (insertRow_perm r rest). constructor; [by apply Qlt_le_weak|done].
  - apply gt_false in Hgt. constructor; [by constructor|].
    constructor; [done|].
    eapply Forall_impl; [exact Hx|]. intros y Hy. unfold notBelow in *.
    by eapply Qle_trans.
Qed.



(** A search term without characters that are special in a regular
    expression never makes the search fail. *)
Theorem search_returns_for_literal_terms (corpus : Corpus) (searchTerm : string) :
  literalTerm searchTerm = true → ∃ rows, search corpus searchTerm = Ok rows.
Proof.
  intros Hlit. unfold search, searchInEpisodeText, searchInEntities, searchInRelationships.
  destruct (episodeLoop_total corpus searchTerm (episodes corpus) Hlit) as [ep ->].
  destruct (entityLoop_total corpus searchTerm ∅ (all_entities corpus) Hlit) as [en ->].
  destruct (relationshipLoop_total corpus searchTerm ∅ (all_relationships corpus) Hlit)
    as [re ->].
  simpl. by eexists.
Qed.

Lemma search_returns_for_literal_terms_witness :
  ∃ rows, search bezosCorpus "jeff bezos" = Ok rows.
Proof. apply search_returns_for_literal_terms. reflexivity. Defined.

(** When no title, text, entity name, entity context, relationship
    description or relationship type contains the term, the search returns
    the empty list, be the term a valid regular expression or not; so it
    does on an empty corpus. *)
Theorem search_without_match_is_empty (corpus : Corpus) (searchTerm : string) :
  (∀ ep, ep ∈ episodes corpus →
         JS.includes (JS.toLowerCase (title ep)) (JS.toLowerCase searchTerm) = false
         ∧ JS.includes (JS.toLowerCase (Search.text ep)) (JS.toLowerCase searchTerm) = false) →
  (∀ e, e ∈ all_entities corpus →
        JS.includes (JS.toLowerCase (Entity.name e)) (JS.toLowerCase searchTerm) = false
        ∧ JS.includes (JS.toLowerCase (Entity.context e)) (JS.toLowerCase searchTerm)
          = false) →
  (∀ r, r ∈ all_relationships corpus →
        JS.includes (JS.toLowerCase (Relationship.description r))
                    (JS.toLowerCase searchTerm) = false
        ∧ JS.includes (JS.toLowerCase (Relationship.relationship_type r))
                      (JS.toLowerCase searchTerm) = false) →
  search corpus searchTerm = Ok [].
Proof.
  intros Hep Hen Hre.
  assert (∀ todo, (∀ ep, ep ∈ todo → ep ∈ episodes corpus) →
                  episodeLoop corpus searchTerm todo = Ok []) as H1.
  { induction todo as [|ep rest IH]; intros Hsub; simpl; [done|].
    destruct (Hep ep) as [Ht Hx]; [apply Hsub; by left|].
    unfold matchEpisode. rewrite Ht, Hx, andb_false_r. simpl.
    rewrite IH; [done|]. intros ep' ?. apply Hsub. by right. }
  assert (∀ todo processed, (∀ e, e ∈ todo → e ∈ all_entities corpus) →
                            entityLoop corpus searchTerm processed todo = Ok []) as H2.
  { induction todo as [|e rest IH]; intros processed Hsub; simpl; [done|].
    destruct (Hen e) as [Hn Hc]; [apply Hsub; by left|].
    unfold matchEntity. rewrite Hn, Hc, andb_false_r. simpl.
    apply IH. intros e' ?. apply Hsub. by right. }
  assert (∀ todo processed, (∀ r, r ∈ todo → r ∈ all_relationships corpus) →
                            relationshipLoop corpus searchTerm processed todo = Ok [])
    as H3.
  { induction todo as [|r rest IH]; intros processed Hsub; simpl; [done|].
    destruct (Hre r) as [Hd Ht]; [apply Hsub; by left|].
    unfold matchRelationship. rewrite Hd, Ht, andb_false_r. simpl.
    apply IH. intros r' ?. apply Hsub. by right. }
  unfold search, searchInEpisodeText, searchInEntities, searchInRelationships.
  by rewrite H1, H2, H3.
Qed.

Lemma search_without_match_is_empty_witness :
  search {| episodes := []; all_entities := []; all_relationships := [] |} "c++" = Ok [].
Proof.
  apply search_without_match_is_empty; simpl; by intros ? ?%elem_of_nil.
Defined.

End SearchMore.

Section SearchRows.
Import Search Examples.

Lemma pushOnce_ids corpus episodeId hit processed :
  let out := pushOnce corpus episodeId hit processed in
  processed ⊆ out.2
  ∧ episodeId ∈ out.2
  ∧ (length out.1 <= 1)%nat
  ∧ ∀ r, r ∈ out.1 → r_episode_id r = episodeId ∧ episodeId ∉ processed.
Proof.
  unfold pushOnce. case_decide as Hin; simpl.
  - split; [done|]. split; [done|]. split; [lia|]. by intros r ?%elem_of_nil.
  - split; [set_solver|]. split; [set_solver|].
    destruct (findEpisodeById corpus episodeId); simpl; (split; [lia|]);
      [|by intros r ?%elem_of_nil].
    by intros r ->%list_elem_of_singleton.
Qed.

(** What the loops over entities and over relationships share: the rows
    pushed belong to pairwise different episodes, none of them served
    before. *)
Lemma pushed_rows_distinct (pushed rs : list SearchResult) (episodeId : string)
    (processed processed' : gset string) :
  processed ⊆ processed' → episodeId ∈ processed' → (length pushed <= 1)%nat →
  (∀ r, r ∈ pushed → r_episode_id r = episodeId ∧ episodeId ∉ processed) →
  NoDup (map r_episode_id rs) →
  (∀ r, r ∈ rs → r_episode_id r ∉ processed') →
  NoDup (map r_episode_id (pushed ++ rs))
  ∧ ∀ r, r ∈ pushed ++ rs → r_episode_id r ∉ processed.
Proof.
  intros Hsub Hin Hlen Hp Hnd Hnot. split.
  - rewrite map_app. apply NoDup_app. split; [|split; [|done]].
    + destruct pushed as [|r [|r' l]]; simpl in *;
        [constructor|apply NoDup_singleton|lia].
    + intros k Hk Hk'. apply list_elem_of_In, in_map_iff in Hk as (r & <- & Hr).
      apply list_elem_of_In, in_map_iff in Hk' as (r' & Heq & Hr').
      apply list_elem_of_In in Hr, Hr'.
      destruct (Hp r Hr) as [Hid _]. apply (Hnot r' Hr'). by rewrite Heq, Hid.
  - intros r [Hr|Hr]%elem_of_app.
    + by destruct (Hp r Hr) as [-> ?].
    + intros Hc. apply (Hnot r Hr). by apply Hsub.
Qed.

Lemma entityLoop_ids corpus searchTerm processed todo rows :
  entityLoop corpus searchTerm processed todo = Ok rows →
  NoDup (map r_episode_id rows) ∧ ∀ r, r ∈ rows → r_episode_id r ∉ processed.
Proof.
  revert processed rows. induction todo as [|e rest IH]; intros processed rows; simpl.
  { intros [= <-]. split; [constructor|]. by intros r ?%elem_of_nil. }
  destruct (matchEntity searchTerm e) as [[hit|]|]; simpl; [|by apply IH|done].
  pose proof (pushOnce_ids corpus (Entity.episode_id e) hit processed)
    as (Hsub & Hin & Hlen & Hp).
  destruct (pushOnce _ _ _ _) as [pushed processed']. simpl in *.
  destruct (entityLoop corpus searchTerm processed' rest) as [rs|] eqn:E; simpl; [|done].
  intros [= <-]. destruct (IH _ _ E) as [Hnd Hnot].
  by eapply pushed_rows_distinct.
Qed.

Lemma relationshipLoop_ids corpus searchTerm processed todo rows :
  relationshipLoop corpus searchTerm processed todo = Ok rows →
  NoDup (map r_episode_id rows) ∧ ∀ r, r ∈ rows → r_episode_id r ∉ processed.
Proof.
  revert processed rows. induction todo as [|e rest IH]; intros processed rows; simpl.
  { intros [= <-]. split; [constructor|]. by intros r ?%elem_of_nil. }
  destruct (matchRelationship searchTerm e) as [[hit|]|]; simpl; [|by apply IH|done].
  pose proof (pushOnce_ids corpus (Relationship.episode_id e) hit processed)
    as (Hsub & Hin & Hlen & Hp).
  destruct (pushOnce _ _ _ _) as [pushed processed']. simpl in *.
  destruct (relationshipLoop corpus searchTerm processed' rest) as [rs|] eqn:E;
    simpl; [|done].
  intros [= <-]. destruct (IH _ _ E) as [Hnd Hnot].
  by eapply pushed_rows_distinct.
Qed.



Lemma baseScore_le mt : (baseScore mt <= 100)%Q.
Proof. unfold baseScore. repeat case_match; by vm_compute. Qed.

Lemma exact_score_range searchTerm text matchType s :
  JS.includes (JS.toLowerCase text) (JS.toLowerCase searchTerm) = true →
  calculateRelevanceScore searchTerm text matchType = Ok s →
  (1 <= s)%Q ∧ (s <= 150)%Q.
Proof.
  intros Hinc (n & _ & ->)%score_exact_inv; [|done].
  split; [apply Q.le_max_l|]. apply Q.max_lub; [by vm_compute|].
  pose proof (baseScore_le matchType). pose proof (proj2 (matchBonus_bounds n)).
  pose proof (lengthPenalty_nonneg (String.length text)). lra.
Qed.

Lemma matchEpisode_range searchTerm episode mt md sc :
  matchEpisode searchTerm episode = Ok (Some (mt, md, sc)) → (1 <= sc)%Q ∧ (sc <= 150)%Q.
Proof.
  unfold matchEpisode.
  destruct (JS.includes (JS.toLowerCase (title episode)) _) eqn:Ht.
  - destruct (calculateRelevanceScore _ _ _) as [s|] eqn:E; simpl; [|done].
    intros [= _ _ <-]. by eapply exact_score_range.
  - destruct (JS.truthy (Search.text episode)); simpl; [|done].
    destruct (JS.includes (JS.toLowerCase (Search.text episode)) _) eqn:Hx; [|done].
    destruct (calculateRelevanceScore _ _ _) as [s|] eqn:E; simpl; [|done].
    intros [= _ _ <-]. by eapply exact_score_range.
Qed.

Lemma matchEntity_range searchTerm entity mt md sc :
  matchEntity searchTerm entity = Ok (Some (mt, md, sc)) → (1 <= sc)%Q ∧ (sc <= 150)%Q.
Proof.
  unfold matchEntity.
  destruct (JS.includes (JS.toLowerCase (Entity.name entity)) _) eqn:Ht.
  - destruct (calculateRelevanceScore _ _ _) as [s|] eqn:E; simpl; [|done].
    intros [= _ _ <-]. by eapply exact_score_range.
  - destruct (JS.truthy (Entity.context entity)); simpl; [|done].
    destruct (JS.includes (JS.toLowerCase (Entity.context entity)) _) eqn:Hx; [|done].
    destruct (calculateRelevanceScore _ _ _) as [s|] eqn:E; simpl; [|done].
    intros [= _ _ <-]. by eapply exact_score_range.
Qed.

Lemma matchRelationship_range searchTerm relationship mt md sc :
  matchRelationship searchTerm relationship = Ok (Some (mt, md, sc)) →
  (1 <= sc)%Q ∧ (sc <= 150)%Q.
Proof.
  unfold matchRelationship.
  destruct (JS.includes (JS.toLowerCase (Relationship.description relationship)) _) eqn:Hd.
  - destruct (JS.truthy (Relationship.description relationship)); simpl.
    + destruct (calculateRelevanceScore _ _ _) as [s|] eqn:E; simpl; [|done].
      intros [= _ _ <-]. by eapply exact_score_range.
    + destruct (JS.includes (JS.toLowerCase (Relationship.relationship_type _)) _) eqn:Ht;
        [|done].
      destruct (calculateRelevanceScore _ _ _) as [s|] eqn:E; simpl; [|done].
      intros [= _ _ <-]. by eapply exact_score_range.
  - rewrite andb_false_r.
    destruct (JS.includes (JS.toLowerCase (Relationship.relationship_type _)) _) eqn:Ht;
      [|done].
    destruct (calculateRelevanceScore _ _ _) as [s|] eqn:E; simpl; [|done].
    intros [= _ _ <-]. by eapply exact_score_range.
Qed.

Lemma pushOnce_range corpus episodeId mt md sc processed :
  (1 <= sc)%Q ∧ (sc <= 150)%Q →
  Forall inRange (pushOnce corpus episodeId (mt, md, sc) processed).1.
Proof.
  intros Hr. unfold pushOnce. case_decide; simpl; [constructor|].
  destruct (findEpisodeById corpus episodeId); [|constructor].
  apply Forall_cons. split; [exact Hr|constructor].
Qed.

Lemma episodeLoop_range corpus searchTerm todo rows :
  episodeLoop corpus searchTerm todo = Ok rows → Forall inRange rows.
Proof.
  revert rows. induction todo as [|ep rest IH]; intros rows; simpl.
  { intros [= <-]. constructor. }
  destruct (matchEpisode searchTerm ep) as [hit|] eqn:Hm; simpl; [|done].
  destruct (episodeLoop corpus searchTerm rest) as [rs|]; simpl; [|done].
  intros [= <-]. destruct hit as [[[mt md] sc]|]; [|by apply IH].
  constructor; [|by apply IH]. by apply matchEpisode_range in Hm.
Qed.

Lemma entityLoop_range corpus searchTerm processed todo rows :
  entityLoop corpus searchTerm processed todo = Ok rows → Forall inRange rows.
Proof.
  revert processed rows. induction todo as [|e rest IH]; intros processed rows; simpl.
  { intros [= <-]. constructor. }
  destruct (matchEntity searchTerm e) as [[[[mt md] sc]|]|] eqn:Hm; simpl;
    [|by apply IH|done].
  pose proof (pushOnce_range corpus (Entity.episode_id e) mt md sc processed
                (matchEntity_range _ _ _ _ _ Hm)) as Hp.
  destruct (pushOnce _ _ _ _) as [pushed processed'].
  destruct (entityLoop corpus searchTerm processed' rest) as [rs|] eqn:E; simpl; [|done].
  intros [= <-]. apply Forall_app. split; [done|by eapply IH].
Qed.

Lemma relationshipLoop_range corpus searchTerm processed todo rows :
  relationshipLoop corpus searchTerm processed todo = Ok rows → Forall inRange rows.
Proof.
  revert processed rows. induction todo as [|e rest IH]; intros processed rows; simpl.
  { intros [= <-]. constructor. }
  destruct (matchRelationship searchTerm e) as [[[[mt md] sc]|]|] eqn:Hm; simpl;
    [|by apply IH|done].
  pose proof (pushOnce_range corpus (Relationship.episode_id e) mt md sc processed
                (matchRelationship_range _ _ _ _ _ Hm)) as Hp.
  destruct (pushOnce _ _ _ _) as [pushed processed'].
  destruct (relationshipLoop corpus searchTerm processed' rest) as [rs|] eqn:E;
    simpl; [|done].
  intros [= <-]. apply Forall_app. split; [done|by eapply IH].
Qed.



End SearchRows.

Section SearchComplete.
Import Search Examples.

(** For a term and a field written in ASCII the score does not depend on
    their case: lower-casing either changes neither the matches nor the
    length the penalty is computed from. *)
Theorem score_ignores_case (searchTerm text matchType : string) :
  allChars JS.isAscii searchTerm = true →
  allChars JS.isAscii text = true →
  calculateRelevanceScore (JS.toLowerCase searchTerm) (JS.toLowerCase text) matchType
  = calculateRelevanceScore searchTerm text matchType
  ∧ calculateRelevanceScore (JS.toLowerCase searchTerm) text matchType
    = calculateRelevanceScore searchTerm text matchType
  ∧ calculateRelevanceScore searchTerm (JS.toLowerCase text) matchType
    = calculateRelevanceScore searchTerm text matchType.
Proof.
  intros _ _. unfold calculateRelevanceScore.
  by rewrite !toLowerCase_idemp, toLowerCase_length.
Qed.

Lemma score_ignores_case_witness :
  calculateRelevanceScore "bezos" "the bezos letters" "episode_title"
  = calculateRelevanceScore "BEZOS" "The Bezos Letters" "episode_title".
Proof.
  apply (score_ignores_case "BEZOS" "The Bezos Letters" "episode_title"); reflexivity.
Defined.

Lemma includes_empty_hay needle : JS.includes "" needle = true → needle = "".
Proof. by destruct needle. Qed.

Lemma matchEpisode_hits searchTerm episode hit :
  matchEpisode searchTerm episode = Ok hit →
  JS.includes (JS.toLowerCase (title episode)) (JS.toLowerCase searchTerm) = true
  ∨ JS.includes (JS.toLowerCase (Search.text episode)) (JS.toLowerCase searchTerm) = true →
  is_Some hit.
Proof.
  unfold matchEpisode. intros Hm Hinc.
  destruct (JS.includes (JS.toLowerCase (title episode)) _) eqn:Ht.
  { destruct (calculateRelevanceScore _ _ _); simpl in Hm; [|done].
    injection Hm as <-. by eexists. }
  destruct Hinc as [?|Hx]; [done|]. rewrite Hx in Hm.
  destruct (Search.text episode) as [|c t] eqn:Etext.
  { apply includes_empty_hay in Hx. rewrite Hx, includes_nil in Ht. done. }
  simpl in Hm. destruct (calculateRelevanceScore _ _ _); simpl in Hm; [|done].
  injection Hm as <-. by eexists.
Qed.

Lemma matchEntity_hits searchTerm entity hit :
  matchEntity searchTerm entity = Ok hit →
  JS.includes (JS.toLowerCase (Entity.name entity)) (JS.toLowerCase searchTerm) = true
  ∨ JS.includes (JS.toLowerCase (Entity.context entity)) (JS.toLowerCase searchTerm) = true →
  is_Some hit.
Proof.
  unfold matchEntity. intros Hm Hinc.
  destruct (JS.includes (JS.toLowerCase (Entity.name entity)) _) eqn:Ht.
  { destruct (calculateRelevanceScore _ _ _); simpl in Hm; [|done].
    injection Hm as <-. by eexists. }
  destruct Hinc as [?|Hx]; [done|]. rewrite Hx in Hm.
  destruct (Entity.context entity) as [|c t] eqn:Etext.
  { apply includes_empty_hay in Hx. rewrite Hx, includes_nil in Ht. done. }
  simpl in Hm. destruct (calculateRelevanceScore _ _ _); simpl in Hm; [|done].
  injection Hm as <-. by eexists.
Qed.

Lemma matchRelationship_hits searchTerm relationship hit :
  matchRelationship searchTerm relationship = Ok hit →
  JS.includes (JS.toLowerCase (Relationship.description relationship))
              (JS.toLowerCase searchTerm) = true
  ∨ JS.includes (JS.toLowerCase (Relationship.relationship_type relationship))
                (JS.toLowerCase searchTerm) = true →
  is_Some hit.
Proof.
  unfold matchRelationship. intros Hm Hinc.
  destruct (JS.truthy (Relationship.description relationship)
            && JS.includes (JS.toLowerCase (Relationship.description relationship)) _)
    eqn:Hd.
  { destruct (calculateRelevanceScore _ _ _); simpl in Hm; [|done].
    injection Hm as <-. by eexists. }
  assert (JS.includes (JS.toLowerCase (Relationship.relationship_type relationship))
                      (JS.toLowerCase searchTerm) = true) as Ht.
  { destruct Hinc as [Hx|?]; [|done]. rewrite Hx, andb_true_r in Hd.
    destruct (Relationship.description relationship); [|done].
    apply includes_empty_hay in Hx. rewrite Hx. apply includes_nil. }
  rewrite Ht in Hm. destruct (calculateRelevanceScore _ _ _); simpl in Hm; [|done].
  injection Hm as <-. by eexists.
Qed.

Lemma episodeLoop_complete corpus searchTerm todo rows :
  episodeLoop corpus searchTerm todo = Ok rows →
  ∀ ep, ep ∈ todo →
    JS.includes (JS.toLowerCase (title ep)) (JS.toLowerCase searchTerm) = true
    ∨ JS.includes (JS.toLowerCase (Search.text ep)) (JS.toLowerCase searchTerm) = true →
    ∃ r, r ∈ rows ∧ r_episode_id r = episode_id ep.
Proof.
  revert rows. induction todo as [|e0 rest IH]; intros rows; simpl.
  { intros _ ep ?%elem_of_nil. done. }
  destruct (matchEpisode searchTerm e0) as [hit|] eqn:Hm; simpl; [|done].
  destruct (episodeLoop corpus searchTerm rest) as [rs|]; simpl; [|done].
  intros [= <-] ep [->|Hin]%elem_of_cons Hinc.
  - destruct (matchEpisode_hits _ _ _ Hm Hinc) as [[[mt md] sc] ->].
    eexists. split; [by left|done].
  - destruct (IH rs eq_refl ep Hin Hinc) as (r & Hr & Hid). exists r.
    split; [|done]. destruct hit as [[[mt md] sc]|]; [by right|done].
Qed.

Lemma findEpisodeById_is_Some corpus episodeId :
  (∃ ep, ep ∈ episodes corpus ∧ episode_id ep = episodeId) →
  is_Some (findEpisodeById corpus episodeId).
Proof.
  intros (ep & Hin & Hid). unfold findEpisodeById.
  destruct (find _ _) as [x|] eqn:E; [by eexists|].
  apply list_elem_of_In in Hin. pose proof (find_none _ _ E ep Hin) as Hc.
  simpl in Hc. rewrite Hid, String.eqb_refl in Hc. done.
Qed.

Lemma pushOnce_serves corpus episodeId hit processed :
  is_Some (findEpisodeById corpus episodeId) →
  let out := pushOnce corpus episodeId hit processed in
  (episodeId ∈ processed ∨ ∃ r, r ∈ out.1 ∧ r_episode_id r = episodeId)
  ∧ ∀ k, k ∈ out.2 → k = episodeId ∨ k ∈ processed.
Proof.
  intros [ep Hep]. unfold pushOnce. rewrite Hep. case_decide; simpl.
  - split; [by left|]. by right.
  - split; [|set_solver]. right. eexists. split; [by left|done].
Qed.

Lemma pushOnce_keys corpus episodeId hit processed k :
  k ∈ (pushOnce corpus episodeId hit processed).2 → k = episodeId ∨ k ∈ processed.
Proof. unfold pushOnce. case_decide; simpl; set_solver. Qed.

Lemma entityLoop_complete corpus searchTerm processed todo rows :
  entityLoop corpus searchTerm processed todo = Ok rows →
  ∀ e, e ∈ todo →
    JS.includes (JS.toLowerCase (Entity.name e)) (JS.toLowerCase searchTerm) = true
    ∨ JS.includes (JS.toLowerCase (Entity.context e)) (JS.toLowerCase searchTerm) = true →
    is_Some (findEpisodeById corpus (Entity.episode_id e)) →
    Entity.episode_id e ∈ processed
    ∨ ∃ r, r ∈ rows ∧ r_episode_id r = Entity.episode_id e.
Proof.
  revert processed rows. induction todo as [|e0 rest IH]; intros processed rows; simpl.
  { intros _ e ?%elem_of_nil. done. }
  destruct (matchEntity searchTerm e0) as [hit|] eqn:Hm; simpl; [|done].
  destruct hit as [h|].
  - destruct (pushOnce corpus (Entity.episode_id e0) h processed)
      as [pushed processed'] eqn:Hpush.
    destruct (entityLoop corpus searchTerm processed' rest) as [rs|] eqn:E; simpl; [|done].
    intros [= <-] e [->|Hin]%elem_of_cons Hinc Hfound.
    + destruct (pushOnce_serves corpus (Entity.episode_id e0) h processed Hfound)
        as [[?|(r & Hr & Hid)] _]; [by left|].
      rewrite Hpush in Hr. right. exists r. split; [|done]. apply elem_of_app. by left.
    + destruct (IH _ _ E e Hin Hinc Hfound) as [Hk|(r & Hr & Hid)].
      * pose proof (pushOnce_keys corpus (Entity.episode_id e0) h processed
                      (Entity.episode_id e)) as Hkeys.
        rewrite Hpush in Hkeys. destruct (Hkeys Hk) as [Heq|?]; [|by left].
        rewrite Heq in Hfound.
        destruct (pushOnce_serves corpus (Entity.episode_id e0) h processed Hfound)
          as [[?|(r & Hr & Hid)] _]; [left; by rewrite Heq|].
        rewrite Hpush in Hr. right. exists r.
        split; [apply elem_of_app; by left|by rewrite Heq].
      * right. exists r. split; [apply elem_of_app; by right|done].
  - intros Hloop e [->|Hin]%elem_of_cons Hinc Hfound.
    + by destruct (matchEntity_hits _ _ _ Hm Hinc).
    + by eapply IH.
Qed.

Lemma relationshipLoop_complete corpus searchTerm processed todo rows :
  relationshipLoop corpus searchTerm processed todo = Ok rows →
  ∀ x, x ∈ todo →
    JS.includes (JS.toLowerCase (Relationship.description x))
                (JS.toLowerCase searchTerm) = true
    ∨ JS.includes (JS.toLowerCase (Relationship.relationship_type x))
                  (JS.toLowerCase searchTerm) = true →
    is_Some (findEpisodeById corpus (Relationship.episode_id x)) →
    Relationship.episode_id x ∈ processed
    ∨ ∃ r, r ∈ rows ∧ r_episode_id r = Relationship.episode_id x.
Proof.
  revert processed rows. induction todo as [|e0 rest IH]; intros processed rows; simpl.
  { intros _ e ?%elem_of_nil. done. }
  destruct (matchRelationship searchTerm e0) as [hit|] eqn:Hm; simpl; [|done].
  destruct hit as [h|].
  - destruct (pushOnce corpus (Relationship.episode_id e0) h processed)
      as [pushed processed'] eqn:Hpush.
    destruct (relationshipLoop corpus searchTerm processed' rest) as [rs|] eqn:E;
      simpl; [|done].
    intros [= <-] e [->|Hin]%elem_of_cons Hinc Hfound.
    + destruct (pushOnce_serves corpus (Relationship.episode_id e0) h processed Hfound)
        as [[?|(r & Hr & Hid)] _]; [by left|].
      rewrite Hpush in Hr. right. exists r. split; [|done]. apply elem_of_app. by left.
    + destruct (IH _ _ E e Hin Hinc Hfound) as [Hk|(r & Hr & Hid)].
      * pose proof (pushOnce_keys corpus (Relationship.episode_id e0) h processed
                      (Relationship.episode_id e)) as Hkeys.
        rewrite Hpush in Hkeys. destruct (Hkeys Hk) as [Heq|?]; [|by left].
        rewrite Heq in Hfound.
        destruct (pushOnce_serves corpus (Relationship.episode_id e0) h processed Hfound)
          as [[?|(r & Hr & Hid)] _]; [left; by rewrite Heq|].
        rewrite Hpush in Hr. right. exists r.
        split; [apply elem_of_app; by left|by rewrite Heq].
      * right. exists r. split; [apply elem_of_app; by right|done].
  - intros Hloop e [->|Hin]%elem_of_cons Hinc Hfound.
    + by destruct (matchRelationship_hits _ _ _ Hm Hinc).
    + by eapply IH.
Qed.



End SearchComplete.

(** ** Episode numbers *)

Section EpisodeNumbers.
Import EpisodeParser.

Lemma pretty_N_char_digit x : (x < 10)%N →
  isDigit (pretty_N_char x) = true
  ∧ (Z.of_nat (nat_of_ascii (pretty_N_char x)) - 48 = Z.of_N x)%Z.
Proof.
  intros Hx.
  assert (x = 0 ∨ x = 1 ∨ x = 2 ∨ x = 3 ∨ x = 4 ∨ x = 5 ∨ x = 6 ∨ x = 7 ∨ x = 8 ∨ x = 9)%N
    as Hcases by lia.
  repeat (destruct Hcases as [->|Hcases]; [by split|]). by subst.
Qed.

Lemma pretty_N_go_digits x s :
  Search.allChars isDigit s = true → Search.allChars isDigit (pretty_N_go x s) = true.
Proof.
  revert s. induction (N.lt_wf_0 x) as [x _ IH]; intros s Hs.
  assert (x = 0 ∨ 0 < x)%N as [->|Hpos] by lia; [by rewrite pretty_N_go_0|].
  rewrite pretty_N_go_step by done. apply IH; [by apply N.div_lt|].
  simpl. rewrite Hs. by rewrite (proj1 (pretty_N_char_digit (x `mod` 10)%N
                                          ltac:(by apply N.mod_lt))).
Qed.

Lemma parseDigits_pretty_N_go x s :
  parseDigits 0 (pretty_N_go x s) = parseDigits (Z.of_N x) s.
Proof.
  revert s. induction (N.lt_wf_0 x) as [x _ IH]; intros s.
  assert (x = 0 ∨ 0 < x)%N as [->|Hpos] by lia; [by rewrite pretty_N_go_0|].
  rewrite pretty_N_go_step by done. rewrite IH by (by apply N.div_lt).
  simpl. f_equal.
  rewrite (proj2 (pretty_N_char_digit (x `mod` 10)%N ltac:(by apply N.mod_lt))).
  rewrite (N.div_mod x 10) at 3 by done. lia.
Qed.

Lemma pretty_N_go_not_nil x s : s ≠ "" → pretty_N_go x s ≠ "".
Proof.
  revert s. induction (N.lt_wf_0 x) as [x _ IH]; intros s Hs.
  assert (x = 0 ∨ 0 < x)%N as [->|Hpos] by lia; [by rewrite pretty_N_go_0|].
  rewrite pretty_N_go_step by done. apply IH; [by apply N.div_lt|done].
Qed.

Lemma pretty_N_digits (n : N) :
  Search.allChars isDigit (pretty n) = true
  ∧ pretty n ≠ ""
  ∧ parseDigits 0 (pretty n) = Z.of_N n.
Proof.
  unfold pretty, pretty_N. case_decide as Hn; [by subst|].
  split; [by apply pretty_N_go_digits|]. split.
  - assert (0 < n)%N as Hpos by lia. rewrite pretty_N_go_step by done.
    by apply pretty_N_go_not_nil.
  - by rewrite parseDigits_pretty_N_go.
Qed.

Lemma takeDigits_app digits rest :
  Search.allChars isDigit digits = true →
  (match rest with String c _ => isDigit c | EmptyString => false end) = false →
  takeDigits (digits +:+ rest) = digits.
Proof.
  intros Hd Hr. induction digits as [|c t IH]; simpl in *.
  - destruct rest as [|c r]; simpl; [done|]. by rewrite Hr.
  - apply andb_true_iff in Hd as [-> Ht]. by rewrite IH.
Qed.

Lemma trimEnd_cons c t :
  IdMapper.isSpace c = false → IdMapper.trimEnd (String c t) = String c (IdMapper.trimEnd t).
Proof. intros Hc. simpl. rewrite Hc. by destruct (IdMapper.trimEnd t). Qed.

Lemma isDigit_not_space c : isDigit c = true → IdMapper.isSpace c = false.
Proof. by destruct c as [[] [] [] [] [] [] [] []]. Qed.

Lemma trimEnd_digits digits rest :
  Search.allChars isDigit digits = true →
  IdMapper.trimEnd (digits +:+ rest) = digits +:+ IdMapper.trimEnd rest.
Proof.
  induction digits as [|c t IH]; [done|].
  intros [Hc Ht]%andb_true_iff.
  change (String c t +:+ rest) with (String c (t +:+ rest)).
  rewrite trimEnd_cons by (by apply isDigit_not_space). by rewrite IH.
Qed.

Lemma trimEnd_head rest :
  (match rest with String c _ => isDigit c | EmptyString => false end) = false →
  (match IdMapper.trimEnd rest with String c _ => isDigit c | EmptyString => false end)
  = false.
Proof.
  destruct rest as [|c t]; simpl; [done|]. intros Hc.
  destruct (IdMapper.trimEnd t); [destruct (IdMapper.isSpace c)|]; simpl; done.
Qed.

(** A title that begins with [#] and the decimal numeral of [n], a number
    JS represents exactly, followed by something that is not a digit,
    yields the episode number [n], whatever the time information says. *)
Theorem episode_number_of_numbered_title (n : N) (rest timeInfo : string) :
  (n <= maxSafeInteger)%N →
  (match rest with String c _ => isDigit c | EmptyString => false end) = false →
  extractEpisodeNumber ("#" +:+ pretty n +:+ rest) timeInfo = Some (Z.of_N n).
Proof.
  intros _ Hrest. destruct (pretty_N_digits n) as (Hd & Hne & Hval).
  unfold extractEpisodeNumber, IdMapper.trim.
  change (IdMapper.trimStart ("#" +:+ pretty n +:+ rest))
    with (String "#" (pretty n +:+ rest)).
  rewrite trimEnd_cons by done. rewrite trimEnd_digits by done.
  rewrite Ascii.eqb_refl. unfold leadingNumber.
  rewrite takeDigits_app; [|done|by apply trimEnd_head].
  destruct (pretty n) as [|a s0]; [done|]. by rewrite Hval.
Qed.

Lemma episode_number_of_numbered_title_witness :
  extractEpisodeNumber "#123 The Bezos Letters" "E7" = Some 123%Z.
Proof.
  apply (episode_number_of_numbered_title 123 " The Bezos Letters" "E7");
    [by vm_compute|reflexivity].
Defined.

Lemma parseDigits_nonneg acc digits :
  Search.allChars isDigit digits = true → (0 <= acc)%Z → (0 <= parseDigits acc digits)%Z.
Proof.
  revert acc. induction digits as [|c t IH]; intros acc; simpl; [done|].
  rewrite andb_true_iff. intros [Hc Ht] Hacc. apply IH; [done|].
  unfold isDigit in Hc. apply andb_true_iff in Hc as [H1%Nat.leb_le _]. lia.
Qed.

Lemma takeDigits_digits s : Search.allChars isDigit (takeDigits s) = true.
Proof.
  induction s as [|c t IH]; simpl; [done|].
  destruct (isDigit c) eqn:Hc; simpl; [|done]. by rewrite Hc, IH.
Qed.

Lemma leadingNumber_nonneg s n : leadingNumber s = Some n → (0 <= n)%Z.
Proof.
  unfold leadingNumber. pose proof (takeDigits_digits s) as Hd.
  destruct (takeDigits s) as [|c t]; [done|]. intros [= <-].
  apply (parseDigits_nonneg 0 (String c t)); [done|lia].
Qed.

Lemma numberAfterE_nonneg s n : numberAfterE s = Some n → (0 <= n)%Z.
Proof.
  induction s as [|c t IH]; simpl; [done|].
  destruct (Ascii.eqb c "E"); [|done].
  destruct (leadingNumber t) as [k|] eqn:E; [|done].
  intros [= <-]. by eapply leadingNumber_nonneg.
Qed.

(** An extracted episode number is never negative, and there is none when
    the title does not begin with [#] and the time information holds no
    [E]. *)
Theorem episode_number_nonneg (title timeInfo : string) :
  (∀ n, extractEpisodeNumber title timeInfo = Some n → (0 <= n)%Z)
  ∧ (JS.startsWith (IdMapper.trim title) "#" = false →
     JS.includes timeInfo "E" = false →
     extractEpisodeNumber title timeInfo = None).
Proof.
  unfold extractEpisodeNumber. split.
  - intros n. destruct (IdMapper.trim title) as [|c t]; simpl.
    + destruct (JS.includes timeInfo "E"); [apply numberAfterE_nonneg|done].
    + destruct (Ascii.eqb c "#").
      * destruct (leadingNumber t) as [k|] eqn:E.
        { intros [= <-]. by eapply leadingNumber_nonneg. }
        destruct (JS.includes timeInfo "E"); [apply numberAfterE_nonneg|done].
      * destruct (JS.includes timeInfo "E"); [apply numberAfterE_nonneg|done].
  - intros Ht ->. destruct (IdMapper.trim title) as [|c t]; [done|].
    simpl in Ht. destruct (Ascii.eqb_spec "#" c) as [<-|Hc]; [by destruct t|].
    by rewrite (proj2 (Ascii.eqb_neq c "#")) by congruence.
Qed.

End EpisodeNumbers.

Section SortStable.
Import Search Examples.

Lemma insertRow_scoring q r sorted :
  scoring q (insertRow r sorted) = scoring q (r :: sorted).
Proof.
  induction sorted as [|x rest IH]; [done|].
  change (insertRow r (x :: rest))
    with (if Linker.gt (relevance_score x) (relevance_score r)
          then x :: insertRow r rest else r :: x :: rest).
  destruct (Linker.gt (relevance_score x) (relevance_score r)) eqn:Hgt; [|done].
  apply gt_spec in Hgt. unfold scoring in *. simpl in *. rewrite IH.
  destruct (Qeq_bool (relevance_score x) q) eqn:Hx;
    destruct (Qeq_bool (relevance_score r) q) eqn:Hr; try done.
  apply Qeq_bool_iff in Hx, Hr. rewrite Hx, Hr in Hgt. by apply Qlt_irrefl in Hgt.
Qed.

(** The sort loses and adds no row, and it is stable: rows with the same
    score stay in the order they had. *)
Theorem sortByScore_stable (rows : list SearchResult) (q : Q) :
  sortByScore rows ≡ₚ rows ∧ scoring q (sortByScore rows) = scoring q rows.
Proof.
  split; [apply sortByScore_perm|].
  induction rows as [|r rest IH]; [done|].
  change (sortByScore (r :: rest)) with (insertRow r (sortByScore rest)).
  rewrite insertRow_scoring. unfold scoring in *. simpl. by rewrite IH.
Qed.

End SortStable.
